(** * Soundraw extension: cache, configuration, API client and playback

    A shallow embedding of the Soundraw Raycast extension
    (extensions/soundraw/src):
    - [File]: lib/file.ts, the path resolver and the cache/downloader, together
      with the per-sample step of [prepareFiles] (search-samples.tsx);
    - [Storage]: lib/storage.ts, the persisted configuration;
    - [Soundraw]: lib/soundraw.ts, the API client;
    - [Audio]: lib/audio.ts, the playback state manager with its promise
      queue, over a small model of promises and the job queue;
    - [Commands]: [hasValidConfig] of lib/storage.ts, the [onSubmit] of the
      set-up command and of the search command, and the object of paths
      that [prepareFiles] builds. *)

From Stdlib Require Import Ascii NArith Lia.
From stdpp Require Import gmap strings list pretty.

Local Open Scope string_scope.
Local Open Scope list_scope.
Set Warnings "-register-all,-clear-no-such-hyp".

(** ** Values shared by the modules *)

(** What a rejected promise or a [throw] carries.  lib/soundraw.ts declares
    [SoundrawAPIError(message, status?)]; every other failure is a plain
    [Error] with a message; the downloader's failure carries the status and the
    reason. *)
Inductive Error : Type :=
| SoundrawAPIError (message : string) (status : option nat)
| DownloadError (status : option nat) (reason : string)
| JsError (message : string).

Definition errorMessage (e : Error) : string :=
  match e with
  | SoundrawAPIError m _ => m
  | DownloadError _ r => r
  | JsError m => m
  end.

(** lib/types.ts: [Sample]. *)
Record Sample : Type := mkSample {
  sample_id : string;
  sample_name : string;
  sample_url : string;          (* the field [sample] *)
  sample_bpm : option nat
}.

(** The result of [getOrDownloadFile]. *)
Record DownloadedFile : Type := mkDownloaded {
  df_path : string;
  df_buffer : list Byte.byte;
  df_contentType : option string
}.

(** What [fetch] answers for a URL: a transport failure, or a response. *)
Record Response : Type := mkResponse {
  resp_ok : bool;
  resp_status : nat;
  resp_statusText : string;
  resp_body : list Byte.byte;
  resp_contentType : string
}.

Inductive FetchResult : Type :=
| FetchFailed (message : string)
| FetchResponse (r : Response).

(** The part of the machine the cache touches: the files on disk and the
    URLs requested from the network so far, in order. *)
Record Disk : Type := mkDisk {
  files : gmap string (list Byte.byte);
  requested : list string
}.

Definition existsSync (path : string) (d : Disk) : bool :=
  bool_decide (is_Some (files d !! path)).

(** [fs.statSync(path).size] for a file that exists. *)
Definition statSize (path : string) (d : Disk) : nat :=
  match files d !! path with
  | Some bytes => length bytes
  | None => 0
  end.

Definition unlinkSync (path : string) (d : Disk) : Disk :=
  mkDisk (delete path (files d)) (requested d).

Definition writeFile (path : string) (bytes : list Byte.byte) (d : Disk) : Disk :=
  mkDisk (<[path := bytes]> (files d)) (requested d).

Definition recordRequest (url : string) (d : Disk) : Disk :=
  mkDisk (files d) (requested d ++ [url]).

(** ** lib/file.ts *)

Module File.

(** *** Fingerprint and path resolver *)

Definition inRange (lo hi : nat) (c : ascii) : bool :=
  (lo <=? nat_of_ascii c)%nat && (nat_of_ascii c <=? hi)%nat.

(** The safe set: alphanumeric, space, dash, underscore. *)
Definition isSafeChar (c : ascii) : bool :=
  inRange 48 57 c || inRange 65 90 c || inRange 97 122 c
  || inRange 32 32 c || inRange 45 45 c || inRange 95 95 c.

Fixpoint stripUnsafe (s : string) : string :=
  match s with
  | EmptyString => EmptyString
  | String c r => if isSafeChar c then String c (stripUnsafe r) else stripUnsafe r
  end.

Fixpoint collapseSpaces (s : string) : string :=
  match s with
  | EmptyString => EmptyString
  | String c r =>
      match r with
      | String c' _ =>
          if inRange 32 32 c && inRange 32 32 c' then collapseSpaces r
          else String c (collapseSpaces r)
      | EmptyString => String c EmptyString
      end
  end.

(** Modelled from the spec: the name sanitiser of lib/file.ts, which is not
    among the sources; section 4.1: strip the characters outside the safe
    set, collapse whitespace. *)
Definition sanitizeName (name : string) : string :=
  collapseSpaces (stripUnsafe name).

Definition hexDigit (v : N) : ascii :=
  match v with
  | 0%N => "0" | 1%N => "1" | 2%N => "2" | 3%N => "3"
  | 4%N => "4" | 5%N => "5" | 6%N => "6" | 7%N => "7"
  | 8%N => "8" | 9%N => "9" | 10%N => "a" | 11%N => "b"
  | 12%N => "c" | 13%N => "d" | 14%N => "e" | _ => "f"
  end%char.

(** [w] hexadecimal digits of [v], most significant first. *)
Fixpoint toHex (w : nat) (v : N) : string :=
  match w with
  | O => EmptyString
  | S w' => toHex w' (v / 16)%N +:+ String (hexDigit (v mod 16)%N) EmptyString
  end.

(** The suffix after the last occurrence of [c], when there is one. *)
Fixpoint afterLast (c : ascii) (s : string) : option string :=
  match s with
  | EmptyString => None
  | String a r =>
      match afterLast c r with
      | Some t => Some t
      | None => if Ascii.eqb a c then Some r else None
      end
  end.

(** The prefix before the first occurrence of [c] (all of [s] without one). *)
Fixpoint beforeFirst (c : ascii) (s : string) : string :=
  match s with
  | EmptyString => EmptyString
  | String a r => if Ascii.eqb a c then EmptyString else String a (beforeFirst c r)
  end.

Definition defaultExtension : string := ".m4a".

(** Modelled from the spec: the extension inferred from the URL's path
    suffix (section 4.1), for the resolver of lib/file.ts: the text after the
    last dot of the last path segment, query and fragment apart. *)
Definition inferExtension (url : string) : option string :=
  let path := beforeFirst "?" (beforeFirst "#" url) in
  let segment := default path (afterLast "/" path) in
  match afterLast "." segment with
  | Some EmptyString => None
  | Some e => Some ("." +:+ e)
  | None => None
  end.

Section Resolver.

(** The content hash of lib/file.ts is a platform digest: its value on a
    URL is a number; the resolver keeps [hashLen] hexadecimal digits. *)
Variable digest : string -> N.
Variable hashLen : nat.

Definition shortHash (url : string) : string :=
  toHex hashLen (digest url mod 16 ^ N.of_nat hashLen)%N.

(** Modelled from the spec: [getExpectedFilePath(url, name, extension,
    baseDir)] of lib/file.ts, which is not among the sources; section 4.1
    ([resolvePath]): the sanitised name, a short hash of the URL, and an
    extension: the explicit one, else the one inferred from the URL, else
    the default. *)
Definition getExpectedFilePath
    (url name : string) (extension : option string) (baseDir : string) : string :=
  let ext :=
    match extension with
    | Some e => e
    | None => default defaultExtension (inferExtension url)
    end in
  baseDir +:+ "/" +:+ sanitizeName name +:+ "_" +:+ shortHash url +:+ ext.

(** *** Cache / downloader *)

Variable fetch : string -> FetchResult.

Definition fetchAndStore (url path : string) (d : Disk)
    : (Error + DownloadedFile) * Disk :=
  let d1 := recordRequest url d in
  match fetch url with
  | FetchFailed m => (inl (DownloadError None m), d1)
  | FetchResponse r =>
      if negb (resp_ok r) then
        (inl (DownloadError (Some (resp_status r)) (resp_statusText r)), d1)
      else
        match resp_body r with
        | [] => (inl (DownloadError (Some (resp_status r)) "empty content"), d1)
        | _ :: _ =>
            (inr (mkDownloaded path (resp_body r) (Some (resp_contentType r))),
             writeFile path (resp_body r) d1)
        end
  end.

(** Modelled from the spec: [getOrDownloadFile(url, baseDir, name)] of
    lib/file.ts, which is not among the sources; section 4.2: a file of
    nonzero size at the expected path is a hit, read and returned without a
    network call; otherwise the URL is fetched; a non-success status, a
    transport failure or empty content (section 7) fail with a
    [DownloadError] and write nothing; a success writes the body to the
    path. *)
Definition getOrDownloadFile (url baseDir name : string) (d : Disk)
    : (Error + DownloadedFile) * Disk :=
  let path := getExpectedFilePath url name None baseDir in
  match files d !! path with
  | Some (b :: bs) => (inr (mkDownloaded path (b :: bs) None), d)
  | _ => fetchAndStore url path d
  end.

(** search-samples.tsx, [prepareFiles]: the function mapped over the
    samples.  It answers the entry [{sampleId, path}] of the sample, or
    [null]. *)
Definition prepareFile (sample : Sample) (d : Disk)
    : option (string * string) * Disk :=
  let expectedPath :=
    getExpectedFilePath (sample_url sample) (sample_name sample) None "/tmp" in
  if existsSync expectedPath d && (0 <? statSize expectedPath d)%nat then
    (Some (sample_id sample, expectedPath), d)
  else
    match getOrDownloadFile (sample_url sample) "/tmp" (sample_name sample) d with
    | (inr f, d') =>
        if existsSync (df_path f) d' then
          if (0 <? statSize (df_path f) d')%nat
          then (Some (sample_id sample, df_path f), d')
          else (None, d')
        else (None, d')
    | (inl _, d') => (None, d')            (* caught and logged *)
    end.

End Resolver.

End File.

(** ** lib/storage.ts *)

Module Storage.

(** A parsed JSON value.  Numbers are kept as integers: the configuration
    holds none. *)
Inductive Json : Type :=
| JNull
| JBool (b : bool)
| JNumber (n : Z)
| JString (s : string)
| JArray (items : list Json)
| JObject (fields : list (string * Json)).

(** A JavaScript value read from storage: [None] is [undefined]. *)
Definition JsValue : Type := option Json.

(** [!!v]. *)
Definition truthy (v : JsValue) : bool :=
  match v with
  | None | Some JNull => false
  | Some (JBool b) => b
  | Some (JNumber n) => negb (n =? 0)%Z
  | Some (JString s) => negb (String.eqb s "")
  | Some (JArray _) | Some (JObject _) => true
  end.

(** The value of key [k] in an object's fields; a later duplicate wins, as
    in [JSON.parse]. *)
Fixpoint field (k : string) (fields : list (string * Json)) : JsValue :=
  match fields with
  | [] => None
  | (k', v) :: rest =>
      match field k rest with
      | Some w => Some w
      | None => if String.eqb k' k then Some v else None
      end
  end.

(** [v.k] for a parsed value [v]: a [TypeError] on [null] (the outer
    [None]), [undefined] on a value that has no such property. *)
Definition getProp (v : Json) (k : string) : option JsValue :=
  match v with
  | JNull => None
  | JObject fields => Some (field k fields)
  | _ => Some None
  end.

(** [v?.k]. *)
Definition getPropOpt (v : JsValue) (k : string) : JsValue :=
  match v with
  | None | Some JNull => None
  | Some w => default None (getProp w k)
  end.

Definition STORAGE_KEY : string := "soundraw_state".

(** [StoredState]: the field is whatever the parsed object held. *)
Record StoredState : Type := mkStored { soundrawConfig : JsValue }.

Definition emptyState : StoredState := mkStored None.

Section Parser.

(** [JSON.parse] and [JSON.stringify] are the platform's; [JSON.parse]
    throws a [SyntaxError] on a text that is not JSON ([None]). *)
Variable JSON_parse : string -> option Json.
Variable JSON_stringify : Json -> string.

(** The storage is the key-value store of the host ([LocalStorage]). *)
Definition readState (storage : gmap string string) : StoredState :=
  match storage !! STORAGE_KEY with
  | None => emptyState
  | Some raw =>
      if String.eqb raw "" then emptyState
      else
        match JSON_parse raw with
        | None => emptyState                      (* catch *)
        | Some parsed =>
            match getProp parsed "soundrawConfig" with
            | None => emptyState                  (* catch: TypeError *)
            | Some v => mkStored v
            end
        end
  end.

(** [JSON.stringify] leaves an [undefined] field out. *)
Definition stateToJson (s : StoredState) : Json :=
  match soundrawConfig s with
  | None => JObject []
  | Some v => JObject [("soundrawConfig", v)]
  end.

Definition writeState (next : StoredState) (storage : gmap string string)
    : gmap string string :=
  <[STORAGE_KEY := JSON_stringify (stateToJson next)]> storage.

(** [createdAt] is the clock's reading, [new Date().toISOString()]. *)
Definition saveSoundrawConfig (token apiBaseUrl createdAt : string)
    (storage : gmap string string) : gmap string string :=
  let config :=
    JObject [("token", JString token); ("apiBaseUrl", JString apiBaseUrl);
             ("createdAt", JString createdAt)] in
  writeState (mkStored (Some config)) storage.

Definition getSoundrawConfig (storage : gmap string string) : JsValue :=
  soundrawConfig (readState storage).

Definition getSoundrawToken (storage : gmap string string) : JsValue :=
  getPropOpt (getSoundrawConfig storage) "token".

Definition getSoundrawApiBaseUrl (storage : gmap string string) : JsValue :=
  getPropOpt (getSoundrawConfig storage) "apiBaseUrl".

Definition deleteSoundrawConfig (storage : gmap string string)
    : gmap string string :=
  writeState (mkStored None) storage.

End Parser.

End Storage.

(** ** lib/soundraw.ts *)

Module Soundraw.

Import Storage.

(** One call of [fetch]: the URL and the headers sent. *)
Record ApiRequest : Type := mkApiRequest {
  req_url : string;
  req_headers : list (string * string)
}.

Record ApiResponse : Type := mkApiResponse {
  api_ok : bool;
  api_status : nat;
  api_statusText : string;
  api_json : string + Json      (* [response.json()]: a failure's message, or the body *)
}.

Inductive ApiFetchResult : Type :=
| ApiFailed (message : string)
| ApiAnswered (r : ApiResponse).

(** The host as the client sees it: the settings store and the requests
    sent to the network so far. *)
Record Host : Type := mkHost {
  storage : gmap string string;
  sent : list ApiRequest
}.

(** The text a template literal makes of a value. *)
Fixpoint jsonToStr (v : Json) : string :=
  match v with
  | JNull => "null"
  | JBool true => "true"
  | JBool false => "false"
  | JNumber n => pretty n
  | JString s => s
  | JArray items =>
      (fix join (l : list Json) : string :=
         match l with
         | [] => ""
         | [x] => match x with JNull => "" | _ => jsonToStr x end
         | x :: rest =>
             (match x with JNull => "" | _ => jsonToStr x end) +:+ "," +:+ join rest
         end) items
  | JObject _ => "[object Object]"
  end.

Definition toStr (v : JsValue) : string :=
  match v with
  | None => "undefined"
  | Some w => jsonToStr w
  end.

Definition noTokenMessage : string :=
  "No API token found. Please set up your token first.".

Definition noBaseUrlMessage : string :=
  "No API base URL found. Please set up your configuration first.".

Record SearchSamplesRequest : Type := mkSearch {
  genres : option (list string);
  page : option nat;
  limit : option nat
}.

Section Client.

Variable JSON_parse : string -> option Json.
Variable fetch : ApiRequest -> ApiFetchResult.
(** The serialiser of [URLSearchParams] for one name or value. *)
Variable urlencode : string -> string.

(** [{...defaults, ...extra}]: a later key replaces an earlier one. *)
Definition mergeHeaders (defaults extra : list (string * string))
    : list (string * string) :=
  filter (fun kv => bool_decide (kv.1 ∉ extra.*1)) defaults ++ extra.

(** [makeRequest(endpoint, options)]; of [options] the headers are kept. *)
Definition makeRequest (endpoint : string) (headers : list (string * string))
    (h : Host) : (Error + Json) * Host :=
  let token := getSoundrawToken JSON_parse (storage h) in
  let apiBaseUrl := getSoundrawApiBaseUrl JSON_parse (storage h) in
  if negb (truthy token) then (inl (SoundrawAPIError noTokenMessage None), h)
  else if negb (truthy apiBaseUrl) then
    (inl (SoundrawAPIError noBaseUrlMessage None), h)
  else
    let url := toStr apiBaseUrl +:+ endpoint in
    let hs :=
      mergeHeaders [("Content-Type", "application/json");
                    ("Authorization", "Bearer " +:+ toStr token)] headers in
    let request := mkApiRequest url hs in
    let h1 := mkHost (storage h) (sent h ++ [request]) in
    match fetch request with
    | ApiFailed m => (inl (SoundrawAPIError ("Network error: " +:+ m) None), h1)
    | ApiAnswered r =>
        if negb (api_ok r) then
          (inl (SoundrawAPIError
                  ("API request failed: " +:+ pretty (api_status r) +:+ " "
                   +:+ api_statusText r)
                  (Some (api_status r))), h1)
        else
          match api_json r with
          | inl m => (inl (SoundrawAPIError ("Network error: " +:+ m) None), h1)
          | inr v => (inr v, h1)
          end
    end.

Definition queryString (params : list (string * string)) : string :=
  String.concat "&" (map (fun kv => urlencode kv.1 +:+ "=" +:+ urlencode kv.2) params).

Definition searchParams (params : SearchSamplesRequest) : list (string * string) :=
  map (fun g => ("genres[]", g)) (default [] (genres params))
  ++ match page params with
     | Some (S n) => [("page", pretty (S n))]
     | _ => []
     end
  ++ match limit params with
     | Some (S n) => [("limit", pretty (S n))]
     | _ => []
     end.

Definition searchSamples (params : SearchSamplesRequest) (h : Host)
    : (Error + Json) * Host :=
  let qs := queryString (searchParams params) in
  let endpoint := "/beats" +:+ (if String.eqb qs "" then "" else "?" +:+ qs) in
  makeRequest endpoint [] h.

Definition getAvailableGenres (h : Host) : (Error + Json) * Host :=
  makeRequest "/tags" [] h.

End Client.

End Soundraw.

(** ** lib/audio.ts *)

Module Audio.

(** *** Observable events

    The lines the module writes with [console.debug], the commands it hands
    to the automation bridge ([runAppleScript]) and the calls of the
    subscribed listeners, in the order they happen. *)

(** The two AppleScript texts of the module. *)
Inductive Script : Type :=
| openAndPlay (sanitizedPath : string)   (* activate, open POSIX file, loop, play *)
| closeFrontDocument.                    (* close front document, when there is one *)

Inductive Event : Type :=
| Invoked (script : Script)                      (* runAppleScript(script) *)
| Notified (listener : nat) (sampleId : option string)
| LogPlayingState (sampleId tempPath : option string)
| LogStoppedState (previous : option string)
| LogEnqueueing
| LogExecuting
| LogOperationFailed (message : string)
| LogOperationCompleted
| LogCleaningUp (path : string)
| LogTempDeleted (path : string)
| LogTempMissing (path : string)
| LogClearing (sampleId : string)
| LogDestroying (listeners : nat)
| LogPlayRequested (sampleId url name : string)
| LogStoppingCurrent (sampleId : string)
| LogGettingFile (url : string)
| LogFileReady (path : string)
| LogLaunching (path : string)
| LogPlaybackStarted (sampleId : string)
| LogPlaybackFailed (sampleId message : string)
| LogStopRequested (sampleId : string)
| LogNothingPlaying
| LogSendingStop
| LogPlayerStopped
| LogStopFailed (message : string)
| LogStopCompleted (sampleId : string)
| LogCleanupPlayback.

(** *** The state of the module *)

(** A promise is named by its position in the promise store. *)
Abbreviation pid := nat.

(** The fields of [PlaybackStateManager].  The class is a singleton
    ([getInstance]): the heap holds its one instance.  A listener is named
    by a number; the set keeps insertion order. *)
Record Manager : Type := mkManager {
  sampleId : option string;          (* [null] is [None] *)
  tempPath : option string;          (* [undefined] is [None] *)
  listeners : list nat;
  playbackQueue : pid
}.

Record Heap : Type := mkHeap {
  manager : Manager;
  disk : Disk;
  trace : list Event
}.

Definition emit (evs : list Event) (h : Heap) : Heap :=
  mkHeap (manager h) (disk h) (trace h ++ evs).

Definition setManager (m : Manager) (h : Heap) : Heap :=
  mkHeap m (disk h) (trace h).

(** A string, [null] or [undefined] used as a condition. *)
Definition truthyStr (v : option string) : bool :=
  match v with
  | None => false
  | Some s => negb (String.eqb s "")
  end.

(** The text interpolated for a condition that held. *)
Definition theStr (v : option string) : string := default "" v.

Definition notifyListeners (h : Heap) : Heap :=
  emit (map (fun l => Notified l (sampleId (manager h))) (listeners (manager h))) h.

Definition getCurrentSampleId (h : Heap) : option string := sampleId (manager h).

Definition getCurrentTempPath (h : Heap) : option string := tempPath (manager h).

Definition setPlayingState (newSampleId newTempPath : option string) (h : Heap) : Heap :=
  let wasPlaying := bool_decide (sampleId (manager h) ≠ None) in
  let previousSampleId := sampleId (manager h) in
  let isNowPlaying := bool_decide (newSampleId ≠ None) in
  let m := manager h in
  let h1 := setManager (mkManager newSampleId newTempPath (listeners m) (playbackQueue m)) h in
  let h2 :=
    if isNowPlaying then emit [LogPlayingState newSampleId newTempPath] h1
    else if wasPlaying then emit [LogStoppedState previousSampleId] h1
    else h1 in
  notifyListeners h2.

(** [cleanup()].  The file system of the model raises nothing, so the
    [catch] of the source has no case here. *)
Definition cleanup (h : Heap) : Heap :=
  let h1 :=
    if truthyStr (tempPath (manager h)) then
      let path := theStr (tempPath (manager h)) in
      let h' := emit [LogCleaningUp path] h in
      let h'' :=
        if existsSync path (disk h') then
          emit [LogTempDeleted path]
               (mkHeap (manager h') (unlinkSync path (disk h')) (trace h'))
        else emit [LogTempMissing path] h' in
      let m := manager h'' in
      setManager (mkManager (sampleId m) None (listeners m) (playbackQueue m)) h''
    else h in
  let h2 :=
    if truthyStr (sampleId (manager h1))
    then emit [LogClearing (theStr (sampleId (manager h1)))] h1
    else h1 in
  let m := manager h2 in
  notifyListeners (setManager (mkManager None (tempPath m) (listeners m) (playbackQueue m)) h2).

Definition destroy (h : Heap) : Heap :=
  let h1 := emit [LogDestroying (length (listeners (manager h)))] h in
  let h2 := cleanup h1 in
  let m := manager h2 in
  setManager (mkManager (sampleId m) (tempPath m) [] (playbackQueue m)) h2.

(** [subscribe(listener)]: the listener joins the set and is called with
    the current state.  The function it returns is [unsubscribe]. *)
Definition subscribe (listener : nat) (h : Heap) : Heap :=
  let m := manager h in
  let ls := if bool_decide (listener ∈ listeners m) then listeners m
            else (listeners m ++ [listener])%list in
  emit [Notified listener (sampleId m)]
       (setManager (mkManager (sampleId m) (tempPath m) ls (playbackQueue m)) h).

Definition unsubscribe (listener : nat) (h : Heap) : Heap :=
  let m := manager h in
  setManager (mkManager (sampleId m) (tempPath m)
                (List.filter (fun l => negb (Nat.eqb l listener)) (listeners m)) (playbackQueue m)) h.

Definition setPlaybackQueue (q : pid) (h : Heap) : Heap :=
  let m := manager h in
  setManager (mkManager (sampleId m) (tempPath m) (listeners m) q) h.

(** [isPlaying(sampleId)]. *)
Definition isPlaying (id : string) (h : Heap) : bool :=
  bool_decide (getCurrentSampleId h = Some id).

(** *** Asynchronous code

    The body of an [async] function: synchronous steps on the heap, calls
    of the two external asynchronous functions (each awaited where it is
    called), and the promise operations the queue uses.  All the promises of
    the module are [Promise<void>]. *)

Inductive Outcome : Type :=
| Fulfilled
| Rejected (e : Error).

Inductive prog (A : Type) : Type :=
| Ret (a : A)
| Throw (e : Error)
| Act {X : Type} (f : Heap -> X * Heap) (k : X -> prog A)
| RunAppleScript (script : Script) (k : Error + string -> prog A)
| GetOrDownloadFile (url baseDir name : string) (k : Error + DownloadedFile -> prog A)
| Yield (k : prog A)                                  (* resume in a later job *)
| Then (p : pid) (callback : prog unit) (k : pid -> prog A)
| Catch (p : pid) (handler : Error -> prog unit) (k : pid -> prog A)
| Await (p : pid) (k : Outcome -> prog A).

Arguments Ret {A} a.
Arguments Throw {A} e.
Arguments Act {A X} f k.
Arguments RunAppleScript {A} script k.
Arguments GetOrDownloadFile {A} url baseDir name k.
Arguments Yield {A} k.
Arguments Then {A} p callback k.
Arguments Catch {A} p handler k.
Arguments Await {A} p k.

Fixpoint bind {A B : Type} (p : prog A) (f : A -> prog B) : prog B :=
  match p with
  | Ret a => f a
  | Throw e => Throw e
  | Act g k => Act g (fun x => bind (k x) f)
  | RunAppleScript s k => RunAppleScript s (fun r => bind (k r) f)
  | GetOrDownloadFile u b n k => GetOrDownloadFile u b n (fun r => bind (k r) f)
  | Yield k => Yield (bind k f)
  | Then p cb k => Then p cb (fun q => bind (k q) f)
  | Catch p h k => Catch p h (fun q => bind (k q) f)
  | Await p k => Await p (fun o => bind (k o) f)
  end.

#[export] Instance prog_ret : MRet prog := @Ret.
#[export] Instance prog_bind : MBind prog := fun A B f p => bind p f.

(** [try { p } catch (error) { handler error }]. *)
Fixpoint tryCatch {A : Type} (p : prog A) (handler : Error -> prog A) : prog A :=
  match p with
  | Ret a => Ret a
  | Throw e => handler e
  | Act g k => Act g (fun x => tryCatch (k x) handler)
  | RunAppleScript s k => RunAppleScript s (fun r => tryCatch (k r) handler)
  | GetOrDownloadFile u b n k => GetOrDownloadFile u b n (fun r => tryCatch (k r) handler)
  | Yield k => Yield (tryCatch k handler)
  | Then p cb k => Then p cb (fun q => tryCatch (k q) handler)
  | Catch p h k => Catch p h (fun q => tryCatch (k q) handler)
  | Await p k => Await p (fun o => tryCatch (k o) handler)
  end.

(** [try { p } finally { final }]. *)
Fixpoint tryFinally {A : Type} (p : prog A) (final : prog unit) : prog A :=
  match p with
  | Ret a => bind final (fun _ => Ret a)
  | Throw e => bind final (fun _ => Throw e)
  | Act g k => Act g (fun x => tryFinally (k x) final)
  | RunAppleScript s k => RunAppleScript s (fun r => tryFinally (k r) final)
  | GetOrDownloadFile u b n k => GetOrDownloadFile u b n (fun r => tryFinally (k r) final)
  | Yield k => Yield (tryFinally k final)
  | Then p cb k => Then p cb (fun q => tryFinally (k q) final)
  | Catch p h k => Catch p h (fun q => tryFinally (k q) final)
  | Await p k => Await p (fun o => tryFinally (k o) final)
  end.

(** A synchronous method call, a read of the state, a line of the log. *)
Definition call (f : Heap -> Heap) : prog unit := Act (fun h => (tt, f h)) Ret.
Definition read {X : Type} (f : Heap -> X) : prog X := Act (fun h => (f h, h)) Ret.
Definition log (ev : Event) : prog unit := call (emit [ev]).

(** [await runAppleScript(script)]. *)
Definition runAppleScript (script : Script) : prog string :=
  RunAppleScript script (fun r => match r with inl e => Throw e | inr out => Ret out end).

(** [await getOrDownloadFile(url, baseDir, name)]. *)
Definition getOrDownloadFile (url baseDir name : string) : prog DownloadedFile :=
  GetOrDownloadFile url baseDir name
    (fun r => match r with inl e => Throw e | inr f => Ret f end).

(** [await p] for a promise of the store. *)
Definition await (p : pid) : prog unit :=
  Await p (fun o => match o with Fulfilled => Ret tt | Rejected e => Throw e end).

(** [await f()] for an [async] function [f] of the module: its body runs
    at the call, and the caller resumes in a later job. *)
Definition awaitCall {A : Type} (body : prog A) : prog A :=
  bind body (fun x => Yield (Ret x)).

(** [filePath.replace(/"/g, '\\"')]. *)
Fixpoint escapeQuotes (s : string) : string :=
  match s with
  | EmptyString => EmptyString
  | String c r =>
      if Ascii.eqb c (ascii_of_nat 34)
      then String (ascii_of_nat 92) (String c (escapeQuotes r))
      else String c (escapeQuotes r)
  end.

(** [enqueuePlayback(operation)]; it answers [operationPromise]. *)
Definition enqueuePlayback (operation : prog unit) : prog pid :=
  log LogEnqueueing;;
  queue ← read (fun h => playbackQueue (manager h));
  chained ← Then queue (log LogExecuting;; operation) Ret;
  operationPromise ←
    Catch chained (fun error => log (LogOperationFailed (errorMessage error))) Ret;
  next ← Then operationPromise (log LogOperationCompleted) Ret;
  call (setPlaybackQueue next);;
  Ret operationPromise.

Definition stopAudio : prog unit :=
  currentSampleId ← read getCurrentSampleId;
  if truthyStr currentSampleId then
    log (LogStopRequested (theStr currentSampleId));;
    tryFinally
      (tryCatch
         (log LogSendingStop;;
          _ ← runAppleScript closeFrontDocument;
          log LogPlayerStopped)
         (fun error => log (LogStopFailed (errorMessage error))))
      (call cleanup;;
       log (LogStopCompleted (theStr currentSampleId)))
  else
    log LogNothingPlaying.

(** The operation [playAudio] puts in the queue. *)
Definition playOperation (audioUrl sampleId sampleName : string) : prog unit :=
  currentPlaying ← read getCurrentSampleId;
  (if truthyStr currentPlaying
   then log (LogStoppingCurrent (theStr currentPlaying)) else Ret tt);;
  awaitCall stopAudio;;
  tryCatch
    (log (LogGettingFile audioUrl);;
     file ← getOrDownloadFile audioUrl "/tmp" sampleName;
     let filePath := df_path file in
     log (LogFileReady filePath);;
     call (setPlayingState (Some sampleId) (Some filePath));;
     let sanitizedPath := escapeQuotes filePath in
     log (LogLaunching filePath);;
     _ ← runAppleScript (openAndPlay sanitizedPath);
     log (LogPlaybackStarted sampleId))
    (fun error =>
       log (LogPlaybackFailed sampleId (errorMessage error));;
       call cleanup;;
       Throw error).

Definition playAudio (audioUrl sampleId sampleName : string) : prog unit :=
  log (LogPlayRequested sampleId audioUrl sampleName);;
  operationPromise ← enqueuePlayback (playOperation audioUrl sampleId sampleName);
  await operationPromise.

Definition cleanupPlayback : prog unit :=
  log LogCleanupPlayback;;
  call destroy.

(** *** Promises and jobs

    The run-time of the module: the promise store, the jobs ready to run,
    and the external calls in flight.  A job runs without interruption until
    it finishes or suspends; which job runs next, which call returns next
    and when the user interface calls in are the scheduler's choices. *)

(** A reaction waits for a promise: when it settles, the continuation runs
    as a job of its own, and what it makes settles the target promise. *)
Definition Reaction : Type := ((Outcome -> prog unit) * pid)%type.

Inductive PromiseState : Type :=
| Pending (reactions : list Reaction)
| Settled (o : Outcome).

Definition Job : Type := (prog unit * pid)%type.

Inductive PendingCall : Type :=
| ScriptCall (script : Script) (k : Error + string -> prog unit) (target : pid)
| DownloadCall (url baseDir name : string)
    (k : Error + DownloadedFile -> prog unit) (target : pid).

Record Sys : Type := mkSys {
  heap : Heap;
  promises : list PromiseState;
  jobs : list Job;
  calls : list PendingCall
}.

Definition setHeap (h : Heap) (s : Sys) : Sys :=
  mkSys h (promises s) (jobs s) (calls s).

Definition addJob (j : Job) (s : Sys) : Sys :=
  mkSys (heap s) (promises s) (jobs s ++ [j]) (calls s).

Definition addCall (c : PendingCall) (s : Sys) : Sys :=
  mkSys (heap s) (promises s) (jobs s) (calls s ++ [c]).

(** A new pending promise; its name is the next free position. *)
Definition alloc (s : Sys) : pid * Sys :=
  (length (promises s),
   mkSys (heap s) (promises s ++ [Pending []]) (jobs s) (calls s)).

(** Register a reaction on [p]; on a settled promise it is a job at once. *)
Definition react (p : pid) (r : Reaction) (s : Sys) : Sys :=
  match promises s !! p with
  | Some (Pending rs) =>
      mkSys (heap s) (<[p := Pending (rs ++ [r])]> (promises s)) (jobs s) (calls s)
  | Some (Settled o) => addJob (r.1 o, r.2) s
  | None => s
  end.

(** Settle [p]: its reactions become jobs.  A settled promise stays as it is. *)
Definition settle (p : pid) (o : Outcome) (s : Sys) : Sys :=
  match promises s !! p with
  | Some (Pending rs) =>
      mkSys (heap s) (<[p := Settled o]> (promises s))
            (jobs s ++ map (fun r : Reaction => (r.1 o, r.2)) rs) (calls s)
  | _ => s
  end.

(** [p.then(() => callback)]: the callback runs when [p] is fulfilled, a
    rejection passes through. *)
Definition thenReaction (callback : prog unit) (o : Outcome) : prog unit :=
  match o with
  | Fulfilled => callback
  | Rejected e => Throw e
  end.

(** [p.catch(handler)]. *)
Definition catchReaction (handler : Error -> prog unit) (o : Outcome) : prog unit :=
  match o with
  | Fulfilled => Ret tt
  | Rejected e => handler e
  end.

(** Run the job [(p, target)] until it finishes or suspends. *)
Fixpoint exec (p : prog unit) (target : pid) (s : Sys) : Sys :=
  match p with
  | Ret _ => settle target Fulfilled s
  | Throw e => settle target (Rejected e) s
  | Act f k => exec (k (f (heap s)).1) target (setHeap (f (heap s)).2 s)
  | RunAppleScript script k =>
      addCall (ScriptCall script k target) (setHeap (emit [Invoked script] (heap s)) s)
  | GetOrDownloadFile u b n k => addCall (DownloadCall u b n k target) s
  | Yield k => addJob (k, target) s
  | Then q callback k =>
      let (r, s1) := alloc s in
      exec (k r) target (react q (thenReaction callback, r) s1)
  | Catch q handler k =>
      let (r, s1) := alloc s in
      exec (k r) target (react q (catchReaction handler, r) s1)
  | Await q k => react q (k, target) s
  end.

(** What the user interface calls. *)
Inductive Request : Type :=
| ReqPlay (audioUrl sampleId sampleName : string)
| ReqStop
| ReqCleanupPlayback
| ReqSubscribe (listener : nat)
| ReqUnsubscribe (listener : nat).

Definition requestBody (r : Request) : prog unit :=
  match r with
  | ReqPlay audioUrl sampleId sampleName => playAudio audioUrl sampleId sampleName
  | ReqStop => stopAudio
  | ReqCleanupPlayback => cleanupPlayback
  | ReqSubscribe l => call (subscribe l)
  | ReqUnsubscribe l => call (unsubscribe l)
  end.

Inductive Choice : Type :=
| Invoke (r : Request)                          (* the interface calls in *)
| RunJob (i : nat)                              (* job [i] runs *)
| ScriptReturns (i : nat) (result : Error + string)   (* call [i], a script, returns *)
| DownloadReturns (i : nat).                    (* call [i], a download, returns *)

Section Scheduler.

Variable digest : string -> N.
Variable hashLen : nat.
Variable fetch : string -> FetchResult.

(** One step of the system; [None] when the choice is not on offer.  A call
    from the interface runs the function's body at once, up to its first
    suspension.  A download returns what the downloader makes of the disk. *)
Definition step (c : Choice) (s : Sys) : option Sys :=
  match c with
  | Invoke r =>
      let (target, s1) := alloc s in
      Some (exec (requestBody r) target s1)
  | RunJob i =>
      match jobs s !! i with
      | Some (p, target) =>
          Some (exec p target (mkSys (heap s) (promises s) (delete i (jobs s)) (calls s)))
      | None => None
      end
  | ScriptReturns i result =>
      match calls s !! i with
      | Some (ScriptCall _ k target) =>
          Some (mkSys (heap s) (promises s) (jobs s ++ [(k result, target)])
                      (delete i (calls s)))
      | _ => None
      end
  | DownloadReturns i =>
      match calls s !! i with
      | Some (DownloadCall u b n k target) =>
          let (result, d) := File.getOrDownloadFile digest hashLen fetch u b n (disk (heap s)) in
          Some (mkSys (mkHeap (manager (heap s)) d (trace (heap s))) (promises s)
                      (jobs s ++ [(k result, target)]) (delete i (calls s)))
      | _ => None
      end
  end.

Fixpoint run (schedule : list Choice) (s : Sys) : option Sys :=
  match schedule with
  | [] => Some s
  | c :: rest =>
      match step c s with
      | Some s' => run rest s'
      | None => None
      end
  end.

End Scheduler.

(** The module as loaded: nothing plays, nobody listens, and the queue is
    [Promise.resolve()], promise 0 of the store. *)
Definition initialManager : Manager := mkManager None None [] 0.

Definition initial (d : Disk) : Sys :=
  mkSys (mkHeap initialManager d []) [Settled Fulfilled] [] [].

(** Nothing left to run and no call in flight. *)
Definition quiescent (s : Sys) : Prop := jobs s = [] /\ calls s = [].

End Audio.

(** ** Predicates of the statements and inputs of the examples *)

(** The failure the client raises for a missing credential or base URL:
    the module's error with one of the two set-up messages and no status. *)
Definition isConfigurationError (e : Error) : Prop :=
  e = SoundrawAPIError Soundraw.noTokenMessage None \/ e = SoundrawAPIError Soundraw.noBaseUrlMessage None.


(** A digest for the examples: the length of the URL. *)
Definition lengthDigest (url : string) : N := N.of_nat (String.length url).

(** A network for the examples: every URL answers three bytes. *)
Definition okFetch (url : string) : FetchResult :=
  FetchResponse (mkResponse true 200 "OK" [Byte.x52; Byte.x49; Byte.x46] "audio/mp4").

(** A parser for the examples: it knows the empty object and nothing else. *)
Definition parseEmptyObject (raw : string) : option Storage.Json :=
  if String.eqb raw "{}" then Some (Storage.JObject []) else None.

(** A network for the examples that is never reached. *)
Definition noNetwork (r : Soundraw.ApiRequest) : Soundraw.ApiFetchResult := Soundraw.ApiFailed "unreachable".


(** A network for the examples where one URL is out of reach. *)
Definition flakyFetch (url : string) : FetchResult :=
  if String.eqb url "https://x/bad.m4a" then FetchFailed "connection reset"
  else okFetch url.

(** The commands handed to the automation bridge, in order. *)
Definition scriptsInvoked (tr : list Audio.Event) : list Audio.Script :=
  omap (fun e => match e with Audio.Invoked sc => Some sc | _ => None end) tr.

(** The session of the playback manager is consistent: a temp file is
    recorded exactly when a sample is, and its path is not the empty
    string. *)
Definition sessionInv (m : Audio.Manager) : Prop :=
  (Audio.tempPath m = None <-> Audio.sampleId m = None)
  /\ Audio.tempPath m <> Some "".

(** *** The protocol of the queued operations *)

Module AudioSpec.

Import Audio.

(** The events that only a queued operation writes: its start, its steps
    towards the player, its end, and the queue's own lines around it. *)
Definition isQueueEvent (e : Event) : bool :=
  match e with
  | LogExecuting | LogGettingFile _ | LogFileReady _ | LogLaunching _
  | Invoked (openAndPlay _) | LogPlaybackStarted _ | LogPlaybackFailed _ _
  | LogOperationFailed _ | LogOperationCompleted => true
  | _ => false
  end.

Definition queued (tr : list Event) : list Event := List.filter isQueueEvent tr.

(** The downloader answers a path that is not the empty string. *)
Definition validDownload (r : Error + DownloadedFile) : Prop :=
  match r with
  | inr f => df_path f <> ""
  | inl _ => True
  end.

(** A language of runs: the queue events a piece of code may still write,
    with the outcome it ends in. *)
Definition Lang : Type := list Event -> Outcome -> Prop.

Definition after (w : list Event) (L : Lang) : Lang := fun tr o => L (w ++ tr) o.

(** [Conforms n L p]: every run of [p] writes queue events and ends in an
    outcome that [L] allows, takes at most [n] steps, keeps the session
    consistent, leaves the queue field alone and touches no promise. *)
Fixpoint Conforms (n : nat) (L : Lang) (p : prog unit) {struct p} : Prop :=
  match p with
  | Ret _ => L [] Fulfilled
  | Throw e => L [] (Rejected e)
  | Act f k =>
      match n with
      | O => False
      | S n' =>
          forall h, sessionInv (manager h) ->
            sessionInv (manager (f h).2)
            /\ playbackQueue (manager (f h).2) = playbackQueue (manager h)
            /\ exists evs, trace (f h).2 = trace h ++ evs
                           /\ Conforms n' (after (queued evs) L) (k (f h).1)
      end
  | RunAppleScript script k =>
      match n with
      | O => False
      | S n' => forall r, Conforms n' (after (queued [Invoked script]) L) (k r)
      end
  | GetOrDownloadFile _ _ _ k =>
      match n with
      | O => False
      | S n' => forall r, validDownload r -> Conforms n' L (k r)
      end
  | Yield k =>
      match n with
      | O => False
      | S n' => Conforms n' L k
      end
  | Then _ _ _ | Catch _ _ _ | Await _ _ => False
  end.

(** A method that keeps the session consistent, leaves the queue field
    alone and writes no queue event. *)
Definition quietMethod (g : Heap -> Heap) : Prop :=
  forall h, sessionInv (manager h) ->
    sessionInv (manager (g h))
    /\ playbackQueue (manager (g h)) = playbackQueue (manager h)
    /\ exists evs, trace (g h) = trace h ++ evs /\ queued evs = [].

(** The promise a pending call will settle, through its continuation. *)
Definition callTarget (c : PendingCall) : pid :=
  match c with
  | ScriptCall _ _ t => t
  | DownloadCall _ _ _ _ t => t
  end.

(** A pending call conforms when its continuation does, for whatever the
    call answers. *)
Definition CallConforms (n : nat) (L : Lang) (c : PendingCall) : Prop :=
  match c with
  | ScriptCall _ k _ => forall r, Conforms n L (k r)
  | DownloadCall _ _ _ k _ => forall r, validDownload r -> Conforms n L (k r)
  end.

(** A play request as the queue sees it: URL, sample id, sample name. *)
Definition PlayReq : Type := (string * string * string)%type.

(** The runs of the body of a queued operation: the file is fetched and the
    player started, or the fetch fails, or the player fails; a failure is
    logged with the error that the body then throws. *)
Definition bodyTrace (req : PlayReq) : Lang := fun tr o =>
  let '(url, id, _) := req in
  (exists path,
      tr = [LogExecuting; LogGettingFile url; LogFileReady path; LogLaunching path;
            Invoked (openAndPlay (escapeQuotes path)); LogPlaybackStarted id]
      /\ o = Fulfilled)
  \/ (exists e,
      tr = [LogExecuting; LogGettingFile url; LogPlaybackFailed id (errorMessage e)]
      /\ o = Rejected e)
  \/ (exists path e,
      tr = [LogExecuting; LogGettingFile url; LogFileReady path; LogLaunching path;
            Invoked (openAndPlay (escapeQuotes path));
            LogPlaybackFailed id (errorMessage e)]
      /\ o = Rejected e).

(** The [catch] of the queue after a body that ended in [o]. *)
Definition catchTrace (o : Outcome) : Lang := fun tr o' =>
  o' = Fulfilled
  /\ tr = match o with
          | Fulfilled => []
          | Rejected e => [LogOperationFailed (errorMessage e)]
          end.

(** The last link of the queue. *)
Definition doneTrace : Lang := fun tr o => tr = [LogOperationCompleted] /\ o = Fulfilled.

(** Code outside the queue writes no queue event. *)
Definition quietTrace : Lang := fun tr _ => tr = [].

(** The queue events of one queued operation, from its start to the
    queue's last line for it. *)
Definition opTrace (req : PlayReq) (tr : list Event) : Prop :=
  exists body o handled,
    bodyTrace req body o /\ catchTrace o handled Fulfilled
    /\ tr = body ++ handled ++ [LogOperationCompleted].

(** The play requests of a schedule, in order. *)
Definition plays (schedule : list Choice) : list PlayReq :=
  omap (fun c => match c with
                 | Invoke (ReqPlay url id name) => Some (url, id, name)
                 | _ => None
                 end) schedule.

Definition isInvoke (c : Choice) : bool :=
  match c with
  | Invoke _ => true
  | _ => false
  end.

(** *** The invariant of the queue

    The operations requested so far are, in order: the finished ones, at
    most one in progress, and the waiting ones.  An operation owns four
    promises: the one [playAudio] answers, and the three links
    [enqueuePlayback] makes for it. *)

Record Op : Type := mkOp {
  op_url : string;
  op_id : string;
  op_name : string;
  op_pa : pid;        (* the promise of the [playAudio] call *)
  op_t : pid;         (* [playbackQueue.then(...)]: settled by the body *)
  op_c : pid;         (* [operationPromise]: the [catch] *)
  op_q : pid          (* the next [playbackQueue] *)
}.

Definition op_req (op : Op) : PlayReq := (op_url op, op_id op, op_name op).

Definition opIds (op : Op) : list pid := [op_t op; op_c op; op_q op; op_pa op].

(** The four reactions registered for an operation. *)
Definition bodyR (op : Op) : Reaction :=
  (thenReaction (log LogExecuting;; playOperation (op_url op) (op_id op) (op_name op)),
   op_t op).

Definition catchR (op : Op) : Reaction :=
  (catchReaction (fun error => log (LogOperationFailed (errorMessage error))), op_c op).

Definition doneR (op : Op) : Reaction :=
  (thenReaction (log LogOperationCompleted), op_q op).

Definition awaitR (op : Op) : Reaction :=
  (fun o => match o with Fulfilled => Ret tt | Rejected e => Throw e end, op_pa op).

(** Where the operation in progress stands, with the queue events it has
    written: in its body; in the [catch] after the body ended in [o]; in the
    last link. *)
Inductive Phase : Type :=
| PBody (tr : list Event)
| PCatch (body : list Event) (o : Outcome) (tr : list Event)
| PDone (sofar : list Event) (tr : list Event).

Definition phaseTarget (op : Op) (ph : Phase) : pid :=
  match ph with
  | PBody _ => op_t op
  | PCatch _ _ _ => op_c op
  | PDone _ _ => op_q op
  end.

Definition phaseLang (op : Op) (ph : Phase) : Lang :=
  match ph with
  | PBody tr => after tr (bodyTrace (op_req op))
  | PCatch _ o tr => after tr (catchTrace o)
  | PDone _ tr => after tr doneTrace
  end.

Definition phaseTrace (ph : Phase) : list Event :=
  match ph with
  | PBody tr => tr
  | PCatch body _ tr => body ++ tr
  | PDone sofar tr => sofar ++ tr
  end.

Definition phaseWf (op : Op) (ph : Phase) : Prop :=
  match ph with
  | PBody _ => True
  | PCatch body o _ => bodyTrace (op_req op) body o
  | PDone sofar _ =>
      exists body o handled,
        bodyTrace (op_req op) body o /\ catchTrace o handled Fulfilled
        /\ sofar = body ++ handled
  end.

(** The promises the operation in progress still owns. *)
Definition phaseIds (op : Op) (ph : Phase) : list pid :=
  match ph with
  | PDone _ _ => [op_t op; op_c op; op_q op]
  | _ => opIds op
  end.

(** The store at the promises of the operation in progress; [next] are the
    reactions waiting for its last link. *)
Definition phaseStore (P : list PromiseState) (op : Op) (ph : Phase)
    (next : list Reaction) : Prop :=
  P !! op_q op = Some (Pending next)
  /\ match ph with
     | PBody _ =>
         P !! op_t op = Some (Pending [catchR op])
         /\ P !! op_c op = Some (Pending [doneR op; awaitR op])
         /\ P !! op_pa op = Some (Pending [])
     | PCatch _ o _ =>
         P !! op_t op = Some (Settled o)
         /\ P !! op_c op = Some (Pending [doneR op; awaitR op])
         /\ P !! op_pa op = Some (Pending [])
     | PDone _ _ => P !! op_c op = Some (Settled Fulfilled)
     end.

Definition nextReactions (waiting : list Op) : list Reaction :=
  match waiting with
  | [] => []
  | op :: _ => [bodyR op]
  end.

(** The store at the promises of the waiting operations: each waits on the
    last link of the one before. *)
Fixpoint waitingStore (P : list PromiseState) (waiting : list Op) : Prop :=
  match waiting with
  | [] => True
  | op :: rest =>
      P !! op_t op = Some (Pending [catchR op])
      /\ P !! op_c op = Some (Pending [doneR op; awaitR op])
      /\ P !! op_pa op = Some (Pending [])
      /\ P !! op_q op = Some (Pending (nextReactions rest))
      /\ waitingStore P rest
  end.

Definition actOps (act : option (Op * Phase)) : list Op :=
  match act with
  | Some (op, _) => [op]
  | None => []
  end.

Definition actTrace (act : option (Op * Phase)) : list Event :=
  match act with
  | Some (_, ph) => phaseTrace ph
  | None => []
  end.

Definition ownedIds (act : option (Op * Phase)) (waiting : list Op) : list pid :=
  match act with
  | Some (op, ph) => phaseIds op ph
  | None => []
  end ++ concat (map opIds waiting).

(** The steps still to run, counted so that every step of the scheduler
    other than a call from the interface takes one off: a job that may take
    [n] steps weighs [2n+1], a pending call [2n+2]. *)
Definition jobWeight (n : nat) : nat := 2 * n + 1.
Definition callWeight (n : nat) : nat := 2 * n + 2.
Definition bodyBound : nat := 30.
Definition opCost : nat := jobWeight bodyBound + 7.

Definition phaseCost (ph : Phase) : nat :=
  match ph with
  | PBody _ => 7            (* the catch, the last link, the awaiter *)
  | PCatch _ _ _ => 4
  | PDone _ _ => 0
  end.

Definition actCost (act : option (Op * Phase)) : nat :=
  match act with
  | Some (_, ph) => phaseCost ph
  | None => 0
  end.

(** The protocol of the code that will settle promise [t]: that of the
    operation in progress, when [t] is the promise that operation is at; or
    the code is outside the queue, quiet, and its promise has no reaction. *)
Definition Role (act : option (Op * Phase)) (owned : list pid)
    (P : list PromiseState) (t : pid) (L : Lang) : Prop :=
  (exists op ph, act = Some (op, ph) /\ t = phaseTarget op ph /\ L = phaseLang op ph)
  \/ (L = quietTrace /\ (t ∉ owned) /\ P !! t = Some (Pending [])).

Definition JobGood act owned P (j : Job) (n : nat) : Prop :=
  exists L, Role act owned P j.2 L /\ Conforms n L j.1.

Definition CallGood act owned P (c : PendingCall) (n : nat) : Prop :=
  exists L, Role act owned P (callTarget c) L /\ CallConforms n L c.

(** The promises that the jobs and the pending calls will settle. *)
Definition targets (s : Sys) : list pid :=
  map snd (jobs s) ++ map callTarget (calls s).

Record FifoInv (reqs : list PlayReq) (m : nat) (s : Sys)
    (dreqs : list PlayReq) (done : list (list Event))
    (act : option (Op * Phase)) (waiting : list Op) (jb cb : list nat) : Prop :=
  mkFifoInv {
    fi_session : sessionInv (manager (heap s));
    fi_jobs : Forall2 (JobGood act (ownedIds act waiting) (promises s)) (jobs s) jb;
    fi_calls : Forall2 (CallGood act (ownedIds act waiting) (promises s)) (calls s) cb;
    fi_targets : NoDup (targets s);
    fi_owned : NoDup (ownedIds act waiting);
    fi_range : forall t, t ∈ ownedIds act waiting -> t < length (promises s);
    fi_active :
      match act with
      | Some (op, ph) =>
          phaseWf op ph
          /\ phaseStore (promises s) op ph (nextReactions waiting)
          /\ phaseTarget op ph ∈ targets s
      | None => waiting = []
      end;
    fi_waiting : waitingStore (promises s) waiting;
    fi_queue :
      match last (actOps act ++ waiting) with
      | Some op => playbackQueue (manager (heap s)) = op_q op
      | None =>
          promises s !! playbackQueue (manager (heap s)) = Some (Settled Fulfilled)
      end;
    fi_trace : queued (trace (heap s)) = concat done ++ actTrace act;
    fi_reqs : reqs = dreqs ++ map op_req (actOps act ++ waiting);
    fi_done : Forall2 opTrace dreqs done;
    fi_measure :
      m = sum_list_with jobWeight jb + sum_list_with callWeight cb
          + actCost act + length waiting * opCost
  }.

(** The invariant, for some account of who is where. *)
Definition Reach (reqs : list PlayReq) (m : nat) (s : Sys) : Prop :=
  exists dreqs done act waiting jb cb, FifoInv reqs m s dreqs done act waiting jb cb.

(** The operation in progress writes the queue events [w]. *)
Definition advance (ph : Phase) (w : list Event) : Phase :=
  match ph with
  | PBody tr => PBody (tr ++ w)
  | PCatch body o tr => PCatch body o (tr ++ w)
  | PDone sofar tr => PDone sofar (tr ++ w)
  end.

(** One item of the system moved on and wrote the queue events [w]: it
    belongs to the operation in progress, or it is quiet and [w] is empty. *)
Inductive Advanced : option (Op * Phase) -> option (Op * Phase) -> list Event -> Prop :=
| adv_same act : Advanced act act []
| adv_step op ph w : Advanced (Some (op, ph)) (Some (op, advance ph w)) w.

(** The operation a play request makes, on a store of [n] promises. *)
Definition newOp (u i nm : string) (n : nat) : Op := mkOp u i nm n (n + 1) (n + 2) (n + 3).

Definition newPromises (op : Op) : list PromiseState :=
  [Pending []; Pending [catchR op]; Pending [doneR op; awaitR op]; Pending []].

Definition requestHeap (u i nm : string) (q : pid) (h : Heap) : Heap :=
  setPlaybackQueue q (emit [LogEnqueueing] (emit [LogPlayRequested i u nm] h)).


(** *** Examples *)

(** A disk with no file on it. *)
Definition emptyDisk : Disk := mkDisk ∅ [].



(** A play request, run until nothing is left to do. *)
Definition playToTheEnd : list Choice :=
  [Invoke (ReqPlay "https://x/a.m4a" "s1" "Cool Beat!"); RunJob 0; RunJob 0;
   DownloadReturns 0; RunJob 0; ScriptReturns 0 (inr ""); RunJob 0; RunJob 0;
   RunJob 0; RunJob 0].

(** A play request for the URL that is out of reach, run to the end. *)
Definition failedPlay : list Choice :=
  [Invoke (ReqPlay "https://x/bad.m4a" "s1" "Cool Beat!"); RunJob 0; RunJob 0;
   DownloadReturns 0; RunJob 0; RunJob 0; RunJob 0; RunJob 0].


(** A stop request run to its end: the call, the answer of the bridge, the
    rest of the function. *)
Definition stopToTheEnd (s : Sys) (answer : Error + string) : list Choice :=
  [Invoke ReqStop; ScriptReturns (length (calls s)) answer; RunJob (length (jobs s))].

End AudioSpec.
(** ** Inputs of the examples of the further properties *)

(** A printer and a parser of JSON for the examples: the printer knows
    the two states the module writes with the credentials of the example,
    the parser reads them back. *)
Definition exampleConfig : Storage.Json :=
  Storage.JObject [("token", Storage.JString "t0k3n"); ("apiBaseUrl", Storage.JString "https://api");
                   ("createdAt", Storage.JString "2025-01-01T00:00:00.000Z")].

Definition exampleStringify (v : Storage.Json) : string :=
  match v with
  | Storage.JObject [] => "{}"
  | _ => "{cfg}"
  end.

Definition exampleParse (raw : string) : option Storage.Json :=
  if String.eqb raw "{}" then Some (Storage.JObject [])
  else if String.eqb raw "{cfg}"
       then Some (Storage.JObject [("soundrawConfig", exampleConfig)])
       else None.

(** A network for the examples that answers every request with [{}]. *)
Definition okNetwork (r : Soundraw.ApiRequest) : Soundraw.ApiFetchResult :=
  Soundraw.ApiAnswered (Soundraw.mkApiResponse true 200 "OK" (inr (Storage.JObject []))).

(** The headers of a request the exported functions of the client make. *)
Definition sentHeaders (token : Storage.JsValue) : list (string * string) :=
  [("Content-Type", "application/json");
   ("Authorization", "Bearer " +:+ Soundraw.toStr token)].

(** The calls of the listeners, in order: which listener, with which
    sample id. *)
Definition notifications (tr : list Audio.Event) : list (nat * option string) :=
  omap (fun e => match e with Audio.Notified l v => Some (l, v) | _ => None end) tr.

(** The heap a stop request leaves, when a sample was playing and the
    request ran to its end with the bridge's [answer]: the lines of the
    log, the command, and [cleanup]. *)
Definition stoppedHeap (answer : Error + string) (h : Audio.Heap) : Audio.Heap :=
  let id := Audio.theStr (Audio.sampleId (Audio.manager h)) in
  let h1 :=
    Audio.emit [Audio.Invoked Audio.closeFrontDocument]
      (Audio.emit [Audio.LogSendingStop] (Audio.emit [Audio.LogStopRequested id] h)) in
  let h2 :=
    Audio.emit [match answer with
                | inl e => Audio.LogStopFailed (errorMessage e)
                | inr _ => Audio.LogPlayerStopped
                end] h1 in
  Audio.emit [Audio.LogStopCompleted id] (Audio.cleanup h2).

(** A play request run to its end on an idle manager with nothing else
    to do, the player answering [out]. *)
Definition playRun (url id name out : string) : list Audio.Choice :=
  [Audio.Invoke (Audio.ReqPlay url id name); Audio.RunJob 0; Audio.RunJob 0;
   Audio.DownloadReturns 0; Audio.RunJob 0; Audio.ScriptReturns 0 (inr out);
   Audio.RunJob 0; Audio.RunJob 0; Audio.RunJob 0; Audio.RunJob 0].

(** The heap a play request leaves, when nothing was playing and the
    request ran to its end with the downloader answering [path] and the
    disk [d'], and the player starting; [next] is the new end of the
    queue. *)
Definition playingHeap (url id name path : string) (d' : Disk) (next : nat)
    (h : Audio.Heap) : Audio.Heap :=
  let h1 :=
    Audio.emit [Audio.LogGettingFile url]
      (Audio.emit [Audio.LogNothingPlaying]
         (Audio.emit [Audio.LogExecuting]
            (Audio.setPlaybackQueue next
               (Audio.emit [Audio.LogEnqueueing]
                  (Audio.emit [Audio.LogPlayRequested id url name] h))))) in
  let h2 :=
    Audio.emit [Audio.LogFileReady path]
      (Audio.mkHeap (Audio.manager h1) d' (Audio.trace h1)) in
  let h3 := Audio.setPlayingState (Some id) (Some path) h2 in
  let h4 :=
    Audio.emit [Audio.Invoked (Audio.openAndPlay (Audio.escapeQuotes path))]
      (Audio.emit [Audio.LogLaunching path] h3) in
  Audio.emit [Audio.LogOperationCompleted] (Audio.emit [Audio.LogPlaybackStarted id] h4).



(** The disk with the temp file the manager records taken off. *)
Definition withoutTemp (h : Audio.Heap) : Disk :=
  match Audio.tempPath (Audio.manager h) with
  | Some p => if String.eqb p "" then Audio.disk h else unlinkSync p (Audio.disk h)
  | None => Audio.disk h
  end.


(** ** The rest of lib/storage.ts and the two commands *)

Module Commands.

Import Storage Soundraw.

(** What a command shows: a toast, the HUD, the way back to the root. *)
Inductive UiEvent : Type :=
| ToastFailure (title message : string)
| ToastAnimated (title message : string)
| ShowHUD (text : string)
| PopToRoot.



(** One settled promise of [Promise.allSettled]. *)
Inductive Settlement (A : Type) : Type :=
| SFulfilled (value : A)
| SRejected.

Arguments SFulfilled {A} value.
Arguments SRejected {A}.

(** search-samples.tsx, [prepareFiles]: [paths[sampleId] = path] on the
    object [{}].  The key [__proto__] names the prototype, and a string
    assigned to it is dropped. *)
Definition setPath (paths : gmap string string) (sampleId path : string)
    : gmap string string :=
  if String.eqb sampleId "__proto__" then paths else <[sampleId := path]> paths.

(** search-samples.tsx, [prepareFiles]: the object of paths built from the
    settled results, [results.forEach(...)]. *)
Definition buildPaths (results : list (Settlement (option (string * string))))
    : gmap string string :=
  fold_left
    (fun paths result =>
       match result with
       | SFulfilled (Some (sampleId, path)) => setPath paths sampleId path
       | _ => paths
       end)
    results ∅.

Section Platform.

Variable JSON_parse : string -> option Json.
Variable JSON_stringify : Json -> string.
Variable fetch : ApiRequest -> ApiFetchResult.
Variable urlencode : string -> string.
(** [String.prototype.trim]. *)
Variable trim : string -> string.

(** [v.trim().length] for a value [v] that is not [null] or [undefined]:
    a [TypeError] ([None]) on a value that is not a string, for it has no
    method [trim]. *)
Definition trimmedLength (v : JsValue) : option nat :=
  match v with
  | Some (JString s) => Some (String.length (trim s))
  | _ => None
  end.

(** lib/storage.ts, [hasValidConfig]; [None] when it throws. *)
Definition hasValidConfig (storage : gmap string string) : option bool :=
  let config := getSoundrawConfig JSON_parse storage in
  let token := getPropOpt config "token" in
  let apiBaseUrl := getPropOpt config "apiBaseUrl" in
  if negb (truthy token) then Some false
  else if negb (truthy apiBaseUrl) then Some false
  else
    match trimmedLength token with
    | None => None
    | Some 0 => Some false
    | Some (S _) =>
        match trimmedLength apiBaseUrl with
        | None => None
        | Some n => Some (0 <? n)%nat
        end
    end.

(** The set-up command, [onSubmit]; [createdAt] is the clock's reading
    when the configuration is saved. *)
Definition onSubmit (token apiBaseUrl createdAt : string) (h : Host)
    : list UiEvent * Host :=
  if String.eqb token "" || (String.length (trim token) =? 0)%nat then
    ([ToastFailure "Error" "Please enter a valid Soundraw API token"], h)
  else if String.eqb apiBaseUrl "" || (String.length (trim apiBaseUrl) =? 0)%nat then
    ([ToastFailure "Error" "Please enter a valid API base URL"], h)
  else
    let saved :=
      mkHost (saveSoundrawConfig JSON_stringify (trim token) (trim apiBaseUrl) createdAt
                (storage h))
             (sent h) in
    let validating := ToastAnimated "Validating Configuration" "Testing API connection..." in
    match getAvailableGenres JSON_parse fetch saved with
    | (inr _, h') =>
        ([validating;
          ShowHUD "Soundraw configuration saved and validated successfully!";
          PopToRoot], h')
    | (inl e, h') =>
        ([validating; ToastFailure "Validation Failed" (errorMessage e)], h')
    end.


End Platform.

End Commands.

(** * Properties *)

(** ** The resolver and the cache (lib/file.ts) *)

Module FileFacts.

Import File.





Lemma append_nonempty (a b : string) : a <> "" -> a +:+ b <> "".
Proof. destruct a; simpl; [done | discriminate]. Qed.

(** The resolved path is never the empty string. *)
Lemma getExpectedFilePath_nonempty digest hashLen url name ext baseDir :
  getExpectedFilePath digest hashLen url name ext baseDir <> "".
Proof.
  unfold getExpectedFilePath. destruct baseDir; simpl; discriminate.
Qed.

(** *** A short hash has collisions *)












(** *** Cache hits and misses *)

Section Cache.

Variable digest : string -> N.
Variable hashLen : nat.
Variable fetch : string -> FetchResult.

Local Abbreviation path := (getExpectedFilePath digest hashLen).
Local Abbreviation getOrDownload := (getOrDownloadFile digest hashLen fetch).

Lemma fetchAndStore_requested url p d :
  requested (fetchAndStore fetch url p d).2 = requested d ++ [url].
Proof.
  unfold fetchAndStore. destruct (fetch url) as [m | r]; [done|].
  destruct (resp_ok r); simpl; [|done]. by destruct (resp_body r).
Qed.

Lemma fetchAndStore_success url p d f d' :
  fetchAndStore fetch url p d = (inr f, d') ->
  exists r b bs, fetch url = FetchResponse r /\ resp_ok r = true /\
    resp_body r = b :: bs /\
    f = mkDownloaded p (b :: bs) (Some (resp_contentType r)) /\
    d' = writeFile p (b :: bs) (recordRequest url d).
Proof.
  unfold fetchAndStore. destruct (fetch url) as [m | r]; [done|].
  destruct (resp_ok r) eqn:Hok; simpl; [|done].
  destruct (resp_body r) as [|b bs] eqn:Hb; [done|].
  intros [= <- <-]. by exists r, b, bs.
Qed.

(** A file that [getOrDownloadFile] answered is on disk, with a byte at
    least. *)
Lemma getOrDownloadFile_stored url baseDir name d f d' :
  getOrDownload url baseDir name d = (inr f, d') ->
  df_path f = path url name None baseDir /\
  exists b bs, df_buffer f = b :: bs /\ files d' !! df_path f = Some (b :: bs).
Proof.
  unfold getOrDownloadFile.
  destruct (files d !! path url name None baseDir) as [[|b bs]|] eqn:Hl.
  - intros (r & b & bs & _ & _ & _ & -> & ->)%fetchAndStore_success.
    split; [done|]. exists b, bs. split; [done|]. simpl. apply lookup_insert_eq.
  - intros [= <- <-]. split; [done|]. by exists b, bs.
  - intros (r & b & bs & _ & _ & _ & -> & ->)%fetchAndStore_success.
    split; [done|]. exists b, bs. split; [done|]. simpl. apply lookup_insert_eq.
Qed.

(** C8: after [getOrDownloadFile] has answered a file for [(url, name)], the
    next request for the same pair is served from the file at the resolved
    path: it leaves the disk and the list of network requests as they were
    and answers the same path and the same bytes; and [prepareFiles] takes
    the path for the sample without calling the downloader. *)
Theorem getOrDownloadFile_second_request_is_hit
    (url baseDir name : string) (d d' : Disk) (f : DownloadedFile) :
  getOrDownload url baseDir name d = (inr f, d') ->
  (exists f', getOrDownload url baseDir name d' = (inr f', d')
              /\ df_path f' = df_path f /\ df_buffer f' = df_buffer f)
  /\ requested (getOrDownload url baseDir name d').2 = requested d'
  /\ (baseDir = "/tmp" ->
      forall id bpm,
        prepareFile digest hashLen fetch (mkSample id name url bpm) d'
        = (Some (id, df_path f), d')).
Proof.
  intros H. destruct (getOrDownloadFile_stored _ _ _ _ _ _ H) as (Hp & b & bs & Hb & Hl).
  assert (getOrDownload url baseDir name d'
          = (inr (mkDownloaded (df_path f) (b :: bs) None), d')) as H2.
  { unfold getOrDownloadFile. rewrite <- Hp, Hl. reflexivity. }
  split; [|split].
  - eexists. split; [exact H2|]. by rewrite Hb.
  - by rewrite H2.
  - intros -> id bpm. unfold prepareFile, existsSync, statSize. simpl.
    by rewrite <- Hp, Hl.
Qed.

End Cache.

Lemma getOrDownloadFile_second_request_is_hit_witness :
  let d := mkDisk ∅ [] in
  let r := getOrDownloadFile lengthDigest 8 okFetch "https://x/a.m4a" "/tmp" "Cool Beat!" d in
  requested r.2 = ["https://x/a.m4a"]
  /\ requested
       (getOrDownloadFile lengthDigest 8 okFetch "https://x/a.m4a" "/tmp" "Cool Beat!" r.2).2
     = requested r.2.
Proof.
  split; [reflexivity|].
  eapply (getOrDownloadFile_second_request_is_hit lengthDigest 8 okFetch
            "https://x/a.m4a" "/tmp" "Cool Beat!" (mkDisk ∅ [])).
  reflexivity.
Defined.

Section EmptyFile.

Variable digest : string -> N.
Variable hashLen : nat.
Variable fetch : string -> FetchResult.

Local Abbreviation path := (getExpectedFilePath digest hashLen).

(** C9: when the file at the expected path of a sample exists and is empty,
    [prepareFiles] does not take it: the downloader is called, it does not
    answer the empty file either but requests the URL from the network; when
    the fetch succeeds its body replaces the empty file and the path is
    answered, and when it fails nothing is answered. *)
Theorem empty_cached_file_is_refetched (sample : Sample) (d : Disk) :
  let p := path (sample_url sample) (sample_name sample) None "/tmp" in
  files d !! p = Some [] ->
  getOrDownloadFile digest hashLen fetch (sample_url sample) "/tmp" (sample_name sample) d
  = fetchAndStore fetch (sample_url sample) p d
  /\ requested (prepareFile digest hashLen fetch sample d).2
     = requested d ++ [sample_url sample]
  /\ match fetch (sample_url sample) with
     | FetchResponse r =>
         if resp_ok r then
           match resp_body r with
           | b :: bs =>
               (prepareFile digest hashLen fetch sample d).1 = Some (sample_id sample, p)
               /\ files (prepareFile digest hashLen fetch sample d).2 !! p = Some (b :: bs)
           | [] => (prepareFile digest hashLen fetch sample d).1 = None
           end
         else (prepareFile digest hashLen fetch sample d).1 = None
     | FetchFailed _ => (prepareFile digest hashLen fetch sample d).1 = None
     end.
Proof.
  intros p Hl.
  assert (getOrDownloadFile digest hashLen fetch (sample_url sample) "/tmp"
            (sample_name sample) d = fetchAndStore fetch (sample_url sample) p d) as Hg.
  { unfold getOrDownloadFile. fold p. by rewrite Hl. }
  assert (prepareFile digest hashLen fetch sample d
          = match fetchAndStore fetch (sample_url sample) p d with
            | (inr f, d') =>
                if existsSync (df_path f) d' then
                  if (0 <? statSize (df_path f) d')%nat
                  then (Some (sample_id sample, df_path f), d') else (None, d')
                else (None, d')
            | (inl _, d') => (None, d')
            end) as Hp.
  { unfold prepareFile. fold p. rewrite Hg.
    unfold existsSync at 1, statSize at 1. by rewrite Hl. }
  split; [exact Hg|]. rewrite Hp. clear Hp Hg.
  pose proof (fetchAndStore_requested fetch (sample_url sample) p d) as Hreq.
  unfold fetchAndStore in *.
  destruct (fetch (sample_url sample)) as [m | r]; simpl in *; [done|].
  destruct (resp_ok r); simpl in *; [|done].
  destruct (resp_body r) as [|b bs]; simpl in *; [done|].
  unfold existsSync, statSize. simpl. rewrite lookup_insert_eq.
  rewrite bool_decide_eq_true_2 by eauto. simpl. by rewrite lookup_insert_eq.
Qed.

End EmptyFile.

Lemma empty_cached_file_is_refetched_witness :
  let sample := mkSample "s1" "Cool Beat!" "https://x/a.m4a" None in
  let d := mkDisk {[ "/tmp/Cool Beat_0000000f.m4a" := [] ]} [] in
  requested (prepareFile lengthDigest 8 okFetch sample d).2 = ["https://x/a.m4a"].
Proof.
  intros sample d.
  apply (empty_cached_file_is_refetched lengthDigest 8 okFetch sample d).
  reflexivity.
Defined.

End FileFacts.

(** ** The persisted configuration (lib/storage.ts) *)

Module StorageFacts.

Import Storage.

(** C10: reading the configuration never fails.  When nothing is stored
    under the key, or what is stored is not JSON, [readState] answers the
    empty state, and [getSoundrawConfig], [getSoundrawToken] and
    [getSoundrawApiBaseUrl] answer [undefined]. *)
Theorem readState_total
    (JSON_parse : string -> option Json) (storage : gmap string string) :
  storage !! STORAGE_KEY = None
  \/ (exists raw, storage !! STORAGE_KEY = Some raw /\ JSON_parse raw = None) ->
  readState JSON_parse storage = emptyState
  /\ getSoundrawConfig JSON_parse storage = None
  /\ getSoundrawToken JSON_parse storage = None
  /\ getSoundrawApiBaseUrl JSON_parse storage = None.
Proof.
  intros H.
  assert (readState JSON_parse storage = emptyState) as Hr.
  { unfold readState. destruct H as [-> | (raw & -> & Hp)]; [done|].
    rewrite Hp. by destruct (String.eqb raw ""). }
  unfold getSoundrawToken, getSoundrawApiBaseUrl, getSoundrawConfig.
  by rewrite Hr.
Qed.

Lemma readState_total_witness :
  readState parseEmptyObject ∅ = emptyState
  /\ getSoundrawToken parseEmptyObject {[ STORAGE_KEY := "{not json" ]} = None.
Proof.
  split.
  - apply (readState_total parseEmptyObject ∅). by left.
  - apply (readState_total parseEmptyObject {[ STORAGE_KEY := "{not json" ]}).
    right. exists "{not json". split; reflexivity.
Defined.

(** Whatever is stored, a parsed [null] included, [readState] answers. *)
Lemma readState_null (JSON_parse : string -> option Json) storage raw :
  storage !! STORAGE_KEY = Some raw -> JSON_parse raw = Some JNull ->
  readState JSON_parse storage = emptyState.
Proof.
  intros Hs Hp. unfold readState. rewrite Hs, Hp. by destruct (String.eqb raw "").
Qed.

End StorageFacts.

(** ** The API client (lib/soundraw.ts) *)

Module SoundrawFacts.

Import Storage Soundraw.

Section Client.

Variable JSON_parse : string -> option Json.
Variable fetch : ApiRequest -> ApiFetchResult.
Variable urlencode : string -> string.

Lemma makeRequest_unconfigured endpoint headers (h : Host) :
  truthy (getSoundrawToken JSON_parse (storage h)) = false
  \/ truthy (getSoundrawApiBaseUrl JSON_parse (storage h)) = false ->
  exists e, makeRequest JSON_parse fetch endpoint headers h = (inl e, h)
            /\ isConfigurationError e.
Proof.
  unfold makeRequest, isConfigurationError. intros [H | H].
  - rewrite H. simpl. eauto.
  - rewrite H. simpl.
    destruct (truthy (getSoundrawToken JSON_parse (storage h))); simpl; eauto.
Qed.

(** C6: when the stored configuration has no token or no API base URL
    (none at all, or an empty one), every request of the client,
    [searchSamples] and [getAvailableGenres] alike, fails with the
    configuration error and leaves the host as it was: nothing is sent to the
    network. *)
Theorem api_call_requires_configuration (h : Host) :
  truthy (getSoundrawToken JSON_parse (storage h)) = false
  \/ truthy (getSoundrawApiBaseUrl JSON_parse (storage h)) = false ->
  (forall endpoint headers,
      exists e, makeRequest JSON_parse fetch endpoint headers h = (inl e, h)
                /\ isConfigurationError e)
  /\ (forall params,
      exists e, searchSamples JSON_parse fetch urlencode params h = (inl e, h)
                /\ isConfigurationError e)
  /\ (exists e, getAvailableGenres JSON_parse fetch h = (inl e, h)
                /\ isConfigurationError e)
  /\ sent (getAvailableGenres JSON_parse fetch h).2 = sent h.
Proof.
  intros H. repeat split.
  - intros. by apply makeRequest_unconfigured.
  - intros. unfold searchSamples. by apply makeRequest_unconfigured.
  - unfold getAvailableGenres. by apply makeRequest_unconfigured.
  - destruct (makeRequest_unconfigured "/tags" [] h H) as (e & He & _).
    unfold getAvailableGenres. by rewrite He.
Qed.

End Client.

Lemma api_call_requires_configuration_witness :
  sent (getAvailableGenres parseEmptyObject noNetwork (mkHost ∅ [])).2 = [].
Proof.
  apply (api_call_requires_configuration parseEmptyObject noNetwork
           (fun s => s) (mkHost ∅ [])).
  by left.
Defined.

End SoundrawFacts.

(** ** The playback coordinator (lib/audio.ts) *)

Module AudioFacts.

Import Audio AudioSpec.

(** *** The synchronous methods *)

Lemma notifyListeners_manager h : manager (notifyListeners h) = manager h.
Proof. reflexivity. Qed.

Lemma cleanup_sampleId h : sampleId (manager (cleanup h)) = None.
Proof. reflexivity. Qed.


Lemma cleanup_playbackQueue h :
  playbackQueue (manager (cleanup h)) = playbackQueue (manager h).
Proof.
  unfold cleanup. destruct (truthyStr (tempPath (manager h))); simpl.
  - destruct (existsSync _ _); simpl; by destruct (truthyStr _).
  - by destruct (truthyStr _).
Qed.

Lemma cleanup_tempPath h :
  tempPath (manager h) <> Some "" -> tempPath (manager (cleanup h)) = None.
Proof.
  intros Hne. unfold cleanup.
  destruct (tempPath (manager h)) as [p|] eqn:Hp; simpl.
  - destruct (String.eqb_spec p "") as [-> | _]; [done|]. simpl.
    destruct (existsSync _ _); simpl; by destruct (truthyStr _).
  - by destruct (truthyStr _).
Qed.


Lemma cleanup_sessionInv h : sessionInv (manager h) -> sessionInv (manager (cleanup h)).
Proof.
  intros [_ Hne]. split.
  - by rewrite cleanup_sampleId, cleanup_tempPath.
  - by rewrite cleanup_tempPath.
Qed.

(** What [cleanup] writes to the trace: no command for the bridge. *)
Lemma cleanup_trace h :
  exists evs, trace (cleanup h) = trace h ++ evs /\ scriptsInvoked evs = [].
Proof.
  unfold cleanup, notifyListeners, emit, setManager. simpl.
  assert (forall (ls : list nat) (v : option string),
             scriptsInvoked (map (fun l => Notified l v) ls) = []) as Hn.
  { intros ls v. by induction ls. }
  destruct (truthyStr (tempPath (manager h))); simpl.
  - destruct (existsSync _ _); simpl; destruct (truthyStr (sampleId (manager h))); simpl;
      rewrite <- ?app_assoc; eexists; (split; [reflexivity|]); simpl; apply Hn.
  - destruct (truthyStr (sampleId (manager h))); simpl;
      rewrite <- ?app_assoc; eexists; (split; [reflexivity|]); simpl; apply Hn.
Qed.

(** *** Code that conforms to a protocol *)

Lemma conforms_log n L ev (k : unit -> prog unit) :
  Conforms n (after (queued [ev]) L) (k tt) ->
  Conforms (S n) L (Act (fun h => (tt, emit [ev] h)) k).
Proof.
  intros H h Hh. simpl. split; [done|]. split; [done|]. by exists [ev].
Qed.

Lemma conforms_read {X} n L (g : Heap -> X) (k : X -> prog unit) :
  (forall h, sessionInv (manager h) -> Conforms n L (k (g h))) ->
  Conforms (S n) L (Act (fun h => (g h, h)) k).
Proof.
  intros H h Hh. simpl. split; [done|]. split; [done|]. exists [].
  split; [by rewrite app_nil_r|]. by apply H.
Qed.

Lemma conforms_call n L (g : Heap -> Heap) (k : unit -> prog unit) :
  quietMethod g ->
  Conforms n L (k tt) ->
  Conforms (S n) L (Act (fun h => (tt, g h)) k).
Proof.
  intros Hg H h Hh. simpl. destruct (Hg h Hh) as (H1 & H2 & evs & H3 & H4).
  split; [done|]. split; [done|]. exists evs. split; [done|].
  rewrite H4. exact H.
Qed.

Lemma conforms_script n L script (k : Error + string -> prog unit) :
  (forall r, Conforms n (after (queued [Invoked script]) L) (k r)) ->
  Conforms (S n) L (RunAppleScript script k).
Proof. done. Qed.

Lemma conforms_download n L u b nm (k : Error + DownloadedFile -> prog unit) :
  (forall r, validDownload r -> Conforms n L (k r)) ->
  Conforms (S n) L (GetOrDownloadFile u b nm k).
Proof. done. Qed.

Lemma conforms_yield n L (k : prog unit) :
  Conforms n L k -> Conforms (S n) L (Yield k).
Proof. done. Qed.

Lemma queued_notified (ls : list nat) v :
  queued (map (fun l => Notified l v) ls) = [].
Proof. by induction ls. Qed.

Lemma queued_app a b : queued (a ++ b) = queued a ++ queued b.
Proof. apply List.filter_app. Qed.

Lemma cleanup_quiet : quietMethod cleanup.
Proof.
  intros h Hh. split; [by apply cleanup_sessionInv|].
  split; [apply cleanup_playbackQueue|].
  unfold cleanup, notifyListeners, emit, setManager. simpl.
  destruct (truthyStr (tempPath (manager h))); simpl.
  - destruct (existsSync _ _); simpl; destruct (truthyStr (sampleId (manager h))); simpl;
      rewrite <- ?app_assoc; eexists; (split; [reflexivity|]);
      rewrite ?queued_app, queued_notified; reflexivity.
  - destruct (truthyStr (sampleId (manager h))); simpl;
      rewrite <- ?app_assoc; eexists; (split; [reflexivity|]);
      rewrite ?queued_app, queued_notified; reflexivity.
Qed.

Lemma setPlayingState_quiet id path :
  path <> "" -> quietMethod (setPlayingState (Some id) (Some path)).
Proof.
  intros Hp h Hh. unfold setPlayingState, notifyListeners, emit, setManager. simpl.
  split; [split; [split; discriminate | by intros [= ?]]|]. split; [done|].
  rewrite <- app_assoc. eexists. split; [reflexivity|].
  rewrite queued_app, queued_notified. reflexivity.
Qed.

Ltac conform_step :=
  lazymatch goal with
  | |- Conforms _ _ ?p =>
      let p' := eval hnf in p in
      lazymatch p' with
      | Act _ _ =>
          first
            [ apply conforms_log
            | apply conforms_read; intros ? ?
            | apply conforms_call;
              [first [apply cleanup_quiet | by apply setPlayingState_quiet]|] ]
      | RunAppleScript _ _ => apply conforms_script; intros [?|?]
      | GetOrDownloadFile _ _ _ _ => apply conforms_download; intros [?|?] ?
      | Yield _ => apply conforms_yield
      | Ret _ => fail
      | Throw _ => fail
      | _ =>
          match p' with
          | context [if ?c then _ else _] => destruct c
          end
      end
  end.

(** *** Running conforming code *)

Section ProgInduction.

Variable P : prog unit -> Prop.
Hypothesis HRet : forall a, P (Ret a).
Hypothesis HThrow : forall e, P (Throw e).
Hypothesis HAct : forall X (f : Heap -> X * Heap) k, (forall x, P (k x)) -> P (Act f k).
Hypothesis HScript : forall sc k, (forall r, P (k r)) -> P (RunAppleScript sc k).
Hypothesis HDownload :
  forall u b nm k, (forall r, P (k r)) -> P (GetOrDownloadFile u b nm k).
Hypothesis HYield : forall k, P k -> P (Yield k).
Hypothesis HThen : forall q cb k, (forall r, P (k r)) -> P (Then q cb k).
Hypothesis HCatch : forall q hd k, (forall r, P (k r)) -> P (Catch q hd k).
Hypothesis HAwait : forall q k, (forall o, P (k o)) -> P (Await q k).

(** Induction on the code of a job. *)
Fixpoint job_ind (p : prog unit) : P p :=
  match p with
  | Ret a => HRet a
  | Throw e => HThrow e
  | Act f k => HAct _ f k (fun x => job_ind (k x))
  | RunAppleScript sc k => HScript sc k (fun r => job_ind (k r))
  | GetOrDownloadFile u b nm k => HDownload u b nm k (fun r => job_ind (k r))
  | Yield k => HYield k (job_ind k)
  | Then q cb k => HThen q cb k (fun r => job_ind (k r))
  | Catch q hd k => HCatch q hd k (fun r => job_ind (k r))
  | Await q k => HAwait q k (fun o => job_ind (k o))
  end.

End ProgInduction.

Lemma Conforms_ext n L L' p :
  (forall tr o, L tr o -> L' tr o) -> Conforms n L p -> Conforms n L' p.
Proof.
  revert n L L'. induction p as [a|e|X f k IH|sc k IH|u b nm k IH|k IH|q cb k _|q hd k _|q k _]
    using job_ind; intros n L L' HL; simpl; try done; try by apply HL.
  - destruct n as [|n]; [done|]. intros H h Hh.
    destruct (H h Hh) as (H1 & H2 & evs & H3 & H4).
    split; [done|]. split; [done|]. exists evs. split; [done|].
    eapply IH; [|exact H4]. intros tr o. apply HL.
  - destruct n as [|n]; [done|]. intros H r. eapply IH; [|apply H].
    intros tr o. apply HL.
  - destruct n as [|n]; [done|]. intros H r Hr. eapply IH; [|by apply H]. done.
  - destruct n as [|n]; [done|]. by apply IH.
Qed.

Lemma setHeap_id s : setHeap (heap s) s = s.
Proof. by destruct s. Qed.

(** What running a conforming job does: it writes events that the
    protocol allows and then either finishes, settling its promise with an
    allowed outcome, or suspends as a job or a call that conforms to the
    rest of the protocol, with fewer steps to go. *)
Lemma exec_conforms n L p t s :
  Conforms n L p -> sessionInv (manager (heap s)) ->
  exists h' evs,
    trace h' = trace (heap s) ++ evs
    /\ sessionInv (manager h')
    /\ playbackQueue (manager h') = playbackQueue (manager (heap s))
    /\ ((exists o, L (queued evs) o /\ exec p t s = settle t o (setHeap h' s))
        \/ (exists k n', n' < n /\ Conforms n' (after (queued evs) L) k
                         /\ exec p t s = addJob (k, t) (setHeap h' s))
        \/ (exists c n', n' < n /\ callTarget c = t
                         /\ CallConforms n' (after (queued evs) L) c
                         /\ exec p t s = addCall c (setHeap h' s))).
Proof.
  revert n L s.
  induction p as [a|e|X f k IH|sc k IH|u b nm k IH|k IH|q cb k _|q hd k _|q k _]
    using job_ind; intros n L s Hc Hs; simpl in Hc; try done.
  - exists (heap s), []. rewrite app_nil_r, setHeap_id. do 3 (split; [done|]).
    left. by exists Fulfilled.
  - exists (heap s), []. rewrite app_nil_r, setHeap_id. do 3 (split; [done|]).
    left. by exists (Rejected e).
  - destruct n as [|n]; [done|].
    destruct (Hc (heap s) Hs) as (H1 & H2 & evs & H3 & H4).
    destruct (IH _ n _ (setHeap (f (heap s)).2 s) H4 H1)
      as (h' & evs' & T1 & T2 & T3 & T4).
    exists h', (evs ++ evs'). simpl in *.
    split; [by rewrite T1, H3, app_assoc|]. split; [done|].
    split; [by rewrite T3|].
    rewrite queued_app.
    destruct T4 as [(o & Ho & He) | [(k' & n' & Hn & Hk & He) | (c & n' & Hn & Ht & Hk & He)]].
    + left. exists o. split; [exact Ho | exact He].
    + right; left. exists k', n'. split; [lia|]. split; [|exact He].
      eapply Conforms_ext; [|exact Hk]. intros tr o. unfold after.
      by rewrite app_assoc.
    + right; right. exists c, n'. split; [lia|]. split; [done|]. split; [|exact He].
      destruct c; simpl in *.
      * intros r. eapply Conforms_ext; [|apply Hk]. intros tr o. unfold after.
        by rewrite app_assoc.
      * intros r Hr. eapply Conforms_ext; [|by apply Hk]. intros tr o. unfold after.
        by rewrite app_assoc.
  - destruct n as [|n]; [done|].
    exists (emit [Invoked sc] (heap s)), [Invoked sc]. do 3 (split; [done|]).
    right; right. exists (ScriptCall sc k t), n. split; [lia|]. split; [done|]. split; [exact Hc | done].
  - destruct n as [|n]; [done|].
    exists (heap s), []. rewrite app_nil_r, setHeap_id. do 3 (split; [done|]).
    right; right. exists (DownloadCall u b nm k t), n. split; [lia|]. split; [done|]. split; [exact Hc | done].
  - destruct n as [|n]; [done|].
    exists (heap s), []. rewrite app_nil_r, setHeap_id. do 3 (split; [done|]).
    right; left. exists k, n. split; [lia|]. split; [exact Hc | done].
Qed.

(** The callback [enqueuePlayback] chains on the queue conforms to the
    body protocol of its request, in at most 30 steps. *)
Lemma body_conforms u i n :
  Conforms 30 (bodyTrace (u, i, n)) (log LogExecuting;; playOperation u i n).
Proof. repeat conform_step; cbn; eauto 8. Qed.

Lemma stopAudio_conforms : Conforms 10 quietTrace stopAudio.
Proof. repeat conform_step; reflexivity. Qed.

Lemma destroy_quiet : quietMethod destroy.
Proof.
  intros h Hh.
  set (h1 := emit [LogDestroying (length (listeners (manager h)))] h).
  destruct (cleanup_quiet h1 Hh) as (H1 & H2 & evs & H3 & H4).
  change (manager (destroy h))
    with (mkManager (sampleId (manager (cleanup h1))) (tempPath (manager (cleanup h1)))
            [] (playbackQueue (manager (cleanup h1)))).
  change (trace (destroy h)) with (trace (cleanup h1)).
  split; [exact H1|]. split; [exact H2|].
  exists (LogDestroying (length (listeners (manager h))) :: evs).
  split; [|exact H4]. rewrite H3. subst h1. simpl. by rewrite <- app_assoc.
Qed.

Lemma cleanupPlayback_conforms : Conforms 10 quietTrace cleanupPlayback.
Proof.
  apply conforms_log. apply conforms_call; [apply destroy_quiet | reflexivity].
Qed.

Lemma subscribe_quiet l : quietMethod (subscribe l).
Proof.
  intros h Hh. split; [exact Hh|]. split; [reflexivity|].
  by exists [Notified l (sampleId (manager h))].
Qed.

Lemma unsubscribe_quiet l : quietMethod (unsubscribe l).
Proof.
  intros h Hh. split; [exact Hh|]. split; [reflexivity|].
  exists []. by rewrite app_nil_r.
Qed.

(** *** Lists *)

Lemma lookup_snoc_length {A} (l : list A) x : (l ++ [x]) !! length l = Some x.
Proof. by rewrite lookup_app_r, Nat.sub_diag. Qed.

Lemma insert_snoc_length {A} (l : list A) x y : <[length l := y]> (l ++ [x]) = l ++ [y].
Proof. rewrite insert_app_r_alt by done. by rewrite Nat.sub_diag. Qed.

Lemma delete_snoc_length {A} (l : list A) x : delete (length l) (l ++ [x]) = l.
Proof. induction l; simpl; [done | by f_equal]. Qed.

Lemma Forall2_impl_in {A B} (P Q : A -> B -> Prop) l k :
  Forall2 P l k -> (forall x y, x ∈ l -> P x y -> Q x y) -> Forall2 Q l k.
Proof.
  induction 1 as [|x y l k Hxy _ IH]; intros HPQ; constructor.
  - apply HPQ; [left | done].
  - apply IH. intros x' y' Hin. apply HPQ. by right.
Qed.

Lemma sum_list_with_delete (f : nat -> nat) (l : list nat) i n :
  l !! i = Some n -> sum_list_with f l = f n + sum_list_with f (delete i l).
Proof.
  revert i. induction l as [|a l IH]; intros [|i]; simpl; try done.
  - by intros [= ->].
  - intros H. rewrite (IH i H). lia.
Qed.

Lemma sum_list_with_snoc (f : nat -> nat) (l : list nat) n :
  sum_list_with f (l ++ [n]) = sum_list_with f l + f n.
Proof. rewrite sum_list_with_app. simpl. lia. Qed.

Lemma delete_map {A B} (f : A -> B) (l : list A) i : delete i (map f l) = map f (delete i l).
Proof. revert i. induction l; intros [|i]; simpl; try done. by f_equal. Qed.

Lemma elem_of_delete {A} (l : list A) i x : x ∈ delete i l -> x ∈ l.
Proof.
  revert i. induction l as [|a l IH]; intros [|i]; simpl; try done.
  - by right.
  - intros [->|H]%elem_of_cons; [left | right; eauto].
Qed.

Lemma delete_perm {A} (l : list A) i x : l !! i = Some x -> l ≡ₚ x :: delete i l.
Proof. apply delete_Permutation. Qed.

(** *** The promise store *)

Lemma settle_pending t o s rs :
  promises s !! t = Some (Pending rs) ->
  settle t o s
  = mkSys (heap s) (<[t := Settled o]> (promises s))
      (jobs s ++ map (fun r : Reaction => (r.1 o, r.2)) rs) (calls s).
Proof. intros H. unfold settle. by rewrite H. Qed.

Lemma react_pending q r s rs :
  promises s !! q = Some (Pending rs) ->
  react q r s
  = mkSys (heap s) (<[q := Pending (rs ++ [r])]> (promises s)) (jobs s) (calls s).
Proof. intros H. unfold react. by rewrite H. Qed.

Lemma react_settled q r s o :
  promises s !! q = Some (Settled o) ->
  react q r s = addJob (r.1 o, r.2) s.
Proof. intros H. unfold react. by rewrite H. Qed.

(** *** Languages *)

Lemma after_nil L tr o : after [] L tr o <-> L tr o.
Proof. done. Qed.

Lemma after_after w1 w2 L tr o : after w2 (after w1 L) tr o <-> after (w1 ++ w2) L tr o.
Proof. unfold after. by rewrite app_assoc. Qed.

Lemma after_quiet w tr o : after w quietTrace tr o -> quietTrace tr o /\ w = [].
Proof. unfold after, quietTrace. intros H. by apply app_eq_nil in H as [-> ->]. Qed.

Lemma phaseLang_advance op ph w tr o :
  after w (phaseLang op ph) tr o -> phaseLang op (advance ph w) tr o.
Proof. destruct ph; simpl; unfold after; by rewrite app_assoc. Qed.

Lemma phaseTrace_advance ph w : phaseTrace (advance ph w) = phaseTrace ph ++ w.
Proof. destruct ph; simpl; by rewrite ?app_assoc. Qed.

(** A protocol that some code conforms to allows a run. *)
Lemma conforms_inhabited n L p : Conforms n L p -> exists tr o, L tr o.
Proof.
  revert n L. induction p as [a|e|X f k IH|sc k IH|u b nm k IH|k IH|q cb k _|q hd k _|q k _]
    using job_ind; intros n L Hc; simpl in Hc; try done; eauto.
  - destruct n as [|n]; [done|].
    destruct (Hc (mkHeap initialManager (mkDisk ∅ []) [])) as (_ & _ & evs & _ & H).
    { split; [done | discriminate]. }
    apply IH in H as (tr & o & H). by exists (queued evs ++ tr), o.
  - destruct n as [|n]; [done|].
    destruct (IH (inr "") _ _ (Hc (inr ""))) as (tr & o & H).
    by exists (queued [Invoked sc] ++ tr), o.
  - destruct n as [|n]; [done|]. apply (IH (inl (JsError "")) n). by apply Hc.
  - destruct n as [|n]; [done|]. by apply (IH n).
Qed.

Lemma callConforms_inhabited n L c : CallConforms n L c -> exists tr o, L tr o.
Proof.
  destruct c as [sc k t | u b nm k t]; simpl; intros H.
  - apply (conforms_inhabited n L (k (inr ""))), H.
  - apply (conforms_inhabited n L (k (inl (JsError "")))). by apply H.
Qed.

Lemma callConforms_ext n L L' c :
  (forall tr o, L tr o -> L' tr o) -> CallConforms n L c -> CallConforms n L' c.
Proof.
  intros HL. destruct c; simpl; intros H r.
  - eapply Conforms_ext; [exact HL | apply H].
  - intros Hr. eapply Conforms_ext; [exact HL | by apply H].
Qed.

(** *** The account of the operation in progress *)

Lemma Advanced_owned act act' w waiting :
  Advanced act act' w -> ownedIds act' waiting = ownedIds act waiting.
Proof. destruct 1 as [|op ph w]; [done|]. by destruct ph. Qed.

Lemma Advanced_trace act act' w : Advanced act act' w -> actTrace act' = actTrace act ++ w.
Proof.
  destruct 1 as [|op ph w]; simpl; [by rewrite app_nil_r | apply phaseTrace_advance].
Qed.

Lemma Advanced_cost act act' w : Advanced act act' w -> actCost act' = actCost act.
Proof. destruct 1 as [|op ph w]; [done|]. by destruct ph. Qed.

Lemma Advanced_ops act act' w : Advanced act act' w -> actOps act' = actOps act.
Proof. by destruct 1. Qed.

Lemma Advanced_active act act' w P next (T T' : list pid) (Q : Prop) :
  Advanced act act' w -> T ≡ₚ T' ->
  match act with
  | Some (op, ph) => phaseWf op ph /\ phaseStore P op ph next /\ phaseTarget op ph ∈ T
  | None => Q
  end ->
  match act' with
  | Some (op, ph) => phaseWf op ph /\ phaseStore P op ph next /\ phaseTarget op ph ∈ T'
  | None => Q
  end.
Proof.
  destruct 1 as [[[op ph]|]|op ph w]; intros HT; try done.
  - intros (H1 & H2 & H3). by rewrite <- HT.
  - intros (H1 & H2 & H3). rewrite <- HT. by destruct ph.
Qed.

(** An item that moves on, writing the queue events [w], keeps a role,
    and so does every other item. *)
Lemma role_advance act owned P t L w :
  Role act owned P t L ->
  (exists tr o, after w L tr o) ->
  exists act' L',
    Advanced act act' w
    /\ Role act' owned P t L'
    /\ (forall tr o, after w L tr o -> L' tr o)
    /\ (forall t' L'', t' <> t -> Role act owned P t' L'' -> Role act' owned P t' L'').
Proof.
  intros [(op & ph & -> & -> & ->) | (-> & Ho & HP)] (tr & o & Hinh).
  - exists (Some (op, advance ph w)), (phaseLang op (advance ph w)).
    split; [constructor|]. split; [|split].
    + left. exists op, (advance ph w). split; [done|]. split; [by destruct ph | done].
    + apply phaseLang_advance.
    + intros t' L'' Hne [(op' & ph' & [= <- <-] & -> & _) | H]; [done | by right].
  - apply after_quiet in Hinh as [_ ->].
    exists act, quietTrace. split; [constructor|]. split; [by right|]. split; [|done].
    intros tr' o'. by intros [? _]%after_quiet.
Qed.

(** *** Targets *)

Lemma targets_delete_job s i p t :
  jobs s !! i = Some (p, t) ->
  targets s ≡ₚ t :: (map snd (delete i (jobs s)) ++ map callTarget (calls s)).
Proof.
  intros H. unfold targets. rewrite (delete_perm _ _ _ H) at 1. done.
Qed.

Lemma targets_delete_call s i c :
  calls s !! i = Some c ->
  targets s ≡ₚ callTarget c :: (map snd (jobs s) ++ map callTarget (delete i (calls s))).
Proof.
  intros H. unfold targets. rewrite (delete_perm _ _ _ H) at 1. simpl.
  by rewrite Permutation_middle.
Qed.

Lemma NoDup_cons_app_l {A} (x : A) (l k : list A) (y : A) :
  NoDup (x :: l ++ k) -> y ∈ l -> y <> x.
Proof.
  intros [Hx _]%NoDup_cons Hy ->. apply Hx, elem_of_app. by left.
Qed.

Lemma NoDup_cons_app_r {A} (x : A) (l k : list A) (y : A) :
  NoDup (x :: l ++ k) -> y ∈ k -> y <> x.
Proof.
  intros [Hx _]%NoDup_cons Hy ->. apply Hx, elem_of_app. by right.
Qed.

(** *** Steps that move one item on *)

Lemma fifo_replace reqs m s dreqs done act waiting jb cb s' act' jb' cb' w :
  FifoInv reqs m s dreqs done act waiting jb cb ->
  Advanced act act' w ->
  promises s' = promises s ->
  sessionInv (manager (heap s')) ->
  playbackQueue (manager (heap s')) = playbackQueue (manager (heap s)) ->
  queued (trace (heap s')) = queued (trace (heap s)) ++ w ->
  targets s' ≡ₚ targets s ->
  Forall2 (JobGood act' (ownedIds act waiting) (promises s)) (jobs s') jb' ->
  Forall2 (CallGood act' (ownedIds act waiting) (promises s)) (calls s') cb' ->
  FifoInv reqs
    (sum_list_with jobWeight jb' + sum_list_with callWeight cb'
     + actCost act + length waiting * opCost)
    s' dreqs done act' waiting jb' cb'.
Proof.
  intros [] Hadv HP Hs Hq Htr HT Hj Hc.
  pose proof (Advanced_owned _ _ _ waiting Hadv) as Ho.
  constructor; rewrite ?Ho, ?HP, ?Hq, ?(Advanced_ops _ _ _ Hadv),
    ?(Advanced_cost _ _ _ Hadv); try done.
  - by rewrite HT.
  - eapply Advanced_active; [exact Hadv | symmetry; exact HT | done].
  - rewrite Htr, fi_trace0, (Advanced_trace _ _ _ Hadv). by rewrite app_assoc.
Qed.

Section Frame.

Variables (act act' : option (Op * Phase)) (owned : list pid) (P : list PromiseState).
Variable t : pid.
Hypothesis frame :
  forall t' L, t' <> t -> Role act owned P t' L -> Role act' owned P t' L.

Lemma jobs_frame_all (js : list Job) jb :
  Forall2 (JobGood act owned P) js jb ->
  (forall j, j ∈ js -> j.2 <> t) ->
  Forall2 (JobGood act' owned P) js jb.
Proof.
  intros H Hne. eapply Forall2_impl_in; [exact H|].
  intros j n Hj (L & HL & Hc). exists L. split; [|done]. apply frame; [by apply Hne | done].
Qed.

Lemma calls_frame_all (cs : list PendingCall) cb :
  Forall2 (CallGood act owned P) cs cb ->
  (forall c, c ∈ cs -> callTarget c <> t) ->
  Forall2 (CallGood act' owned P) cs cb.
Proof.
  intros H Hne. eapply Forall2_impl_in; [exact H|].
  intros c n Hc (L & HL & Hcc). exists L. split; [|done]. apply frame; [by apply Hne | done].
Qed.

End Frame.

(** The other items have other targets. *)
Lemma others_of_job s i p t :
  NoDup (targets s) -> jobs s !! i = Some (p, t) ->
  (forall j, j ∈ delete i (jobs s) -> j.2 <> t)
  /\ (forall c, c ∈ calls s -> callTarget c <> t).
Proof.
  intros Hnd Hi. rewrite (targets_delete_job _ _ _ _ Hi) in Hnd. split.
  - intros j Hj. eapply NoDup_cons_app_l; [exact Hnd|]. by apply list_elem_of_fmap_2.
  - intros c Hc. eapply NoDup_cons_app_r; [exact Hnd|]. by apply list_elem_of_fmap_2.
Qed.

Lemma others_of_call s i c :
  NoDup (targets s) -> calls s !! i = Some c ->
  (forall j, j ∈ jobs s -> j.2 <> callTarget c)
  /\ (forall c', c' ∈ delete i (calls s) -> callTarget c' <> callTarget c).
Proof.
  intros Hnd Hi. rewrite (targets_delete_call _ _ _ Hi) in Hnd. split.
  - intros j Hj. eapply NoDup_cons_app_l; [exact Hnd|]. by apply list_elem_of_fmap_2.
  - intros c' Hc. eapply NoDup_cons_app_r; [exact Hnd|]. by apply list_elem_of_fmap_2.
Qed.

(** A job ran and suspended as a job. *)
Lemma fifo_job_to_job reqs m s dreqs done act waiting jb cb i p t n h' evs k n' L :
  FifoInv reqs m s dreqs done act waiting jb cb ->
  jobs s !! i = Some (p, t) -> jb !! i = Some n ->
  Role act (ownedIds act waiting) (promises s) t L ->
  trace h' = trace (heap s) ++ evs ->
  sessionInv (manager h') ->
  playbackQueue (manager h') = playbackQueue (manager (heap s)) ->
  n' < n -> Conforms n' (after (queued evs) L) k ->
  exists m',
    Reach reqs m' (mkSys h' (promises s) (delete i (jobs s) ++ [(k, t)]) (calls s))
    /\ m' < m.
Proof.
  intros Hinv Hi Hn Hrole Htr Hs Hq Hlt Hk.
  destruct (role_advance _ _ _ _ _ (queued evs) Hrole (conforms_inhabited _ _ _ Hk))
    as (act' & L' & Hadv & Hrole' & HL' & Hframe).
  destruct (others_of_job _ _ _ _ (fi_targets _ _ _ _ _ _ _ _ _ Hinv) Hi) as [Hoj Hoc].
  eexists. split.
  - exists dreqs, done, act', waiting, (delete i jb ++ [n']), cb.
    eapply (fifo_replace _ _ _ _ _ _ _ _ _ _ _ _ _ (queued evs) Hinv Hadv); simpl; try done.
    + by rewrite Htr, queued_app.
    + rewrite (targets_delete_job _ _ _ _ Hi). unfold targets. simpl.
      rewrite map_app. simpl. rewrite <- app_assoc. simpl. by rewrite <- Permutation_middle.
    + apply Forall2_app.
      * eapply jobs_frame_all; [exact Hframe | | exact Hoj].
        apply Forall2_delete, Hinv.
      * constructor; [|constructor]. exists L'. split; [done|].
        eapply Conforms_ext; [exact HL' | exact Hk].
    + eapply calls_frame_all; [exact Hframe | apply Hinv | exact Hoc].
  - rewrite (fi_measure _ _ _ _ _ _ _ _ _ Hinv).
    rewrite (sum_list_with_delete jobWeight jb i n Hn), sum_list_with_snoc.
    unfold jobWeight. lia.
Qed.

(** A job ran and suspended on an external call. *)
Lemma fifo_job_to_call reqs m s dreqs done act waiting jb cb i p t n h' evs c n' L :
  FifoInv reqs m s dreqs done act waiting jb cb ->
  jobs s !! i = Some (p, t) -> jb !! i = Some n ->
  Role act (ownedIds act waiting) (promises s) t L ->
  trace h' = trace (heap s) ++ evs ->
  sessionInv (manager h') ->
  playbackQueue (manager h') = playbackQueue (manager (heap s)) ->
  n' < n -> callTarget c = t -> CallConforms n' (after (queued evs) L) c ->
  exists m',
    Reach reqs m' (mkSys h' (promises s) (delete i (jobs s)) (calls s ++ [c]))
    /\ m' < m.
Proof.
  intros Hinv Hi Hn Hrole Htr Hs Hq Hlt Ht Hk.
  destruct (role_advance _ _ _ _ _ (queued evs) Hrole (callConforms_inhabited _ _ _ Hk))
    as (act' & L' & Hadv & Hrole' & HL' & Hframe).
  destruct (others_of_job _ _ _ _ (fi_targets _ _ _ _ _ _ _ _ _ Hinv) Hi) as [Hoj Hoc].
  eexists. split.
  - exists dreqs, done, act', waiting, (delete i jb), (cb ++ [n']).
    eapply (fifo_replace _ _ _ _ _ _ _ _ _ _ _ _ _ (queued evs) Hinv Hadv); simpl; try done.
    + by rewrite Htr, queued_app.
    + rewrite (targets_delete_job _ _ _ _ Hi). unfold targets. simpl.
      rewrite map_app. simpl. rewrite Ht, app_assoc. by rewrite <- Permutation_cons_append.
    + eapply jobs_frame_all; [exact Hframe | | exact Hoj]. apply Forall2_delete, Hinv.
    + apply Forall2_app.
      * eapply calls_frame_all; [exact Hframe | apply Hinv | exact Hoc].
      * constructor; [|constructor]. exists L'. rewrite Ht. split; [done|].
        eapply callConforms_ext; [exact HL' | exact Hk].
  - rewrite (fi_measure _ _ _ _ _ _ _ _ _ Hinv).
    rewrite (sum_list_with_delete jobWeight jb i n Hn), sum_list_with_snoc.
    unfold jobWeight, callWeight. lia.
Qed.

(** An external call returned: its continuation is a job. *)
Lemma fifo_call_to_job reqs m s dreqs done act waiting jb cb i c n d' k :
  FifoInv reqs m s dreqs done act waiting jb cb ->
  calls s !! i = Some c -> cb !! i = Some n ->
  (forall L, CallConforms n L c -> Conforms n L k) ->
  exists m',
    Reach reqs m'
      (mkSys (mkHeap (manager (heap s)) d' (trace (heap s))) (promises s)
         (jobs s ++ [(k, callTarget c)]) (delete i (calls s)))
    /\ m' < m.
Proof.
  intros Hinv Hi Hn Hk.
  destruct (Forall2_lookup_lr _ _ _ _ _ _ (fi_calls _ _ _ _ _ _ _ _ _ Hinv) Hi Hn)
    as (L & Hrole & Hc).
  destruct (others_of_call _ _ _ (fi_targets _ _ _ _ _ _ _ _ _ Hinv) Hi) as [Hoj Hoc].
  eexists. split.
  - exists dreqs, done, act, waiting, (jb ++ [n]), (delete i cb).
    eapply (fifo_replace _ _ _ _ _ _ _ _ _ _ _ _ _ [] Hinv (adv_same act)); simpl;
      try done; try apply Hinv.
    + by rewrite app_nil_r.
    + rewrite (targets_delete_call _ _ _ Hi). unfold targets. simpl.
      rewrite map_app. simpl. rewrite <- app_assoc. simpl. by rewrite <- Permutation_middle.
    + apply Forall2_app; [apply Hinv|].
      constructor; [|constructor]. exists L. split; [done | by apply Hk].
    + apply Forall2_delete, Hinv.
  - rewrite (fi_measure _ _ _ _ _ _ _ _ _ Hinv).
    rewrite (sum_list_with_delete callWeight cb i n Hn), sum_list_with_snoc.
    unfold jobWeight, callWeight. lia.
Qed.

(** *** Steps that settle a promise *)

(** Every target is the promise the operation in progress is at, or a
    promise no operation owns, pending and without reactions. *)
Lemma target_role reqs m s dreqs done act waiting jb cb x :
  FifoInv reqs m s dreqs done act waiting jb cb ->
  x ∈ targets s ->
  exists L, Role act (ownedIds act waiting) (promises s) x L.
Proof.
  intros Hinv [Hx|Hx]%elem_of_app.
  - apply list_elem_of_fmap in Hx as (j & -> & Hj).
    apply list_elem_of_lookup in Hj as (i & Hi).
    destruct (Forall2_lookup_l _ _ _ _ _ (fi_jobs _ _ _ _ _ _ _ _ _ Hinv) Hi)
      as (n & _ & L & HL & _). by exists L.
  - apply list_elem_of_fmap in Hx as (c & -> & Hc).
    apply list_elem_of_lookup in Hc as (i & Hi).
    destruct (Forall2_lookup_l _ _ _ _ _ (fi_calls _ _ _ _ _ _ _ _ _ Hinv) Hi)
      as (n & _ & L & HL & _). by exists L.
Qed.

Lemma role_agree act owned P P' t L :
  P' !! t = P !! t -> Role act owned P t L -> Role act owned P' t L.
Proof. intros HP [H | (-> & Ho & Hl)]; [by left | right]. by rewrite HP. Qed.

(** An item outside the queue stays outside when the operations own less. *)
Lemma role_other act act' owned owned' P P' t L :
  (forall op ph, act = Some (op, ph) -> t <> phaseTarget op ph) ->
  owned' ⊆ owned -> P' !! t = P !! t ->
  Role act owned P t L -> Role act' owned' P' t L.
Proof.
  intros Hne Hsub HP [(op & ph & Ha & Ht & _) | (-> & Ho & Hl)].
  - by destruct (Hne op ph Ha).
  - right. split; [done|]. split; [|by rewrite HP]. intros Hin. by apply Ho, Hsub.
Qed.

Lemma phaseStore_agree P P' op ph next :
  (forall t, t ∈ phaseIds op ph -> P' !! t = P !! t) ->
  phaseStore P op ph next -> phaseStore P' op ph next.
Proof.
  intros H. unfold phaseStore.
  destruct ph; simpl in *; rewrite !H; try done; set_solver.
Qed.

Lemma waitingStore_agree P P' ws :
  (forall t, t ∈ concat (map opIds ws) -> P' !! t = P !! t) ->
  waitingStore P ws -> waitingStore P' ws.
Proof.
  induction ws as [|op ws IH]; simpl; [done|]. intros H (H1 & H2 & H3 & H4 & H5).
  rewrite !H by set_solver. repeat split; try done. apply IH; [|done].
  intros t Ht. apply H. set_solver.
Qed.

Lemma fifo_finish reqs m s dreqs done act waiting jb cb i p t n o h'
    newjobs nb dreqs' done' act' waiting' :
  FifoInv reqs m s dreqs done act waiting jb cb ->
  jobs s !! i = Some (p, t) -> jb !! i = Some n ->
  (forall t' L, t' <> t -> t' ∈ targets s ->
     Role act (ownedIds act waiting) (promises s) t' L ->
     Role act' (ownedIds act' waiting') (<[t := Settled o]> (promises s)) t' L) ->
  Forall2 (JobGood act' (ownedIds act' waiting') (<[t := Settled o]> (promises s)))
    newjobs nb ->
  NoDup (map snd newjobs) ->
  (forall x y, x ∈ map snd newjobs -> y ∈ targets s -> y <> t -> x <> y) ->
  sessionInv (manager h') ->
  NoDup (ownedIds act' waiting') ->
  (forall x, x ∈ ownedIds act' waiting' -> x < length (promises s)) ->
  match act' with
  | Some (op, ph) =>
      phaseWf op ph
      /\ phaseStore (<[t := Settled o]> (promises s)) op ph (nextReactions waiting')
      /\ phaseTarget op ph ∈ map snd (delete i (jobs s) ++ newjobs) ++ map callTarget (calls s)
  | None => waiting' = []
  end ->
  waitingStore (<[t := Settled o]> (promises s)) waiting' ->
  match last (actOps act' ++ waiting') with
  | Some op => playbackQueue (manager h') = op_q op
  | None =>
      <[t := Settled o]> (promises s) !! playbackQueue (manager h') = Some (Settled Fulfilled)
  end ->
  queued (trace h') = concat done' ++ actTrace act' ->
  reqs = dreqs' ++ map op_req (actOps act' ++ waiting') ->
  Forall2 opTrace dreqs' done' ->
  FifoInv reqs
    (sum_list_with jobWeight (delete i jb ++ nb) + sum_list_with callWeight cb
     + actCost act' + length waiting' * opCost)
    (mkSys h' (<[t := Settled o]> (promises s)) (delete i (jobs s) ++ newjobs) (calls s))
    dreqs' done' act' waiting' (delete i jb ++ nb) cb.
Proof.
  intros Hinv Hi Hn Hframe Hnew Hnd Hfresh Hs Hown Hrange Hact Hwait Hq Htr Hreqs Hdone.
  destruct (others_of_job _ _ _ _ (fi_targets _ _ _ _ _ _ _ _ _ Hinv) Hi) as [Hoj Hoc].
  assert (forall j, j ∈ delete i (jobs s) -> j.2 ∈ targets s) as Hjt.
  { intros j Hj. apply elem_of_app. left. apply list_elem_of_fmap_2.
    by apply elem_of_delete in Hj. }
  assert (forall c, c ∈ calls s -> callTarget c ∈ targets s) as Hct.
  { intros c Hc. apply elem_of_app. right. by apply list_elem_of_fmap_2. }
  constructor; simpl; try done.
  - apply Forall2_app; [|done].
    eapply Forall2_impl_in; [apply Forall2_delete, Hinv|].
    intros j k Hj (L & HL & Hc). exists L. split; [|done].
    apply Hframe; [by apply Hoj | by apply Hjt | done].
  - eapply Forall2_impl_in; [apply Hinv|].
    intros c k Hc (L & HL & Hcc). exists L. split; [|done].
    apply Hframe; [by apply Hoc | by apply Hct | done].
  - pose proof (fi_targets _ _ _ _ _ _ _ _ _ Hinv) as HT.
    rewrite (targets_delete_job _ _ _ _ Hi) in HT. apply NoDup_cons in HT as [_ HT].
    unfold targets. simpl. rewrite map_app, <- app_assoc.
    rewrite (Permutation_app_comm (map snd newjobs)), app_assoc.
    apply NoDup_app. split; [done|]. split; [|done].
    intros y Hy Hx. eapply (Hfresh y y); [done | | | done].
    + rewrite (targets_delete_job _ _ _ _ Hi). by right.
    + apply elem_of_app in Hy as [Hy|Hy].
      * apply list_elem_of_fmap in Hy as (j & -> & Hj). by apply Hoj.
      * apply list_elem_of_fmap in Hy as (c & -> & Hc). by apply Hoc.
  - intros x Hx. rewrite length_insert. by apply Hrange.
Qed.

Lemma insert_other {A} (l : list A) t t' x : t' <> t -> <[t := x]> l !! t' = l !! t'.
Proof. intros H. by apply list_lookup_insert_ne. Qed.

Lemma last_cons_app {A} (x : A) (y : A) (l : list A) :
  last ([x] ++ y :: l) = last ([y] ++ l).
Proof. done. Qed.

(** The active operation's promises are distinct and in range. *)
Lemma active_ids reqs m s dreqs done op ph waiting jb cb :
  FifoInv reqs m s dreqs done (Some (op, ph)) waiting jb cb ->
  NoDup (phaseIds op ph ++ concat (map opIds waiting))
  /\ (forall x, x ∈ phaseIds op ph ++ concat (map opIds waiting) -> x < length (promises s)).
Proof. intros Hinv. split; apply Hinv. Qed.

(** A quiet job finished. *)
Lemma fifo_finish_other reqs m s dreqs done act waiting jb cb i p t n o h' evs :
  FifoInv reqs m s dreqs done act waiting jb cb ->
  jobs s !! i = Some (p, t) -> jb !! i = Some n ->
  t ∉ ownedIds act waiting -> promises s !! t = Some (Pending []) ->
  trace h' = trace (heap s) ++ evs -> queued evs = [] ->
  sessionInv (manager h') ->
  playbackQueue (manager h') = playbackQueue (manager (heap s)) ->
  exists m',
    Reach reqs m'
      (mkSys h' (<[t := Settled o]> (promises s)) (delete i (jobs s) ++ []) (calls s))
    /\ m' < m.
Proof.
  intros Hinv Hi Hn Ho HP Htr Hev Hs Hq.
  eexists. split.
  - exists dreqs, done, act, waiting, (delete i jb ++ []), cb.
    eapply (fifo_finish _ _ _ _ _ _ _ _ _ _ _ _ _ o h' [] [] _ _ _ _ Hinv Hi Hn);
      try done; try apply Hinv.
    + intros t' L Hne _ H. eapply role_agree; [|exact H]. by apply insert_other.
    + constructor.
    + intros x y Hx. by apply elem_of_nil in Hx.
    + pose proof (fi_active _ _ _ _ _ _ _ _ _ Hinv) as Ha.
      destruct act as [[op ph]|]; [|done]. destruct Ha as (H1 & H2 & H3).
      assert (phaseTarget op ph ∈ ownedIds (Some (op, ph)) waiting) as Hin.
      { apply elem_of_app. left. destruct ph; simpl; set_solver. }
      split; [done|]. split.
      * eapply phaseStore_agree; [|exact H2]. intros x Hx. apply insert_other.
        intros ->. apply Ho, elem_of_app. by left.
      * rewrite app_nil_r. rewrite (targets_delete_job _ _ _ _ Hi) in H3.
        apply elem_of_cons in H3 as [H3|H3]; [|done]. rewrite <- H3 in Ho. done.
    + eapply waitingStore_agree; [|apply Hinv]. intros x Hx. apply insert_other.
      intros ->. apply Ho, elem_of_app. by right.
    + pose proof (fi_queue _ _ _ _ _ _ _ _ _ Hinv) as Hqq. rewrite Hq.
      destruct (last (actOps act ++ waiting)); [done|].
      rewrite insert_other; [done|]. intros Heq. rewrite Heq in Hqq. congruence.
    + rewrite Htr, queued_app, Hev, app_nil_r. apply Hinv.
  - rewrite (fi_measure _ _ _ _ _ _ _ _ _ Hinv), app_nil_r.
    rewrite (sum_list_with_delete jobWeight jb i n Hn). unfold jobWeight. lia.
Qed.

Lemma catch_conforms o :
  Conforms 1 (after [] (catchTrace o))
    (catchReaction (fun error => log (LogOperationFailed (errorMessage error))) o).
Proof. destruct o as [|e]; [done|]. by apply conforms_log. Qed.

Lemma done_conforms :
  Conforms 1 (after [] doneTrace) (thenReaction (log LogOperationCompleted) Fulfilled).
Proof. by apply conforms_log. Qed.

Lemma queue_last_active (op : Op) (waiting : list Op) (q : pid) (X Y : Prop) :
  match last ([op] ++ waiting) with
  | Some op' => q = op_q op'
  | None => X
  end ->
  match last ([op] ++ waiting) with
  | Some op' => q = op_q op'
  | None => Y
  end.
Proof.
  destruct (last ([op] ++ waiting)) eqn:Hl; [done|]. by apply last_None in Hl.
Qed.

(** The body of the operation in progress finished: the [catch] is next. *)
Lemma fifo_finish_body reqs m s dreqs done op tr waiting jb cb i p n o h' evs :
  FifoInv reqs m s dreqs done (Some (op, PBody tr)) waiting jb cb ->
  jobs s !! i = Some (p, op_t op) -> jb !! i = Some n ->
  trace h' = trace (heap s) ++ evs ->
  sessionInv (manager h') ->
  playbackQueue (manager h') = playbackQueue (manager (heap s)) ->
  bodyTrace (op_req op) (tr ++ queued evs) o ->
  exists m',
    Reach reqs m'
      (settle (op_t op) o (mkSys h' (promises s) (delete i (jobs s)) (calls s)))
    /\ m' < m.
Proof.
  intros Hinv Hi Hn Htr Hs Hq Hb.
  destruct (active_ids _ _ _ _ _ _ _ _ _ _ Hinv) as [Hnd Hrg]. simpl in Hnd, Hrg.
  destruct (fi_active _ _ _ _ _ _ _ _ _ Hinv) as (_ & (Pq & Pt & Pc & Ppa) & Hin).
  apply NoDup_cons in Hnd as [Ht Hnd]. apply NoDup_cons in Hnd as [Hc Hnd].
  apply NoDup_cons in Hnd as [Hqn Hnd]. apply NoDup_cons in Hnd as [Hpa Hnd].
  rewrite (settle_pending _ _ (mkSys _ _ _ _) _ Pt). simpl.
  eexists. split.
  - exists dreqs, done, (Some (op, PCatch (tr ++ queued evs) o [])), waiting,
      (delete i jb ++ [1]), cb.
    eapply (fifo_finish _ _ _ _ _ _ _ _ _ _ _ _ _ o h' _ [1] _ _ _ _ Hinv Hi Hn);
      try done; try apply Hinv.
    + intros t' L Hne _ H. eapply role_other; [| |by apply insert_other|exact H]; [|done].
      by intros ? ? [= <- <-].
    + constructor; [|constructor]. exists (phaseLang op (PCatch (tr ++ queued evs) o [])).
      split; [left; by eexists _, _|]. apply catch_conforms.
    + simpl. apply NoDup_singleton.
    + simpl. intros x y ->%list_elem_of_singleton Hy Hne <-.
      destruct (target_role _ _ _ _ _ _ _ _ _ _ Hinv Hy)
        as (L & [(? & ? & [= <- <-] & ? & _) | (_ & Ho & _)]); [done|].
      apply Ho. simpl. set_solver.
    + split; [done|]. split.
      * split; [|split; [|split]]; simpl.
        -- rewrite insert_other; [done | set_solver].
        -- apply list_lookup_insert_eq. apply Hrg. set_solver.
        -- rewrite insert_other; [done | set_solver].
        -- rewrite insert_other; [done | set_solver].
      * simpl. rewrite map_app. simpl. set_solver.
    + eapply waitingStore_agree; [|apply Hinv]. intros x Hx. apply insert_other.
      intros ->. set_solver.
    + rewrite Hq. eapply queue_last_active, (fi_queue _ _ _ _ _ _ _ _ _ Hinv).
    + rewrite Htr, queued_app, (fi_trace _ _ _ _ _ _ _ _ _ Hinv). simpl.
      by rewrite app_nil_r, app_assoc.
  - rewrite (fi_measure _ _ _ _ _ _ _ _ _ Hinv).
    rewrite (sum_list_with_delete jobWeight jb i n Hn), sum_list_with_snoc.
    unfold jobWeight. simpl. lia.
Qed.

(** The [catch] finished: the last link and the awaiter of [playAudio] are next. *)
Lemma fifo_finish_catch reqs m s dreqs done op body o tr waiting jb cb i p n o' h' evs :
  FifoInv reqs m s dreqs done (Some (op, PCatch body o tr)) waiting jb cb ->
  jobs s !! i = Some (p, op_c op) -> jb !! i = Some n ->
  trace h' = trace (heap s) ++ evs ->
  sessionInv (manager h') ->
  playbackQueue (manager h') = playbackQueue (manager (heap s)) ->
  catchTrace o (tr ++ queued evs) o' ->
  exists m',
    Reach reqs m'
      (settle (op_c op) o' (mkSys h' (promises s) (delete i (jobs s)) (calls s)))
    /\ m' < m.
Proof.
  intros Hinv Hi Hn Htr Hs Hq [-> Hc].
  destruct (active_ids _ _ _ _ _ _ _ _ _ _ Hinv) as [Hnd Hrg]. simpl in Hnd, Hrg.
  destruct (fi_active _ _ _ _ _ _ _ _ _ Hinv) as (Hwf & (Pq & Pt & Pc & Ppa) & Hin).
  simpl in Hwf.
  pose proof Hnd as Hnd0.
  apply NoDup_cons in Hnd as [Ht Hnd]. apply NoDup_cons in Hnd as [Hcn Hnd].
  apply NoDup_cons in Hnd as [Hqn Hnd]. apply NoDup_cons in Hnd as [Hpa Hnd].
  rewrite (settle_pending _ _ (mkSys _ _ _ _) _ Pc). simpl.
  eexists. split.
  - exists dreqs, done, (Some (op, PDone (body ++ tr ++ queued evs) [])), waiting,
      (delete i jb ++ [1; 0]), cb.
    eapply (fifo_finish _ _ _ _ _ _ _ _ _ _ _ _ _ Fulfilled h' _ [1; 0] _ _ _ _ Hinv Hi Hn);
      try done; try apply Hinv.
    + intros t' L Hne _ H. eapply role_other; [| |by apply insert_other|exact H].
      * by intros ? ? [= <- <-].
      * simpl. set_solver.
    + constructor; [|constructor; [|constructor]].
      * exists (phaseLang op (PDone (body ++ tr ++ queued evs) [])).
        split; [left; by eexists _, _|]. apply done_conforms.
      * exists quietTrace. split; [|done]. right. split; [done|]. split.
        -- simpl. set_solver.
        -- simpl. rewrite insert_other; [done | set_solver].
    + simpl. apply NoDup_cons. split; [set_solver | apply NoDup_singleton].
    + simpl. intros x y Hx Hy Hne <-.
      destruct (target_role _ _ _ _ _ _ _ _ _ _ Hinv Hy)
        as (L & [(? & ? & [= <- <-] & ? & _) | (_ & Ho & _)]); [done|].
      apply Ho. simpl. set_solver.
    + simpl. apply NoDup_cons. split; [set_solver|]. apply NoDup_cons. split; [set_solver|].
      apply NoDup_cons. split; [set_solver | done].
    + intros x Hx. apply Hrg. simpl in *. set_solver.
    + split; [by exists body, o, (tr ++ queued evs)|]. split.
      * split; simpl.
        -- rewrite insert_other; [done | set_solver].
        -- apply list_lookup_insert_eq. apply Hrg. set_solver.
      * simpl. rewrite map_app. simpl. set_solver.
    + eapply waitingStore_agree; [|apply Hinv]. intros x Hx. apply insert_other.
      intros ->. set_solver.
    + rewrite Hq. eapply queue_last_active, (fi_queue _ _ _ _ _ _ _ _ _ Hinv).
    + rewrite Htr, queued_app, (fi_trace _ _ _ _ _ _ _ _ _ Hinv). simpl.
      by rewrite app_nil_r, !app_assoc.
  - rewrite (fi_measure _ _ _ _ _ _ _ _ _ Hinv).
    rewrite (sum_list_with_delete jobWeight jb i n Hn), sum_list_with_app.
    unfold jobWeight. simpl. lia.
Qed.

(** The last link of the operation in progress finished: the operation is
    done, and the first waiting one, when there is one, starts. *)
Lemma fifo_finish_done reqs m s dreqs done op sofar tr waiting jb cb i p n o h' evs :
  FifoInv reqs m s dreqs done (Some (op, PDone sofar tr)) waiting jb cb ->
  jobs s !! i = Some (p, op_q op) -> jb !! i = Some n ->
  trace h' = trace (heap s) ++ evs ->
  sessionInv (manager h') ->
  playbackQueue (manager h') = playbackQueue (manager (heap s)) ->
  doneTrace (tr ++ queued evs) o ->
  exists m',
    Reach reqs m'
      (settle (op_q op) o (mkSys h' (promises s) (delete i (jobs s)) (calls s)))
    /\ m' < m.
Proof.
  intros Hinv Hi Hn Htr Hs Hq [Hd ->].
  destruct (active_ids _ _ _ _ _ _ _ _ _ _ Hinv) as [Hnd Hrg]. simpl in Hnd, Hrg.
  destruct (fi_active _ _ _ _ _ _ _ _ _ Hinv)
    as ((body & o & handled & Hb & Hh & ->) & (Pq & Pc) & Hin).
  apply NoDup_cons in Hnd as [Ht Hnd]. apply NoDup_cons in Hnd as [Hcn Hnd].
  apply NoDup_cons in Hnd as [Hqn Hnd].
  rewrite (settle_pending _ _ (mkSys _ _ _ _) _ Pq). simpl.
  assert (opTrace (op_req op) ((body ++ handled) ++ tr ++ queued evs)) as Hop.
  { exists body, o, handled. rewrite Hd. split; [done|]. split; [done|].
    by rewrite <- app_assoc. }
  pose proof (fi_waiting _ _ _ _ _ _ _ _ _ Hinv) as Hw.
  pose proof (fi_queue _ _ _ _ _ _ _ _ _ Hinv) as Hqq.
  destruct waiting as [|w ws]; simpl in *.
  - eexists. split.
    + exists (dreqs ++ [op_req op]), (done ++ [(body ++ handled) ++ tr ++ queued evs]),
        None, [], (delete i jb ++ []), cb.
      eapply (fifo_finish _ _ _ _ _ _ _ _ _ _ _ _ _ Fulfilled h' [] [] _ _ _ _ Hinv Hi Hn);
        try done.
      * intros t' L Hne _ H. eapply role_other; [| |by apply insert_other|exact H].
        -- by intros ? ? [= <- <-].
        -- simpl. set_solver.
      * intros x y Hx. by apply elem_of_nil in Hx.
      * simpl. intros x Hx. by apply elem_of_nil in Hx.
      * simpl. rewrite Hq, Hqq. apply list_lookup_insert_eq. apply Hrg. set_solver.
      * rewrite Htr, queued_app, (fi_trace _ _ _ _ _ _ _ _ _ Hinv). simpl.
        rewrite concat_app. simpl. by rewrite !app_nil_r, <- !app_assoc.
      * rewrite (fi_reqs _ _ _ _ _ _ _ _ _ Hinv). simpl. by rewrite app_nil_r.
      * apply Forall2_app; [apply Hinv|]. by constructor.
    + rewrite (fi_measure _ _ _ _ _ _ _ _ _ Hinv), app_nil_r.
      rewrite (sum_list_with_delete jobWeight jb i n Hn). unfold jobWeight. simpl. lia.
  - destruct Hw as (Wt & Wc & Wpa & Wq & Hw).
    eexists. split.
    + exists (dreqs ++ [op_req op]), (done ++ [(body ++ handled) ++ tr ++ queued evs]),
        (Some (w, PBody [])), ws, (delete i jb ++ [bodyBound]), cb.
      eapply (fifo_finish _ _ _ _ _ _ _ _ _ _ _ _ _ Fulfilled h' _ [bodyBound] _ _ _ _
                Hinv Hi Hn); try done.
      * intros t' L Hne _ H. eapply role_other; [| |by apply insert_other|exact H].
        -- by intros ? ? [= <- <-].
        -- simpl. set_solver.
      * constructor; [|constructor]. exists (phaseLang w (PBody [])).
        split; [left; by eexists _, _|].
        apply (Conforms_ext _ (bodyTrace (op_url w, op_id w, op_name w)));
          [done | apply body_conforms].
      * simpl. apply NoDup_singleton.
      * simpl. intros x y ->%list_elem_of_singleton Hy Hne <-.
        destruct (target_role _ _ _ _ _ _ _ _ _ _ Hinv Hy)
          as (L & [(? & ? & [= <- <-] & ? & _) | (_ & Ho & _)]); [done|].
        apply Ho. simpl. set_solver.
      * intros x Hx. apply Hrg. simpl in *. set_solver.
      * split; [done|]. split.
        -- split; [|split; [|split]]; simpl; (rewrite insert_other; [done|]);
             intros Heq; rewrite <- Heq in Hqn; set_solver.
        -- simpl. rewrite map_app. simpl. set_solver.
      * eapply waitingStore_agree; [|exact Hw]. intros x Hx. apply insert_other.
        intros ->. set_solver.
      * rewrite Hq. eapply queue_last_active. exact Hqq.
      * rewrite Htr, queued_app, (fi_trace _ _ _ _ _ _ _ _ _ Hinv). simpl.
        rewrite concat_app. simpl. by rewrite !app_nil_r, <- !app_assoc.
      * rewrite (fi_reqs _ _ _ _ _ _ _ _ _ Hinv). simpl. by rewrite <- app_assoc.
      * apply Forall2_app; [apply Hinv|]. by constructor.
    + rewrite (fi_measure _ _ _ _ _ _ _ _ _ Hinv).
      rewrite (sum_list_with_delete jobWeight jb i n Hn), sum_list_with_snoc.
      unfold opCost, jobWeight. simpl. lia.
Qed.

(** *** The steps of the scheduler *)

Lemma fifo_runjob reqs m s i s' digest hashLen fetch :
  Reach reqs m s -> step digest hashLen fetch (RunJob i) s = Some s' ->
  exists m', Reach reqs m' s' /\ m' < m.
Proof.
  intros (dreqs & done & act & waiting & jb & cb & Hinv). simpl.
  destruct (jobs s !! i) as [[p t]|] eqn:Hi; [|done]. intros [= <-].
  destruct (Forall2_lookup_l _ _ _ _ _ (fi_jobs _ _ _ _ _ _ _ _ _ Hinv) Hi)
    as (n & Hn & L & Hrole & Hc). simpl in Hrole, Hc.
  destruct (exec_conforms n L p t (mkSys (heap s) (promises s) (delete i (jobs s)) (calls s))
              Hc (fi_session _ _ _ _ _ _ _ _ _ Hinv))
    as (h' & evs & Htr & Hs & Hq & Hshape). simpl in Htr, Hq.
  destruct Hshape as [(o & Ho & ->) | [(k & n' & Hlt & Hk & ->) | (c & n' & Hlt & Ht & Hk & ->)]];
    unfold setHeap, addJob, addCall; simpl.
  - destruct Hrole as [(op & ph & -> & -> & ->) | (-> & Hown & HP)].
    + destruct ph as [tr | body o0 tr | sofar tr]; simpl in Ho.
      * by eapply fifo_finish_body.
      * by eapply fifo_finish_catch.
      * by eapply fifo_finish_done.
    + rewrite (settle_pending _ _ (mkSys _ _ _ _) _ HP). simpl.
      eapply fifo_finish_other; try done.
  - by eapply fifo_job_to_job.
  - by eapply fifo_job_to_call.
Qed.

Lemma heap_eta h : mkHeap (manager h) (disk h) (trace h) = h.
Proof. by destruct h. Qed.

Lemma fifo_script_returns reqs m s i r s' digest hashLen fetch :
  Reach reqs m s -> step digest hashLen fetch (ScriptReturns i r) s = Some s' ->
  exists m', Reach reqs m' s' /\ m' < m.
Proof.
  intros (dreqs & done & act & waiting & jb & cb & Hinv). simpl.
  destruct (calls s !! i) as [[sc k t | u b nm k t]|] eqn:Hi; try done. intros [= <-].
  destruct (Forall2_lookup_l _ _ _ _ _ (fi_calls _ _ _ _ _ _ _ _ _ Hinv) Hi) as (n & Hn & _).
  rewrite <- (heap_eta (heap s)).
  eapply (fifo_call_to_job _ _ _ _ _ _ _ _ _ i _ n (disk (heap s)) (k r) Hinv Hi Hn).
  intros L H. apply H.
Qed.

Lemma getOrDownloadFile_valid digest hashLen fetch u b nm d :
  validDownload (File.getOrDownloadFile digest hashLen fetch u b nm d).1.
Proof.
  destruct (File.getOrDownloadFile digest hashLen fetch u b nm d) as [[e|f] d'] eqn:H;
    simpl; [done|].
  destruct (FileFacts.getOrDownloadFile_stored _ _ _ _ _ _ _ _ _ H) as [-> _].
  apply FileFacts.getExpectedFilePath_nonempty.
Qed.

Lemma fifo_download_returns reqs m s i s' digest hashLen fetch :
  Reach reqs m s -> step digest hashLen fetch (DownloadReturns i) s = Some s' ->
  exists m', Reach reqs m' s' /\ m' < m.
Proof.
  intros (dreqs & done & act & waiting & jb & cb & Hinv). simpl.
  destruct (calls s !! i) as [[sc k t | u b nm k t]|] eqn:Hi; try done.
  pose proof (getOrDownloadFile_valid digest hashLen fetch u b nm (disk (heap s))) as Hv.
  destruct (File.getOrDownloadFile digest hashLen fetch u b nm (disk (heap s))) as [r d'].
  intros [= <-].
  destruct (Forall2_lookup_l _ _ _ _ _ (fi_calls _ _ _ _ _ _ _ _ _ Hinv) Hi) as (n & Hn & _).
  eapply (fifo_call_to_job _ _ _ _ _ _ _ _ _ i _ n d' (k r) Hinv Hi Hn).
  intros L H. by apply H.
Qed.

(** *** A play request *)

Lemma react_old q r h (P ext : list PromiseState) J C :
  q < length P ->
  react q r (mkSys h (P ++ ext) J C)
  = match P !! q with
    | Some (Pending rs) => mkSys h (<[q := Pending (rs ++ [r])]> P ++ ext) J C
    | Some (Settled o) => mkSys h (P ++ ext) (J ++ [(r.1 o, r.2)]) C
    | None => mkSys h (P ++ ext) J C
    end.
Proof.
  intros Hq. unfold react. simpl. rewrite lookup_app_l by done.
  destruct (P !! q) as [[rs|o]|]; try done. by rewrite insert_app_l.
Qed.

Lemma react_last r h (P : list PromiseState) rs ext J C :
  react (length P) r (mkSys h (P ++ Pending rs :: ext) J C)
  = mkSys h (P ++ Pending (rs ++ [r]) :: ext) J C.
Proof.
  unfold react. simpl. rewrite list_lookup_middle by done.
  rewrite insert_app_r_alt by done. by rewrite Nat.sub_diag.
Qed.

Lemma react_new (P1 l : list PromiseState) k q r rs h J C :
  q = length P1 + k -> l !! k = Some (Pending rs) ->
  react q r (mkSys h (P1 ++ l) J C)
  = mkSys h (P1 ++ <[k := Pending (rs ++ [r])]> l) J C.
Proof.
  intros -> Hk. unfold react. simpl. rewrite lookup_app_r by lia.
  replace (length P1 + k - length P1) with k by lia. rewrite Hk.
  rewrite insert_app_r_alt by lia. by replace (length P1 + k - length P1) with k by lia.
Qed.

Lemma alloc_mk h (P : list PromiseState) J C :
  alloc (mkSys h P J C) = (length P, mkSys h (P ++ [Pending []]) J C).
Proof. reflexivity. Qed.

(** What a call of [playAudio] does to the system, up to its [await]: it
    makes four promises and three reactions on them, and chains the body on
    the queue, where it is a job at once when the queue is settled. *)
Lemma exec_playAudio u i nm h (P : list PromiseState) J C :
  playbackQueue (manager h) < length P ->
  let op := newOp u i nm (length P) in
  exec (playAudio u i nm) (length P) (mkSys h (P ++ [Pending []]) J C)
  = match P !! playbackQueue (manager h) with
    | Some (Pending rs) =>
        mkSys (requestHeap u i nm (op_q op) h)
          (<[playbackQueue (manager h) := Pending (rs ++ [bodyR op])]> P ++ newPromises op)
          J C
    | Some (Settled o) =>
        mkSys (requestHeap u i nm (op_q op) h) (P ++ newPromises op)
          (J ++ [((bodyR op).1 o, op_t op)]) C
    | None => mkSys (requestHeap u i nm (op_q op) h) (P ++ newPromises op) J C
    end.
Proof.
  intros Hq op. unfold playAudio, enqueuePlayback.
  cbn [exec mbind prog_bind bind log call read await fst snd heap setHeap promises jobs calls].
  unfold setHeap at 1 2 3. cbn [heap promises jobs calls].
  rewrite alloc_mk. cbv beta iota.
  change (manager (emit [LogEnqueueing] (emit [LogPlayRequested i u nm] h)))
    with (manager h).
  rewrite <- app_assoc. rewrite react_old by done.
  rewrite ?length_app. cbn [length app].
  match goal with
  | |- context [match ?x with Some _ => _ | None => _ end] =>
      destruct x as [[rs|o]|] eqn:Hl
  end.
  - rewrite alloc_mk. cbv beta iota. rewrite <- !app_assoc. cbn [app].
    rewrite ?length_app, ?length_insert. cbn [length].
    erewrite (react_new _ _ 1); [|rewrite ?length_insert; lia|reflexivity].
    rewrite alloc_mk. cbv beta iota. rewrite <- !app_assoc. cbn [app list_insert insert].
    rewrite ?length_app, ?length_insert. cbn [length].
    erewrite (react_new _ _ 2); [|rewrite ?length_insert; lia|reflexivity].
    unfold setHeap. cbn [heap promises jobs calls list_insert insert].
    erewrite (react_new _ _ 2); [|rewrite ?length_insert; lia|reflexivity].
    reflexivity.
  - rewrite alloc_mk. cbv beta iota. rewrite <- !app_assoc. cbn [app].
    rewrite ?length_app, ?length_insert. cbn [length].
    erewrite (react_new _ _ 1); [|lia|reflexivity].
    rewrite alloc_mk. cbv beta iota. rewrite <- !app_assoc. cbn [app list_insert insert].
    rewrite ?length_app, ?length_insert. cbn [length].
    erewrite (react_new _ _ 2); [|lia|reflexivity].
    unfold setHeap. cbn [heap promises jobs calls list_insert insert].
    erewrite (react_new _ _ 2); [|lia|reflexivity].
    reflexivity.
  - rewrite alloc_mk. cbv beta iota. rewrite <- !app_assoc. cbn [app].
    rewrite ?length_app, ?length_insert. cbn [length].
    erewrite (react_new _ _ 1); [|lia|reflexivity].
    rewrite alloc_mk. cbv beta iota. rewrite <- !app_assoc. cbn [app list_insert insert].
    rewrite ?length_app, ?length_insert. cbn [length].
    erewrite (react_new _ _ 2); [|lia|reflexivity].
    unfold setHeap. cbn [heap promises jobs calls list_insert insert].
    erewrite (react_new _ _ 2); [|lia|reflexivity].
    reflexivity.
Qed.

Lemma waitingStore_last P ws lop :
  waitingStore P ws -> last ws = Some lop -> P !! op_q lop = Some (Pending []).
Proof.
  induction ws as [|w ws IH]; simpl; [done|]. intros (_ & _ & _ & Hq & Hw).
  destruct ws as [|w' ws']; [by intros [= <-]|]. intros Hl. by apply IH.
Qed.

(** The store after a play request, as the invariant needs it. *)
Lemma newstore_facts (P P1 : list PromiseState) (op : Op) u i nm :
  op = newOp u i nm (length P) -> length P1 = length P ->
  let P' := P1 ++ newPromises op in
  length P' = length P + 4
  /\ P' !! op_pa op = Some (Pending [])
  /\ P' !! op_t op = Some (Pending [catchR op])
  /\ P' !! op_c op = Some (Pending [doneR op; awaitR op])
  /\ P' !! op_q op = Some (Pending [])
  /\ (forall x, x < length P -> P' !! x = P1 !! x).
Proof.
  intros -> Hlen P'. subst P'. rewrite length_app. simpl. rewrite Hlen.
  split; [done|]. unfold newOp at 1 3 5 7. simpl.
  rewrite <- Hlen.
  split; [by rewrite <- (Nat.add_0_r (length P1)), lookup_app_r, Nat.add_0_r, Nat.sub_diag by lia|].
  split; [rewrite lookup_app_r by lia; by replace (length P1 + 1 - length P1) with 1 by lia|].
  split; [rewrite lookup_app_r by lia; by replace (length P1 + 2 - length P1) with 2 by lia|].
  split; [rewrite lookup_app_r by lia; by replace (length P1 + 3 - length P1) with 3 by lia|].
  intros x Hx. by rewrite lookup_app_l.
Qed.

Lemma op_q_in_ids (ws : list Op) (lop : Op) :
  last ws = Some lop -> op_q lop ∈ concat (map opIds ws).
Proof.
  intros (l' & ->)%last_Some. rewrite map_app, concat_app. simpl.
  apply elem_of_app. right.
  rewrite !elem_of_cons. tauto.
Qed.

(** The promises a new operation owns are new. *)
Lemma newOp_ids u i nm n :
  opIds (newOp u i nm n) = [n + 1; n + 2; n + 3; n] /\ NoDup (opIds (newOp u i nm n)).
Proof.
  split; [done|]. unfold opIds, newOp. simpl.
  repeat (apply NoDup_cons; split; [rewrite ?elem_of_cons, elem_of_nil; lia|]).
  apply NoDup_nil_2.
Qed.

Lemma opIds_distinct (w : Op) :
  NoDup (opIds w) -> op_t w <> op_q w /\ op_c w <> op_q w /\ op_pa w <> op_q w.
Proof.
  unfold opIds. rewrite !NoDup_cons, !not_elem_of_cons. intuition congruence.
Qed.

Lemma waitingStore_snoc P P' ws lop op :
  waitingStore P ws -> last ws = Some lop ->
  NoDup (concat (map opIds ws)) ->
  (forall x, x ∈ concat (map opIds ws) -> x <> op_q lop -> P' !! x = P !! x) ->
  P' !! op_q lop = Some (Pending [bodyR op]) ->
  waitingStore P' [op] ->
  waitingStore P' (ws ++ [op]).
Proof.
  intros Hw Hl Hnd Hag Hq Hop. induction ws as [|w ws IH]; [done|].
  destruct Hw as (Wt & Wc & Wpa & Wq & Hw).
  change (concat (map opIds (w :: ws))) with (opIds w ++ concat (map opIds ws)) in *.
  apply NoDup_app in Hnd as (Hndw & Hdisj & Hnd).
  assert (op_t w ∈ opIds w /\ op_c w ∈ opIds w /\ op_pa w ∈ opIds w /\ op_q w ∈ opIds w)
    as (It & Ic & Ipa & Iq).
  { unfold opIds. rewrite !elem_of_cons. tauto. }
  destruct ws as [|w' ws'].
  - injection Hl as <-. destruct (opIds_distinct _ Hndw) as (Nt & Nc & Npa).
    destruct Hop as (Ot & Oc & Opa & Oq & _).
    cbn [app waitingStore nextReactions].
    rewrite (Hag (op_t w)), (Hag (op_c w)), (Hag (op_pa w)), Wt, Wc, Wpa, Hq;
      try (apply elem_of_app; by left); done.
  - rewrite last_cons_cons in Hl.
    pose proof (op_q_in_ids _ _ Hl) as Hin.
    assert (forall x, x ∈ opIds w -> x <> op_q lop) as Hne.
    { intros x Hx ->. by apply (Hdisj (op_q lop)). }
    change ((w :: w' :: ws') ++ [op]) with (w :: ((w' :: ws') ++ [op])).
    cbn [waitingStore].
    rewrite (Hag (op_t w)), (Hag (op_c w)), (Hag (op_pa w)), (Hag (op_q w));
      try (apply elem_of_app; by left); try (by apply Hne).
    split; [done|]. split; [done|]. split; [done|]. split; [exact Wq|].
    apply IH; try done. intros x Hx Hxq. apply Hag; [|done]. apply elem_of_app. by right.
Qed.

Lemma targets_in_range reqs m s dreqs done act waiting jb cb x :
  FifoInv reqs m s dreqs done act waiting jb cb ->
  x ∈ targets s -> x < length (promises s).
Proof.
  intros Hinv Hx.
  destruct (target_role _ _ _ _ _ _ _ _ _ _ Hinv Hx)
    as (L & [(op & ph & -> & -> & _) | (_ & _ & HP)]).
  - apply (fi_range _ _ _ _ _ _ _ _ _ Hinv). apply elem_of_app. left.
    destruct ph; simpl; unfold opIds; rewrite !elem_of_cons; tauto.
  - by apply lookup_lt_Some in HP.
Qed.
(** A role survives a play request. *)
Lemma role_grow act act' owned owned' (P P' : list PromiseState) q0 t L :
  Role act owned P t L ->
  (forall op ph, act = Some (op, ph) -> act' = Some (op, ph)) ->
  (forall x, x ∈ owned' -> x ∈ owned \/ length P <= x) ->
  (forall x, x < length P -> x <> q0 -> P' !! x = P !! x) ->
  (q0 ∈ owned \/ P' !! q0 = P !! q0) ->
  Role act' owned' P' t L.
Proof.
  intros [(op & ph & Ha & Ht & HL) | (-> & Ho & HP)] Hact Hown Hag Hq.
  { left. exists op, ph. split; [by apply Hact | done]. }
  right. pose proof (lookup_lt_Some _ _ _ HP) as Hlt.
  split; [done|]. split.
  - intros [Hin | Hge]%Hown; [done | lia].
  - destruct (decide (t = q0)) as [-> | Hne]; [|by rewrite Hag].
    destruct Hq as [Hq | Hq]; [done | by rewrite Hq].
Qed.

Lemma jobs_grow act act' owned owned' (P P' : list PromiseState) q0 (J : list Job) jb :
  Forall2 (JobGood act owned P) J jb ->
  (forall op ph, act = Some (op, ph) -> act' = Some (op, ph)) ->
  (forall x, x ∈ owned' -> x ∈ owned \/ length P <= x) ->
  (forall x, x < length P -> x <> q0 -> P' !! x = P !! x) ->
  (q0 ∈ owned \/ P' !! q0 = P !! q0) ->
  Forall2 (JobGood act' owned' P') J jb.
Proof.
  intros HJ Hact Hown Hag Hq. eapply Forall2_impl; [exact HJ|].
  intros j n (L & Hr & Hc). exists L. split; [|done]. by eapply role_grow.
Qed.

Lemma calls_grow act act' owned owned' (P P' : list PromiseState) q0 (C : list PendingCall) cb :
  Forall2 (CallGood act owned P) C cb ->
  (forall op ph, act = Some (op, ph) -> act' = Some (op, ph)) ->
  (forall x, x ∈ owned' -> x ∈ owned \/ length P <= x) ->
  (forall x, x < length P -> x <> q0 -> P' !! x = P !! x) ->
  (q0 ∈ owned \/ P' !! q0 = P !! q0) ->
  Forall2 (CallGood act' owned' P') C cb.
Proof.
  intros HC Hact Hown Hag Hq. eapply Forall2_impl; [exact HC|].
  intros j n (L & Hr & Hc). exists L. split; [|done]. by eapply role_grow.
Qed.

Lemma queued_request u i nm q h :
  queued (trace (requestHeap u i nm q h)) = queued (trace h).
Proof. simpl. rewrite !queued_app. simpl. by rewrite !app_nil_r. Qed.

(** A play request while no operation is pending: the new operation is in
    progress at once, its body a job. *)
Lemma fifo_play_idle reqs m h P J C dreqs done jb cb u i nm :
  FifoInv reqs m (mkSys h P J C) dreqs done None [] jb cb ->
  let op := newOp u i nm (length P) in
  Reach (reqs ++ [(u, i, nm)]) (m + opCost)
    (mkSys (requestHeap u i nm (op_q op) h) (P ++ newPromises op)
       (J ++ [((bodyR op).1 Fulfilled, op_t op)]) C).
Proof.
  intros Hinv op.
  destruct (newOp_ids u i nm (length P)) as [Hids Hnd]. fold op in Hids, Hnd.
  destruct (newstore_facts P P op u i nm eq_refl eq_refl) as (Hlen & Hpa & Ht & Hc & Hq & Hold).
  assert (Htr : forall x, x ∈ targets (mkSys h P J C) -> x < length P).
  { intros x. apply (targets_in_range _ _ _ _ _ _ _ _ _ _ Hinv). }
  exists dreqs, done, (Some (op, PBody [])), [], (jb ++ [bodyBound]), cb.
  destruct Hinv as [Hses Hjobs Hcalls Htg Hown Hrange Hact Hwait Hqueue Htrace Hreqs Hdone Hm].
  simpl in Hses, Hjobs, Hcalls, Htg, Hown, Hrange, Hact, Hwait, Hqueue, Htrace, Hreqs, Hm.
  assert (Hgrow : forall x, x ∈ ownedIds (Some (op, PBody [])) [] -> x ∈ [] \/ length P <= x).
  { intros x. unfold ownedIds. rewrite app_nil_r. cbn [phaseIds]. rewrite Hids.
    rewrite !elem_of_cons, elem_of_nil. lia. }
  constructor; cbn [heap promises jobs calls].
  - done.
  - apply Forall2_app.
    + eapply (jobs_grow _ _ _ _ _ _ (length P + 4)); try done.
      * intros x Hx _. by apply Hold.
      * right. rewrite !lookup_ge_None_2; [done | lia | rewrite length_app; simpl; lia].
    + constructor; [|constructor]. exists (phaseLang op (PBody [])). split.
      * left. by exists op, (PBody []).
      * simpl. apply body_conforms.
  - eapply (calls_grow _ _ _ _ _ _ (length P + 4)); try done.
    + intros x Hx _. by apply Hold.
    + right. rewrite !lookup_ge_None_2; [done | lia | rewrite length_app; simpl; lia].
  - unfold targets in *. cbn [jobs calls] in *. rewrite map_app. simpl.
    rewrite <- app_assoc. apply NoDup_app in Htg as (H1 & H2 & H3).
    apply NoDup_app. split; [done|]. split.
    + intros x Hx [->%list_elem_of_singleton | Hx']%elem_of_app; [|by eapply H2].
      assert (op_t op < length P) by (apply Htr; apply elem_of_app; by left).
      unfold op in *. simpl in *. lia.
    + simpl. apply NoDup_cons. split; [|done]. intros Hx.
      assert (op_t op < length P) by (apply Htr; apply elem_of_app; by right).
      unfold op in *. simpl in *. lia.
  - unfold ownedIds. by rewrite app_nil_r.
  - intros t Hin. rewrite Hlen. unfold ownedIds in Hin. rewrite app_nil_r in Hin.
    cbn [phaseIds] in Hin. rewrite Hids in Hin. revert Hin.
    rewrite !elem_of_cons, elem_of_nil. lia.
  - split; [done|]. split; [done|]. unfold targets. cbn [jobs calls phaseTarget].
    rewrite map_app. simpl. apply elem_of_app. left. apply elem_of_app. right. by left.
  - done.
  - done.
  - rewrite queued_request. simpl. by rewrite Htrace.
  - rewrite app_nil_r in Hreqs. by rewrite Hreqs.
  - done.
  - rewrite sum_list_with_snoc, Hm. unfold opCost, actCost, phaseCost. cbn [length]. lia.
Qed.

Lemma ownedIds_snoc act waiting op :
  ownedIds act (waiting ++ [op]) = ownedIds act waiting ++ opIds op.
Proof.
  unfold ownedIds. rewrite map_app, concat_app. simpl. by rewrite app_assoc.
Qed.

(** The last pending operation: its last link is owned and has no reaction. *)
Lemma last_pending reqs m s dreqs done act waiting jb cb lop :
  FifoInv reqs m s dreqs done act waiting jb cb ->
  last (actOps act ++ waiting) = Some lop ->
  playbackQueue (manager (heap s)) = op_q lop
  /\ op_q lop ∈ ownedIds act waiting
  /\ promises s !! op_q lop = Some (Pending []).
Proof.
  intros Hinv Hl.
  pose proof (fi_queue _ _ _ _ _ _ _ _ _ Hinv) as Hq. rewrite Hl in Hq.
  split; [done|].
  pose proof (fi_active _ _ _ _ _ _ _ _ _ Hinv) as Ha.
  pose proof (fi_waiting _ _ _ _ _ _ _ _ _ Hinv) as Hw.
  destruct waiting as [|w ws].
  - destruct act as [[aop ph]|]; [|done]. simpl in Hl. injection Hl as <-.
    destruct Ha as (_ & [Hst _] & _). split; [|done].
    unfold ownedIds. simpl. rewrite app_nil_r.
    destruct ph; simpl; unfold opIds; rewrite !elem_of_cons; tauto.
  - rewrite last_app_cons in Hl. split.
    + apply elem_of_app. right. by apply op_q_in_ids.
    + by eapply waitingStore_last.
Qed.

(** A play request while operations are pending: the new operation waits
    on the last link of the last of them. *)
Lemma fifo_play_busy reqs m h P J C dreqs done act waiting jb cb u i nm lop :
  FifoInv reqs m (mkSys h P J C) dreqs done act waiting jb cb ->
  last (actOps act ++ waiting) = Some lop ->
  let op := newOp u i nm (length P) in
  Reach (reqs ++ [(u, i, nm)]) (m + opCost)
    (mkSys (requestHeap u i nm (op_q op) h)
       (<[op_q lop := Pending ([] ++ [bodyR op])]> P ++ newPromises op) J C).
Proof.
  intros Hinv Hl op.
  destruct (newOp_ids u i nm (length P)) as [Hids Hnd]. fold op in Hids, Hnd.
  destruct (last_pending _ _ _ _ _ _ _ _ _ _ Hinv Hl) as (_ & Hqown & Hqp).
  cbn [promises] in Hqp. pose proof (lookup_lt_Some _ _ _ Hqp) as Hqlt.
  set (P1 := <[op_q lop := Pending ([] ++ [bodyR op])]> P).
  assert (length P1 = length P) as HlenP1 by apply length_insert.
  destruct (newstore_facts P P1 op u i nm eq_refl HlenP1) as (Hlen & Hpa & Ht & Hc & Hq & Hold).
  set (P' := P1 ++ newPromises op) in *.
  assert (Hag : forall x, x < length P -> x <> op_q lop -> P' !! x = P !! x).
  { intros x Hx Hne. rewrite Hold by done. apply list_lookup_insert_ne. congruence. }
  assert (Hq' : P' !! op_q lop = Some (Pending [bodyR op])).
  { rewrite Hold by done. by apply list_lookup_insert_eq. }
  assert (Hopstore : waitingStore P' [op]) by (simpl; done).
  destruct Hinv as [Hses Hjobs Hcalls Htg Hown Hrange Hact Hwait Hqueue Htrace Hreqs Hdone Hm].
  cbn [heap promises jobs calls] in *.
  assert (Hgrow : forall x, x ∈ ownedIds act (waiting ++ [op]) ->
                            x ∈ ownedIds act waiting \/ length P <= x).
  { intros x. rewrite ownedIds_snoc, Hids. intros [H|H]%elem_of_app; [by left | right].
    revert H. rewrite !elem_of_cons, elem_of_nil. lia. }
  exists dreqs, done, act, (waiting ++ [op]), jb, cb.
  constructor; cbn [heap promises jobs calls].
  - done.
  - eapply (jobs_grow _ _ _ _ _ _ (op_q lop)); try done. by left.
  - eapply (calls_grow _ _ _ _ _ _ (op_q lop)); try done. by left.
  - done.
  - rewrite ownedIds_snoc. apply NoDup_app. split; [done|]. split; [|done].
    intros x Hx Hx'. apply Hrange in Hx. rewrite Hids in Hx'. revert Hx'.
    rewrite !elem_of_cons, elem_of_nil. lia.
  - intros t Hin. rewrite ownedIds_snoc in Hin. apply elem_of_app in Hin as [Hin|Hin].
    + apply Hrange in Hin. lia.
    + rewrite Hlen. rewrite Hids in Hin. revert Hin. rewrite !elem_of_cons, elem_of_nil. lia.
  - destruct act as [[aop ph]|]; [|by subst waiting].
    destruct Hact as (Hwf & Hst & Htgt). split; [done|]. split; [|done].
    unfold ownedIds in Hown, Hrange.
    destruct waiting as [|w ws].
    + simpl in Hl. injection Hl as <-. destruct Hst as [Hq0 Hrest].
      split; [exact Hq'|]. simpl in Hown. rewrite app_nil_r in Hown.
      destruct ph; simpl in Hown, Hrest |- *.
      * destruct Hrest as (H1 & H2 & H3). destruct (opIds_distinct _ Hown) as (N1 & N2 & N3).
        rewrite (Hag (op_t aop)), (Hag (op_c aop)), (Hag (op_pa aop)); try done;
          by eapply lookup_lt_Some.
      * destruct Hrest as (H1 & H2 & H3). destruct (opIds_distinct _ Hown) as (N1 & N2 & N3).
        rewrite (Hag (op_t aop)), (Hag (op_c aop)), (Hag (op_pa aop)); try done;
          by eapply lookup_lt_Some.
      * rewrite (Hag (op_c aop)); [done | by eapply lookup_lt_Some |].
        revert Hown. rewrite !NoDup_cons, !not_elem_of_cons. intuition congruence.
    + rewrite last_app_cons in Hl. pose proof (op_q_in_ids _ _ Hl) as Hin.
      apply NoDup_app in Hown as (_ & Hdisj & _).
      change ((w :: ws) ++ [op]) with (w :: (ws ++ [op])). cbn [nextReactions] in Hst |- *.
      eapply phaseStore_agree; [|exact Hst]. intros t Ht'. apply Hag.
      * apply Hrange. apply elem_of_app. by left.
      * intros ->. by apply (Hdisj (op_q lop)).
  - destruct waiting as [|w ws]; [done|].
    rewrite last_app_cons in Hl. unfold ownedIds in Hown, Hrange.
    apply NoDup_app in Hown as (_ & _ & Hown).
    eapply waitingStore_snoc; try done.
    intros x Hx Hne. apply Hag; [|done]. apply Hrange. apply elem_of_app. by right.
  - rewrite app_assoc, last_snoc. done.
  - rewrite queued_request. done.
  - rewrite Hreqs, app_assoc, (map_app _ _ [op]), app_assoc. done.
  - done.
  - rewrite length_app, Hm. simpl. lia.
Qed.

Lemma fifo_play reqs m s u i nm s' digest hashLen fetch :
  Reach reqs m s ->
  step digest hashLen fetch (Invoke (ReqPlay u i nm)) s = Some s' ->
  Reach (reqs ++ [(u, i, nm)]) (m + opCost) s'.
Proof.
  intros (dreqs & done & act & waiting & jb & cb & Hinv).
  destruct s as [h P J C].
  change (step digest hashLen fetch (Invoke (ReqPlay u i nm)) (mkSys h P J C))
    with (Some (exec (playAudio u i nm) (length P) (mkSys h (P ++ [Pending []]) J C))).
  intros Hs. apply (inj Some) in Hs. rewrite <- Hs. clear Hs s'.
  destruct (last (actOps act ++ waiting)) as [lop|] eqn:Hl.
  - destruct (last_pending _ _ _ _ _ _ _ _ _ _ Hinv Hl) as (Hq & Hown & HP).
    cbn [heap promises] in Hq, HP.
    rewrite exec_playAudio by (rewrite Hq; by eapply lookup_lt_Some).
    cbv zeta. rewrite Hq, HP. by eapply fifo_play_busy.
  - pose proof (fi_queue _ _ _ _ _ _ _ _ _ Hinv) as Hq. rewrite Hl in Hq.
    cbn [heap promises] in Hq.
    apply last_None in Hl. apply app_eq_nil in Hl as [Ha ->].
    destruct act as [[aop ph]|]; [done|].
    rewrite exec_playAudio by (by eapply lookup_lt_Some). cbv zeta. rewrite Hq.
    by eapply fifo_play_idle.
Qed.

(** *** A call from the interface that is not a play request *)

Lemma fifo_add_quiet reqs m h P J C dreqs done act waiting jb cb p n :
  FifoInv reqs m (mkSys h P J C) dreqs done act waiting jb cb ->
  Conforms n quietTrace p ->
  FifoInv reqs (m + jobWeight n)
    (mkSys h (P ++ [Pending []]) (J ++ [(p, length P)]) C)
    dreqs done act waiting (jb ++ [n]) cb.
Proof.
  intros Hinv Hp.
  assert (Htr : forall x, x ∈ targets (mkSys h P J C) -> x < length P).
  { intros x. apply (targets_in_range _ _ _ _ _ _ _ _ _ _ Hinv). }
  destruct Hinv as [Hses Hjobs Hcalls Htg Hown Hrange Hact Hwait Hqueue Htrace Hreqs Hdone Hm].
  cbn [heap promises jobs calls] in *.
  assert (Hag : forall x, x < length P -> (P ++ [Pending []]) !! x = P !! x).
  { intros x Hx. by apply lookup_app_l. }
  assert (Hout : (P ++ [Pending []]) !! (length P + 1) = P !! (length P + 1)).
  { rewrite !lookup_ge_None_2; [done | lia | rewrite length_app; simpl; lia]. }
  constructor; cbn [heap promises jobs calls].
  - done.
  - apply Forall2_app.
    + eapply (jobs_grow _ _ _ _ _ _ (length P + 1)); try done; eauto.
    + constructor; [|constructor]. exists quietTrace. split; [|done]. right.
      split; [done|]. split; [|apply lookup_snoc_length].
      intros Hin. apply Hrange in Hin. simpl in Hin. lia.
  - eapply (calls_grow _ _ _ _ _ _ (length P + 1)); try done; eauto.
  - unfold targets in *. cbn [jobs calls] in *. rewrite map_app. simpl.
    rewrite <- app_assoc. apply NoDup_app in Htg as (H1 & H2 & H3).
    apply NoDup_app. split; [done|]. split.
    + intros x Hx [->%list_elem_of_singleton | Hx']%elem_of_app; [|by eapply H2].
      assert (length P < length P) by (apply Htr; apply elem_of_app; by left). lia.
    + simpl. apply NoDup_cons. split; [|done]. intros Hx.
      assert (length P < length P) by (apply Htr; apply elem_of_app; by right). lia.
  - done.
  - intros t Ht. apply Hrange in Ht. rewrite length_app. simpl. lia.
  - destruct act as [[aop ph]|]; [|done]. destruct Hact as (Hwf & Hst & Htgt).
    split; [done|]. split.
    + eapply phaseStore_agree; [|exact Hst]. intros t Ht. apply Hag, Hrange.
      apply elem_of_app. by left.
    + unfold targets in *. cbn [jobs calls] in *. rewrite map_app.
      apply elem_of_app in Htgt as [H|H]; apply elem_of_app; [left | by right].
      apply elem_of_app. by left.
  - eapply waitingStore_agree; [|exact Hwait]. intros t Ht. apply Hag, Hrange.
    apply elem_of_app. by right.
  - destruct (last (actOps act ++ waiting)); [done|].
    rewrite Hag; [done | by eapply lookup_lt_Some].
  - done.
  - done.
  - done.
  - rewrite sum_list_with_snoc. lia.
Qed.

(** What the interface may call, other than [playAudio], is outside the
    queue. *)
Lemma request_quiet r :
  (forall u i nm, r <> ReqPlay u i nm) -> Conforms 10 quietTrace (requestBody r).
Proof.
  intros Hr. destruct r as [u i nm| | |l|l].
  - by destruct (Hr u i nm).
  - apply stopAudio_conforms.
  - apply cleanupPlayback_conforms.
  - apply (conforms_call 9 quietTrace (subscribe l) Ret); [apply subscribe_quiet | reflexivity].
  - apply (conforms_call 9 quietTrace (unsubscribe l) Ret);
      [apply unsubscribe_quiet | reflexivity].
Qed.

Lemma fifo_invoke_quiet reqs m s r s' digest hashLen fetch :
  Reach reqs m s -> (forall u i nm, r <> ReqPlay u i nm) ->
  step digest hashLen fetch (Invoke r) s = Some s' ->
  exists m', Reach reqs m' s'.
Proof.
  intros (dreqs & done & act & waiting & jb & cb & Hinv) Hr.
  destruct s as [h P J C].
  change (step digest hashLen fetch (Invoke r) (mkSys h P J C))
    with (Some (exec (requestBody r) (length P) (mkSys h (P ++ [Pending []]) J C))).
  intros Hs. apply (inj Some) in Hs. rewrite <- Hs. clear Hs s'.
  pose proof (fifo_add_quiet _ _ _ _ _ _ _ _ _ _ _ _ _ _ Hinv (request_quiet r Hr)) as Hinv'.
  destruct (fifo_runjob reqs _ _ (length J) (exec (requestBody r) (length P)
              (mkSys h (P ++ [Pending []]) J C)) digest hashLen fetch
              (ex_intro _ _ (ex_intro _ _ (ex_intro _ _ (ex_intro _ _
                 (ex_intro _ _ (ex_intro _ _ Hinv'))))))) as (m' & Hm' & _).
  - cbn [step jobs heap promises calls]. rewrite lookup_snoc_length.
    by rewrite delete_snoc_length.
  - by exists m'.
Qed.

(** Every step of the scheduler keeps the invariant; a step that is not a
    call from the interface takes the measure down. *)
Lemma step_preserves reqs m s c s' digest hashLen fetch :
  Reach reqs m s -> step digest hashLen fetch c s = Some s' ->
  exists m', Reach (reqs ++ plays [c]) m' s' /\ (isInvoke c = false -> m' < m).
Proof.
  intros Hinv Hstep. destruct c as [r|j|j res|j].
  - destruct r as [u i nm| | |l|l];
      [exists (m + opCost); split; [by eapply fifo_play | done] | ..];
      (edestruct fifo_invoke_quiet as (m' & Hm'); [exact Hinv | | exact Hstep | ];
       [done | exists m'; simpl; rewrite app_nil_r; by split]).
  - destruct (fifo_runjob _ _ _ _ _ _ _ _ Hinv Hstep) as (m' & H1 & H2).
    exists m'. simpl. by rewrite app_nil_r.
  - destruct (fifo_script_returns _ _ _ _ _ _ _ _ _ Hinv Hstep) as (m' & H1 & H2).
    exists m'. simpl. by rewrite app_nil_r.
  - destruct (fifo_download_returns _ _ _ _ _ _ _ _ Hinv Hstep) as (m' & H1 & H2).
    exists m'. simpl. by rewrite app_nil_r.
Qed.

Lemma plays_cons c sch : plays (c :: sch) = plays [c] ++ plays sch.
Proof. unfold plays. simpl. by destruct c as [[]| | |]. Qed.

Lemma run_preserves reqs m s sch s' digest hashLen fetch :
  Reach reqs m s -> run digest hashLen fetch sch s = Some s' ->
  exists m', Reach (reqs ++ plays sch) m' s'.
Proof.
  revert reqs m s. induction sch as [|c sch IH]; intros reqs m s Hinv; cbn [run].
  - intros [= <-]. exists m. simpl. by rewrite app_nil_r.
  - destruct (step digest hashLen fetch c s) as [s1|] eqn:Hstep; [|done]. intros Hrun.
    destruct (step_preserves _ _ _ _ _ _ _ _ Hinv Hstep) as (m1 & Hinv1 & _).
    destruct (IH _ _ _ Hinv1 Hrun) as (m' & Hinv').
    exists m'. by rewrite plays_cons, app_assoc.
Qed.

Lemma reach_initial d : Reach [] 0 (initial d).
Proof.
  exists [], [], None, [], [], []. constructor; simpl; try done; try by constructor.
  intros t Ht. by apply elem_of_nil in Ht.
Qed.

(** *** What the invariant says of the trace *)







(** *** Progress *)





(** *** The claims on the playback coordinator *)

Section Claims.

Variable digest : string -> N.
Variable hashLen : nat.
Variable fetch : string -> FetchResult.

Lemma reach_run d sch s :
  run digest hashLen fetch sch (initial d) = Some s -> exists m, Reach (plays sch) m s.
Proof. intros Hrun. apply (run_preserves [] 0 _ _ _ _ _ _ (reach_initial d) Hrun). Qed.


(** C2.  In every state the system can reach, so at every point where an
    operation has completed, the manager records a temp file exactly when
    it records a sample; there is one manager, with one such pair. *)
Theorem session_is_consistent d sch s :
  run digest hashLen fetch sch (initial d) = Some s ->
  (tempPath (manager (heap s)) <> None <-> sampleId (manager (heap s)) <> None)
  /\ sessionInv (manager (heap s)).
Proof.
  intros [m (dreqs & done & act & waiting & jb & cb & Hinv)]%reach_run.
  pose proof (fi_session _ _ _ _ _ _ _ _ _ Hinv) as Hs. split; [|done].
  destruct Hs as [[H1 H2] _]. split; intros H Hn; apply H; auto.
Qed.

Lemma settle_fresh o h (P : list PromiseState) J C :
  settle (length P) o (mkSys h (P ++ [Pending []]) J C) = mkSys h (P ++ [Settled o]) J C.
Proof.
  unfold settle. simpl. rewrite lookup_snoc_length, insert_snoc_length. simpl.
  by rewrite app_nil_r.
Qed.

Lemma scriptsInvoked_app tr1 tr2 :
  scriptsInvoked (tr1 ++ tr2) = scriptsInvoked tr1 ++ scriptsInvoked tr2.
Proof. apply omap_app. Qed.



(** C5.  With nothing playing, a stop request writes one line to the log
    and returns fulfilled: no command for the bridge, no job, no call, the
    manager as it was.  So of two stop requests in a row, the second made
    when the first has completed, the second hands the bridge nothing: the
    first one's [cleanup] has left no sample. *)
Theorem stop_when_idle_is_a_no_op s s' :
  (truthyStr (sampleId (manager (heap s))) = false ->
   step digest hashLen fetch (Invoke ReqStop) s = Some s' ->
   s' = mkSys (emit [LogNothingPlaying] (heap s))
              (promises s ++ [Settled Fulfilled]) (jobs s) (calls s))
  /\ (forall answer s1,
        run digest hashLen fetch (stopToTheEnd s answer) s = Some s1 ->
        step digest hashLen fetch (Invoke ReqStop) s1 = Some s' ->
        scriptsInvoked (trace (heap s1))
          = scriptsInvoked (trace (heap s)) ++ [closeFrontDocument]
        /\ promises s1 = promises s ++ [Settled Fulfilled]
        /\ s' = mkSys (emit [LogNothingPlaying] (heap s1))
                      (promises s1 ++ [Settled Fulfilled]) (jobs s1) (calls s1)).
Proof.
  destruct s as [h P J C]. cbn [heap promises jobs calls stopToTheEnd].
  assert (Hidle : forall h (P : list PromiseState) J C,
            truthyStr (sampleId (manager h)) = false ->
            exec stopAudio (length P) (mkSys h (P ++ [Pending []]) J C)
            = mkSys (emit [LogNothingPlaying] h) (P ++ [Settled Fulfilled]) J C).
  { clear. intros h P J C Hi. unfold stopAudio. cbn -[settle emit truthyStr].
    unfold getCurrentSampleId. rewrite Hi. cbn -[settle emit truthyStr].
    unfold setHeap. cbn [heap promises jobs calls]. apply settle_fresh. }
  assert (Hstep : forall h (P : list PromiseState) J C,
            step digest hashLen fetch (Invoke ReqStop) (mkSys h P J C)
            = Some (exec stopAudio (length P) (mkSys h (P ++ [Pending []]) J C)))
    by reflexivity.
  split.
  - intros Hi. rewrite Hstep, Hidle by done. by intros [= <-].
  - intros answer s1 Hrun Hstop. revert Hrun.
    unfold stopToTheEnd. cbn [run calls jobs]. rewrite Hstep.
    destruct (truthyStr (sampleId (manager h))) eqn:Hi.
    + unfold stopAudio. cbn -[settle emit truthyStr cleanup].
      unfold getCurrentSampleId. rewrite Hi. cbn -[settle emit truthyStr cleanup].
      rewrite lookup_snoc_length, delete_snoc_length.
      cbn -[settle emit truthyStr cleanup].
      rewrite lookup_snoc_length, delete_snoc_length.
      set (h1 := emit [Invoked closeFrontDocument] _).
      assert (exists h2 evs, trace h2 = trace h1 ++ evs /\ scriptsInvoked evs = []
                /\ truthyStr (sampleId (manager h2)) = false
                /\ exec
       (tryFinally
          (tryCatch
             (bind
                match answer with
                | inl e => Throw e
                | inr out => Ret out
                end (fun _ : string => log LogPlayerStopped))
             (fun error : Error => log (LogStopFailed (errorMessage error))))
          (Act (fun h0 : Heap => (tt, cleanup h0))
             (fun _ : unit =>
                log (LogStopCompleted (default "" (sampleId (manager h)))))))
       (length P) (mkSys h1 (P ++ [Pending []]) J C)
                 = mkSys h2 (P ++ [Settled Fulfilled]) J C) as (h2 & evs & Htr & Hevs & Hi2 & ->).
      { destruct answer as [e|out]; cbn -[settle emit truthyStr cleanup];
          unfold setHeap; cbn [heap promises jobs calls]; rewrite settle_fresh;
          match goal with
          | |- context [cleanup ?x] => destruct (cleanup_trace x) as (evs & Hevs1 & Hevs2)
          end.
        all: eexists _, ([_] ++ evs ++ [_]); split; [|split; [|split]];
          [ | | | reflexivity];
          [cbn [emit trace]; rewrite Hevs1; cbn [emit trace];
           rewrite <- !app_assoc; reflexivity
          | by rewrite !scriptsInvoked_app, Hevs2
          | reflexivity]. }
      intros [= <-]. rewrite Hstep, Hidle in Hstop by done.
      injection Hstop as <-. cbn [heap promises jobs calls]. split; [|done].
      rewrite Htr. subst h1. cbn [emit trace].
      rewrite !scriptsInvoked_app, Hevs. simpl. by rewrite !app_nil_r.
    + rewrite Hidle by done. cbn [step calls]. rewrite lookup_ge_None_2 by done. done.
Qed.

End Claims.

(** What a run of a schedule ends in, read through [f]. *)
Ltac observe r f H :=
  let v := eval vm_compute in (option_map f r) in
  assert (H : option_map f r = v) by (vm_compute; reflexivity).

Lemma quiescent_lengths s : length (jobs s) = 0 -> length (calls s) = 0 -> quiescent s.
Proof. intros HJ HC. split; by apply length_zero_iff_nil. Qed.



Lemma session_is_consistent_witness :
  exists s,
    run lengthDigest 8 okFetch playToTheEnd (initial emptyDisk) = Some s
    /\ sampleId (manager (heap s)) = Some "s1"
    /\ (tempPath (manager (heap s)) <> None <-> sampleId (manager (heap s)) <> None).
Proof.
  observe (run lengthDigest 8 okFetch playToTheEnd (initial emptyDisk))
          (fun s => sampleId (manager (heap s))) Hc.
  destruct (run lengthDigest 8 okFetch playToTheEnd (initial emptyDisk)) as [s|] eqn:Hrun;
    [|discriminate Hc].
  injection Hc as Hid. exists s. split; [reflexivity|]. split; [exact Hid|].
  apply (session_is_consistent lengthDigest 8 okFetch emptyDisk playToTheEnd s Hrun).
Defined.

(** C3.  A play request whose download fails: the state is reset and the
    error is logged, and the operation the queue ran is rejected with it
    (promise 2); but the promise [playAudio] answers (promise 1) is
    fulfilled, for it awaits the promise that comes after the queue's
    [catch].  The caller sees no error. *)
Theorem playAudio_swallows_the_error :
  exists s,
    run lengthDigest 8 flakyFetch failedPlay (initial emptyDisk) = Some s
    /\ quiescent s
    /\ sampleId (manager (heap s)) = None
    /\ tempPath (manager (heap s)) = None
    /\ LogPlaybackFailed "s1" "connection reset" ∈ trace (heap s)
    /\ promises s !! 2 = Some (Settled (Rejected (DownloadError None "connection reset")))
    /\ promises s !! 1 = Some (Settled Fulfilled).
Proof.
  observe (run lengthDigest 8 flakyFetch failedPlay (initial emptyDisk))
          (fun s => (length (jobs s), length (calls s), manager (heap s),
                     trace (heap s), promises s)) Hc.
  destruct (run lengthDigest 8 flakyFetch failedPlay (initial emptyDisk)) as [s|] eqn:Hrun;
    [|discriminate Hc].
  injection Hc as HJ HC Hm Htr HP. exists s. split; [reflexivity|].
  split; [by apply quiescent_lengths|]. rewrite Hm, Htr, HP.
  split; [reflexivity|]. split; [reflexivity|]. split; [|by split].
  rewrite !elem_of_cons. tauto.
Qed.



Lemma stop_when_idle_is_a_no_op_witness :
  step lengthDigest 8 okFetch (Invoke ReqStop) (initial emptyDisk)
  = Some (mkSys (emit [LogNothingPlaying] (heap (initial emptyDisk)))
                [Settled Fulfilled; Settled Fulfilled] [] []).
Proof.
  pose proof (stop_when_idle_is_a_no_op lengthDigest 8 okFetch (initial emptyDisk)) as H.
  destruct (step lengthDigest 8 okFetch (Invoke ReqStop) (initial emptyDisk)) as [s'|] eqn:Hs;
    [|done].
  destruct (H s') as [H1 _]. by rewrite (H1 eq_refl eq_refl).
Defined.

End AudioFacts.

(** * Further properties of the code *)

(** ** lib/storage.ts: what is written is read back *)

Module StorageLaws.

Import Storage Soundraw.

(** The object [saveSoundrawConfig] stores. *)
Local Abbreviation configOf token apiBaseUrl createdAt :=
  (JObject [("token", JString token); ("apiBaseUrl", JString apiBaseUrl);
            ("createdAt", JString createdAt)]).

Section Parser.

Variable JSON_parse : string -> option Json.
Variable JSON_stringify : Json -> string.

Lemma readState_written (next : StoredState) (storage : gmap string string) :
  JSON_parse (JSON_stringify (stateToJson next)) = Some (stateToJson next) ->
  JSON_stringify (stateToJson next) <> "" ->
  readState JSON_parse (writeState JSON_stringify next storage) = next.
Proof.
  intros Hrt Hne. unfold readState, writeState. rewrite lookup_insert_eq.
  destruct (String.eqb_spec (JSON_stringify (stateToJson next)) "") as [He|_]; [done|].
  rewrite Hrt. by destruct next as [[v|]].
Qed.

Lemma saved_config_read (token apiBaseUrl createdAt : string)
    (storage : gmap string string) :
  let state := JObject [("soundrawConfig", configOf token apiBaseUrl createdAt)] in
  let storage' := saveSoundrawConfig JSON_stringify token apiBaseUrl createdAt storage in
  JSON_parse (JSON_stringify state) = Some state ->
  JSON_stringify state <> "" ->
  getSoundrawToken JSON_parse storage' = Some (JString token)
  /\ getSoundrawApiBaseUrl JSON_parse storage' = Some (JString apiBaseUrl).
Proof.
  intros state storage' Hrt Hne.
  assert (readState JSON_parse storage'
          = mkStored (Some (configOf token apiBaseUrl createdAt))) as Hr.
  { by apply readState_written. }
  unfold getSoundrawToken, getSoundrawApiBaseUrl, getSoundrawConfig. by rewrite Hr.
Qed.

(** X1.  Saving then reading.  Where the platform's parser reads back the
    text its printer makes of the state, the credentials saved are the ones
    read, whatever was stored before, a text that is not JSON included; the
    other keys of the store are left alone. *)
Theorem saved_config_is_read_back (token apiBaseUrl createdAt : string)
    (storage : gmap string string) :
  let state := JObject [("soundrawConfig", configOf token apiBaseUrl createdAt)] in
  let storage' := saveSoundrawConfig JSON_stringify token apiBaseUrl createdAt storage in
  JSON_parse (JSON_stringify state) = Some state ->
  JSON_stringify state <> "" ->
  getSoundrawConfig JSON_parse storage' = Some (configOf token apiBaseUrl createdAt)
  /\ getSoundrawToken JSON_parse storage' = Some (JString token)
  /\ getSoundrawApiBaseUrl JSON_parse storage' = Some (JString apiBaseUrl)
  /\ (forall k, k <> STORAGE_KEY -> storage' !! k = storage !! k).
Proof.
  intros state storage' Hrt Hne.
  assert (readState JSON_parse storage'
          = mkStored (Some (configOf token apiBaseUrl createdAt))) as Hr.
  { by apply readState_written. }
  unfold getSoundrawToken, getSoundrawApiBaseUrl, getSoundrawConfig. rewrite Hr.
  split; [done|]. split; [done|]. split; [done|].
  intros k Hk. subst storage'. unfold saveSoundrawConfig, writeState.
  by rewrite lookup_insert_ne.
Qed.

Section Client.

Variable fetch : ApiRequest -> ApiFetchResult.
Variable urlencode : string -> string.

(** X2.  Deleting then calling.  Where the parser reads back the printer's
    text of the empty object, after [deleteSoundrawConfig] no configuration
    is read, whatever was stored before, and the client refuses every
    request without sending it. *)
Theorem deleted_config_is_gone (sent0 : list ApiRequest) (storage : gmap string string) :
  JSON_parse (JSON_stringify (JObject [])) = Some (JObject []) ->
  let storage' := deleteSoundrawConfig JSON_stringify storage in
  let h := mkHost storage' sent0 in
  getSoundrawConfig JSON_parse storage' = None
  /\ getSoundrawToken JSON_parse storage' = None
  /\ getSoundrawApiBaseUrl JSON_parse storage' = None
  /\ (forall params,
        exists e, searchSamples JSON_parse fetch urlencode params h = (inl e, h)
                  /\ isConfigurationError e)
  /\ (exists e, getAvailableGenres JSON_parse fetch h = (inl e, h)
                /\ isConfigurationError e).
Proof.
  intros Hrt storage' h.
  assert (readState JSON_parse storage' = emptyState) as Hr.
  { subst storage'. unfold deleteSoundrawConfig, readState, writeState.
    rewrite lookup_insert_eq. change (stateToJson (mkStored None)) with (JObject []).
    destruct (String.eqb _ ""); [done|]. by rewrite Hrt. }
  assert (getSoundrawToken JSON_parse storage' = None) as Ht.
  { unfold getSoundrawToken, getSoundrawConfig. by rewrite Hr. }
  split; [unfold getSoundrawConfig; by rewrite Hr|]. split; [done|].
  split; [unfold getSoundrawApiBaseUrl, getSoundrawConfig; by rewrite Hr|].
  split.
  - intros params. unfold searchSamples.
    apply SoundrawFacts.makeRequest_unconfigured. left. simpl. by rewrite Ht.
  - unfold getAvailableGenres.
    apply SoundrawFacts.makeRequest_unconfigured. left. simpl. by rewrite Ht.
Qed.

End Client.

End Parser.

Lemma saved_config_is_read_back_witness :
  getSoundrawToken exampleParse
    (saveSoundrawConfig exampleStringify "t0k3n" "https://api" "2025-01-01T00:00:00.000Z"
       {[ STORAGE_KEY := "{not json" ]})
  = Some (JString "t0k3n").
Proof.
  apply (saved_config_is_read_back exampleParse exampleStringify
           "t0k3n" "https://api" "2025-01-01T00:00:00.000Z" {[ STORAGE_KEY := "{not json" ]});
    [reflexivity | discriminate].
Defined.

Lemma deleted_config_is_gone_witness :
  getSoundrawConfig exampleParse
    (deleteSoundrawConfig exampleStringify
       (saveSoundrawConfig exampleStringify "t0k3n" "https://api" "2025-01-01T00:00:00.000Z" ∅))
  = None.
Proof.
  apply (deleted_config_is_gone exampleParse exampleStringify okNetwork (fun s => s) []).
  reflexivity.
Defined.

End StorageLaws.

(** ** lib/soundraw.ts: what the client sends and how it fails *)

Module SoundrawLaws.

Import Storage Soundraw.

Section Client.

Variable JSON_parse : string -> option Json.
Variable fetch : ApiRequest -> ApiFetchResult.
Variable urlencode : string -> string.

Lemma mergeHeaders_nil (defaults : list (string * string)) :
  mergeHeaders defaults [] = defaults.
Proof.
  unfold mergeHeaders. rewrite app_nil_r. induction defaults as [|kv l IH]; [done|].
  rewrite filter_cons_True; [by rewrite IH|].
  apply bool_decide_pack. simpl. apply not_elem_of_nil.
Qed.

Lemma makeRequest_configured endpoint (h : Host) :
  truthy (getSoundrawToken JSON_parse (storage h)) = true ->
  truthy (getSoundrawApiBaseUrl JSON_parse (storage h)) = true ->
  let request :=
    mkApiRequest (toStr (getSoundrawApiBaseUrl JSON_parse (storage h)) +:+ endpoint)
                 (sentHeaders (getSoundrawToken JSON_parse (storage h))) in
  (makeRequest JSON_parse fetch endpoint [] h).2
  = mkHost (storage h) (sent h ++ [request]).
Proof.
  intros Ht Hu request. unfold makeRequest. rewrite Ht, Hu, mergeHeaders_nil.
  cbn [negb]. fold (sentHeaders (getSoundrawToken JSON_parse (storage h))).
  fold request. destruct (fetch request) as [m|r]; [done|].
  destruct (api_ok r); simpl; [|done]. by destruct (api_json r).
Qed.




Lemma makeRequest_storage endpoint headers (h h' : Host) (r : Error + Json) :
  makeRequest JSON_parse fetch endpoint headers h = (r, h') -> storage h' = storage h.
Proof.
  unfold makeRequest.
  destruct (truthy (getSoundrawToken JSON_parse (storage h))); simpl; [|by intros [= <- <-]].
  destruct (truthy (getSoundrawApiBaseUrl JSON_parse (storage h))); simpl;
    [|by intros [= <- <-]].
  match goal with |- context [fetch ?x] => destruct (fetch x) as [m|a] end;
    [by intros [= <- <-]|].
  destruct (api_ok a); simpl; [|by intros [= <- <-]].
  destruct (api_json a); by intros [= <- <-].
Qed.



End Client.



End SoundrawLaws.

(** ** lib/audio.ts: the listeners of the playback manager *)

Module AudioLaws.

Import Audio AudioSpec.

Lemma notifications_app tr1 tr2 :
  notifications (tr1 ++ tr2) = notifications tr1 ++ notifications tr2.
Proof. apply omap_app. Qed.

Lemma notifications_notified (ls : list nat) (v : option string) :
  notifications (map (fun l => Notified l v) ls) = map (fun l => (l, v)) ls.
Proof. induction ls as [|l ls IH]; [done|]. simpl. by rewrite <- IH. Qed.

Lemma cleanup_notifications h :
  notifications (trace (cleanup h))
  = notifications (trace h) ++ map (fun l => (l, None)) (listeners (manager h)).
Proof.
  unfold cleanup, notifyListeners, emit, setManager. simpl.
  destruct (truthyStr (tempPath (manager h))); simpl.
  - destruct (existsSync _ _); simpl; destruct (truthyStr (sampleId (manager h))); simpl;
      rewrite !notifications_app, notifications_notified; simpl; by rewrite ?app_nil_r.
  - destruct (truthyStr (sampleId (manager h))); simpl;
      rewrite !notifications_app, notifications_notified; simpl; by rewrite ?app_nil_r.
Qed.

Lemma setPlayingState_notifications (id path : option string) (h : Heap) :
  notifications (trace (setPlayingState id path h))
  = notifications (trace h) ++ map (fun l => (l, id)) (listeners (manager h)).
Proof.
  unfold setPlayingState, notifyListeners, emit, setManager. simpl.
  destruct (bool_decide (id <> None)); [|destruct (bool_decide _)]; simpl;
    rewrite !notifications_app, notifications_notified; simpl; by rewrite ?app_nil_r.
Qed.

(** X5.  Every change of the state is told to every listener.
     [setPlayingState] calls each listener of the set once, in the order of
    subscription, with the new sample id; [cleanup] calls each with [null];
    [destroy] calls each with [null] and then empties the set. *)
Theorem state_changes_reach_the_listeners (id path : option string) (h : Heap) :
  notifications (trace (setPlayingState id path h))
  = notifications (trace h) ++ map (fun l => (l, id)) (listeners (manager h))
  /\ notifications (trace (cleanup h))
     = notifications (trace h) ++ map (fun l => (l, None)) (listeners (manager h))
  /\ notifications (trace (destroy h))
     = notifications (trace h) ++ map (fun l => (l, None)) (listeners (manager h))
  /\ listeners (manager (destroy h)) = [].
Proof.
  split; [apply setPlayingState_notifications|].
  split; [apply cleanup_notifications|]. split; [|done].
  - change (trace (destroy h))
      with (trace (cleanup (emit [LogDestroying (length (listeners (manager h)))] h))).
    rewrite cleanup_notifications. simpl. rewrite notifications_app. simpl.
    by rewrite app_nil_r.
Qed.

Lemma filter_other (l : nat) (ls : list nat) :
  l ∉ ls -> List.filter (fun l' => negb (Nat.eqb l' l)) ls = ls.
Proof.
  induction ls as [|x ls IH]; [done|]. intros [Hx Hl]%not_elem_of_cons. simpl.
  destruct (Nat.eqb_spec x l) as [->|_]; [done|]. simpl. by rewrite IH.
Qed.

Lemma elem_of_list_filter (f : nat -> bool) (ls : list nat) (x : nat) :
  x ∈ List.filter f ls -> x ∈ ls.
Proof.
  induction ls as [|y ls IH]; simpl; [done|].
  destruct (f y); [|by right; apply IH].
  intros [->|H]%elem_of_cons; [by left | by right; apply IH].
Qed.

Lemma NoDup_list_filter (f : nat -> bool) (ls : list nat) :
  NoDup ls -> NoDup (List.filter f ls).
Proof.
  induction 1 as [|x ls Hx _ IH]; simpl; [constructor|].
  destruct (f x); [|done]. constructor; [|done].
  intros Hin. by apply Hx, (elem_of_list_filter f).
Qed.

Lemma filter_self (l : nat) (ls : list nat) :
  l ∉ List.filter (fun l' => negb (Nat.eqb l' l)) ls.
Proof.
  induction ls as [|x ls IH]; simpl; [apply not_elem_of_nil|].
  destruct (Nat.eqb_spec x l) as [->|Hne]; simpl; [done|].
  apply not_elem_of_cons. split; [congruence | done].
Qed.

(** X6.  Subscribing and unsubscribing.  [subscribe] calls the listener at
    once with the current sample id and puts it in the set, which stays free
    of duplicates; after [unsubscribe] the listener is not in the set, and
    no later change of state calls it; subscribing a listener that was not
    in the set and unsubscribing it leaves the manager as it was. *)
Theorem subscription_round_trip (l : nat) (h : Heap) :
  NoDup (listeners (manager h)) ->
  notifications (trace (subscribe l h))
  = notifications (trace h) ++ [(l, sampleId (manager h))]
  /\ l ∈ listeners (manager (subscribe l h))
  /\ NoDup (listeners (manager (subscribe l h)))
  /\ NoDup (listeners (manager (unsubscribe l h)))
  /\ (forall id path l' v,
        (l', v) ∈ notifications (trace (setPlayingState id path (unsubscribe l h)))
        -> (l', v) ∈ notifications (trace h) \/ l' <> l)
  /\ (l ∉ listeners (manager h) -> manager (unsubscribe l (subscribe l h)) = manager h).
Proof.
  intros Hnd. split; [|split; [|split; [|split; [|split]]]].
  - unfold subscribe, emit, setManager. simpl. by rewrite notifications_app.
  - unfold subscribe. simpl. destruct (bool_decide_reflect (l ∈ listeners (manager h)));
      [done | apply elem_of_app; right; by left].
  - unfold subscribe. simpl. destruct (bool_decide_reflect (l ∈ listeners (manager h)));
      [done|]. apply NoDup_app. split; [done|]. split; [|apply NoDup_singleton].
    intros x Hx ->%list_elem_of_singleton. done.
  - unfold unsubscribe. simpl. by apply NoDup_list_filter.
  - intros id path l' v.
    rewrite setPlayingState_notifications.
    intros [H|H]%elem_of_app; [by left | right].
    apply list_elem_of_fmap in H as (x & [= -> _] & Hx). intros ->.
    by apply (filter_self l (listeners (manager h))).
  - intros Hl. unfold unsubscribe, subscribe. simpl.
    rewrite bool_decide_eq_false_2 by done.
    rewrite List.filter_app. simpl. rewrite Nat.eqb_refl. simpl.
    rewrite filter_other, app_nil_r by done. by destruct (manager h).
Qed.

Lemma subscription_round_trip_witness :
  manager (unsubscribe 7 (subscribe 7 (heap (initial emptyDisk))))
  = manager (heap (initial emptyDisk)).
Proof.
  apply (subscription_round_trip 7 (heap (initial emptyDisk))).
  - apply NoDup_nil_2.
  - apply not_elem_of_nil.
Defined.

End AudioLaws.

(** ** lib/audio.ts: playing and stopping, from start to end *)

Module PlaybackLaws.

Import Audio AudioSpec.

(** X7.  The path handed to the player.  In the path [playAudio] writes into
    the AppleScript text every double quote comes after a backslash, and a
    path with no double quote is written as it is. *)
Theorem escapeQuotes_escapes (s : string) :
  (forall i, String.get i (escapeQuotes s) = Some (ascii_of_nat 34) ->
     exists j, i = S j /\ String.get j (escapeQuotes s) = Some (ascii_of_nat 92))
  /\ ((forall i, String.get i s <> Some (ascii_of_nat 34)) -> escapeQuotes s = s).
Proof.
  split.
  - induction s as [|c r IH]; intros i; [done|]. cbn [escapeQuotes].
    destruct (Ascii.eqb_spec c (ascii_of_nat 34)) as [->|Hc].
    + destruct i as [|[|i]]; [done | by exists 0 |]. intros Hi.
      destruct (IH i Hi) as (j & -> & Hj). by exists (S (S j)).
    + destruct i as [|i]; [simpl; congruence|]. intros Hi.
      destruct (IH i Hi) as (j & -> & Hj). by exists (S j).
  - induction s as [|c r IH]; intros Hq; [done|]. cbn [escapeQuotes].
    destruct (Ascii.eqb_spec c (ascii_of_nat 34)) as [->|Hc]; [by destruct (Hq 0)|].
    rewrite IH; [done|]. intros i. apply (Hq (S i)).
Qed.

Section Runs.

Variable digest : string -> N.
Variable hashLen : nat.
Variable fetch : string -> FetchResult.



End Runs.


Section Runs2.

Variable digest : string -> N.
Variable hashLen : nat.
Variable fetch : string -> FetchResult.

Lemma settle_new (P l : list PromiseState) k q o h J C :
  q = length P + k ->
  settle q o (mkSys h (P ++ l) J C)
  = match l !! k with
    | Some (Pending rs) =>
        mkSys h (P ++ <[k := Settled o]> l)
              (J ++ map (fun r : Reaction => (r.1 o, r.2)) rs) C
    | _ => mkSys h (P ++ l) J C
    end.
Proof.
  intros ->. unfold settle. cbn [promises heap jobs calls].
  rewrite lookup_app_r by lia.
  replace (length P + k - length P) with k by lia.
  destruct (l !! k) as [[rs|o']|]; try done.
  rewrite insert_app_r_alt by lia. by replace (length P + k - length P) with k by lia.
Qed.

Lemma run_cons_eq c rest s :
  run digest hashLen fetch (c :: rest) s
  = match step digest hashLen fetch c s with
    | Some s' => run digest hashLen fetch rest s'
    | None => None
    end.
Proof. reflexivity. Qed.

Ltac run_step :=
  rewrite run_cons_eq;
  match goal with
  | |- context [step ?d ?hl ?f ?c ?s] =>
      let t := eval cbv [step exec bind mbind mret prog_bind prog_ret tryCatch tryFinally
                         call read log runAppleScript Audio.getOrDownloadFile awaitCall await
                         playOperation stopAudio getCurrentSampleId truthyStr theStr default
                         thenReaction catchReaction setHeap addJob addCall emit setManager
                         setPlaybackQueue heap promises jobs calls manager disk trace
                         sampleId tempPath listeners playbackQueue fst snd
                         lookup list_lookup delete list_delete negb]
                in (step d hl f c s) in
      change (step d hl f c s) with t
  end;
  cbv beta iota; cbn [app].

Lemma first_play_runs tp ls q d tr (P : list PromiseState) u i nm out f d' :
  let h := mkHeap (mkManager None tp ls q) d tr in
  P !! q = Some (Settled Fulfilled) ->
  File.getOrDownloadFile digest hashLen fetch u "/tmp" nm d = (inr f, d') ->
  run digest hashLen fetch (playRun u i nm out) (mkSys h P [] [])
  = Some (mkSys (playingHeap u i nm (df_path f) d' (length P + 3) h)
                (P ++ [Settled Fulfilled; Settled Fulfilled; Settled Fulfilled;
                       Settled Fulfilled]) [] []).
Proof.
  intros h Hq Hdl. subst h. unfold playRun.
  rewrite run_cons_eq.
  change (step digest hashLen fetch (Invoke (ReqPlay u i nm)) (mkSys _ P [] []))
    with (Some (exec (playAudio u i nm) (length P)
                  (mkSys (mkHeap (mkManager None tp ls q) d tr) (P ++ [Pending []]) [] []))).
  rewrite AudioFacts.exec_playAudio by (by eapply lookup_lt_Some).
  cbv zeta. cbn [manager playbackQueue]. rewrite Hq. cbn [app].
  unfold bodyR, requestHeap. cbn [fst snd thenReaction op_t op_url op_id op_name op_q newOp].
  run_step. run_step. run_step. rewrite Hdl.
  run_step. run_step. run_step.
  rewrite (settle_new P _ 1) by reflexivity.
  cbn [newPromises lookup list_lookup insert list_insert map app catchR doneR awaitR fst snd
       catchReaction thenReaction op_c op_q op_pa op_t newOp].
  run_step.
  rewrite (settle_new P _ 2) by reflexivity.
  cbn [newPromises lookup list_lookup insert list_insert map app catchR doneR awaitR fst snd
       catchReaction thenReaction op_c op_q op_pa op_t newOp].
  run_step.
  rewrite (settle_new P _ 3) by reflexivity.
  cbn [newPromises lookup list_lookup insert list_insert map app catchR doneR awaitR fst snd
       catchReaction thenReaction op_c op_q op_pa op_t newOp].
  run_step.
  rewrite (settle_new P _ 0) by (cbn; lia).
  cbn [newPromises lookup list_lookup insert list_insert map app catchR doneR awaitR fst snd
       catchReaction thenReaction op_c op_q op_pa op_t newOp].
  reflexivity.
Qed.

Lemma setPlayingState_manager id path (h : Heap) :
  manager (setPlayingState id path h)
  = mkManager id path (listeners (manager h)) (playbackQueue (manager h)).
Proof.
  unfold setPlayingState. rewrite AudioFacts.notifyListeners_manager.
  destruct (bool_decide (id <> None)); [done|]. by destruct (bool_decide _).
Qed.

Lemma setPlayingState_disk id path (h : Heap) : disk (setPlayingState id path h) = disk h.
Proof.
  unfold setPlayingState, notifyListeners.
  destruct (bool_decide (id <> None)); [done|]. by destruct (bool_decide _).
Qed.

Lemma scriptsInvoked_notified (ls : list nat) (v : option string) :
  scriptsInvoked (map (fun l => Notified l v) ls) = [].
Proof. by induction ls. Qed.

Lemma setPlayingState_scripts id path (h : Heap) :
  scriptsInvoked (trace (setPlayingState id path h)) = scriptsInvoked (trace h).
Proof.
  unfold setPlayingState, notifyListeners, emit, setManager. simpl.
  destruct (bool_decide (id <> None)); [|destruct (bool_decide _)]; simpl;
    rewrite !AudioFacts.scriptsInvoked_app, scriptsInvoked_notified; simpl;
    by rewrite ?app_nil_r.
Qed.

(** X9.  A play request, from its call to its end.  On a manager with
    nothing playing and nothing else to do, a play request that runs to its
    end, the downloader answering a file and the player starting, leaves the
    sample and the file's path recorded, [isPlaying] true of the sample, and
    the system at rest with the promise of the call fulfilled and the queue
    settled; the bridge has been handed one command, to open the path with
    its quotes escaped, and every listener has been called once, with the
    sample id. *)
Theorem first_play_starts_the_player (s : Sys) (u i nm out : string)
    (f : DownloadedFile) (d' : Disk) :
  quiescent s ->
  sampleId (manager (heap s)) = None ->
  promises s !! playbackQueue (manager (heap s)) = Some (Settled Fulfilled) ->
  File.getOrDownloadFile digest hashLen fetch u "/tmp" nm (disk (heap s)) = (inr f, d') ->
  exists s1,
    run digest hashLen fetch (playRun u i nm out) s = Some s1
    /\ quiescent s1
    /\ sampleId (manager (heap s1)) = Some i
    /\ tempPath (manager (heap s1)) = Some (df_path f)
    /\ isPlaying i (heap s1) = true
    /\ listeners (manager (heap s1)) = listeners (manager (heap s))
    /\ disk (heap s1) = d'
    /\ scriptsInvoked (trace (heap s1))
       = scriptsInvoked (trace (heap s)) ++ [openAndPlay (escapeQuotes (df_path f))]
    /\ notifications (trace (heap s1))
       = notifications (trace (heap s))
         ++ map (fun l => (l, Some i)) (listeners (manager (heap s)))
    /\ promises s1 !! length (promises s) = Some (Settled Fulfilled)
    /\ promises s1 !! playbackQueue (manager (heap s1)) = Some (Settled Fulfilled).
Proof.
  destruct s as [[[sid tp ls q] d tr] P J C]. intros [HJ HC] Hid Hq Hdl.
  cbn [heap promises jobs calls manager sampleId playbackQueue disk trace listeners] in *.
  subst J C sid. eexists. split; [by apply first_play_runs|].
  cbn [heap promises jobs calls]. split; [done|].
  unfold playingHeap. cbv zeta.
  cbn [emit manager trace disk]. rewrite !setPlayingState_manager.
  cbn [emit manager trace disk setPlaybackQueue setManager sampleId tempPath listeners
       playbackQueue].
  split; [done|]. split; [done|].
  split; [unfold isPlaying, getCurrentSampleId; cbn [emit manager];
          rewrite setPlayingState_manager; by apply bool_decide_eq_true_2|].
  split; [done|]. split; [by rewrite setPlayingState_disk|].
  split.
  { rewrite !AudioFacts.scriptsInvoked_app, setPlayingState_scripts. cbn [emit trace].
    rewrite !AudioFacts.scriptsInvoked_app. simpl. by rewrite !app_nil_r. }
  split.
  { rewrite !AudioLaws.notifications_app, AudioLaws.setPlayingState_notifications.
    cbn [emit trace manager listeners]. rewrite !AudioLaws.notifications_app. simpl.
    by rewrite !app_nil_r. }
  split.
  - rewrite lookup_app_r by lia. by rewrite Nat.sub_diag.
  - rewrite lookup_app_r by lia. by replace (length P + 3 - length P) with 3 by lia.
Qed.



Lemma cleanup_disk (h : Heap) : disk (cleanup h) = withoutTemp h.
Proof.
  unfold cleanup, withoutTemp, notifyListeners, emit, setManager.
  destruct (tempPath (manager h)) as [p|] eqn:Hp; simpl.
  - destruct (String.eqb p ""); simpl.
    + by destruct (truthyStr (sampleId (manager h))).
    + unfold existsSync. simpl.
      destruct (files (disk h) !! p) as [bytes|] eqn:Hl.
      * rewrite bool_decide_eq_true_2 by eauto. simpl.
        by destruct (truthyStr (sampleId (manager h))).
      * rewrite bool_decide_eq_false_2 by (intros [? ?]; done). simpl.
        unfold unlinkSync. rewrite delete_id by done.
        destruct (truthyStr (sampleId (manager h))); simpl; by destruct (disk h).
  - by destruct (truthyStr (sampleId (manager h))).
Qed.


Lemma emit_disk evs (h : Heap) : disk (emit evs h) = disk h.
Proof. reflexivity. Qed.





Lemma stoppedHeap_disk answer (h : Heap) : disk (stoppedHeap answer h) = withoutTemp h.
Proof. unfold stoppedHeap. cbv zeta. by rewrite emit_disk, cleanup_disk. Qed.






End Runs2.

Lemma first_play_starts_the_player_witness :
  exists s1,
    run lengthDigest 8 okFetch (playRun "https://x/a.m4a" "s1" "Cool Beat!" "")
        (initial emptyDisk) = Some s1
    /\ sampleId (manager (heap s1)) = Some "s1".
Proof.
  destruct (File.getOrDownloadFile lengthDigest 8 okFetch "https://x/a.m4a" "/tmp"
              "Cool Beat!" emptyDisk) as [[e|f] d'] eqn:Hdl;
    [vm_compute in Hdl; discriminate|].
  destruct (first_play_starts_the_player lengthDigest 8 okFetch (initial emptyDisk)
              "https://x/a.m4a" "s1" "Cool Beat!" "" f d')
    as (s1 & Hrun & _ & Hid & _); [by split | reflexivity | reflexivity | exact Hdl |].
  exists s1. split; [exact Hrun | exact Hid].
Defined.


End PlaybackLaws.

(** ** The rest of lib/storage.ts and the two commands *)

Module CommandLaws.

Import Storage Soundraw Commands.

Section Platform.

Variable JSON_parse : string -> option Json.
Variable JSON_stringify : Json -> string.
Variable fetch : ApiRequest -> ApiFetchResult.
Variable urlencode : string -> string.
Variable trim : string -> string.

Lemma length_zero_empty (s : string) : String.length s = 0 <-> s = "".
Proof. by destruct s. Qed.

Lemma truthy_string (v : JsValue) (s : string) :
  v = Some (JString s) -> truthy v = true <-> s <> "".
Proof.
  intros ->. simpl. destruct (String.eqb_spec s "") as [->|Hne]; simpl; split; try done.
Qed.

(** X11.  [hasValidConfig], case by case.  It answers [true] exactly when
    the token and the base URL are stored as strings that are not empty and
    not blank, and then the client does not refuse a request; it throws,
    instead of answering [false], exactly when the two are stored and truthy
    and the token is not a string, or the token is a string that is not
    blank and the base URL is not a string. *)
Theorem hasValidConfig_cases (h : Host) :
  let token := getSoundrawToken JSON_parse (storage h) in
  let base := getSoundrawApiBaseUrl JSON_parse (storage h) in
  (hasValidConfig JSON_parse trim (storage h) = Some true
   <-> exists t u, token = Some (JString t) /\ base = Some (JString u)
                   /\ t <> "" /\ u <> "" /\ trim t <> "" /\ trim u <> "")
  /\ (hasValidConfig JSON_parse trim (storage h) = Some true ->
      (getAvailableGenres JSON_parse fetch h).2
      = mkHost (storage h)
          (sent h ++ [mkApiRequest (toStr base +:+ "/tags") (sentHeaders token)]))
  /\ (hasValidConfig JSON_parse trim (storage h) = None
      <-> truthy token = true /\ truthy base = true
          /\ ((forall t, token <> Some (JString t))
              \/ (exists t, token = Some (JString t) /\ trim t <> ""
                            /\ forall u, base <> Some (JString u)))).
Proof.
  intros token base.
  assert (Hdef : hasValidConfig JSON_parse trim (storage h)
                 = if negb (truthy token) then Some false
                   else if negb (truthy base) then Some false
                   else match trimmedLength trim token with
                        | None => None
                        | Some 0 => Some false
                        | Some (S _) =>
                            match trimmedLength trim base with
                            | None => None
                            | Some n => Some (0 <? n)%nat
                            end
                        end) by reflexivity.
  assert (Htrue : hasValidConfig JSON_parse trim (storage h) = Some true
                  -> exists t u, token = Some (JString t) /\ base = Some (JString u)
                       /\ t <> "" /\ u <> "" /\ trim t <> "" /\ trim u <> "").
  { rewrite Hdef. destruct (truthy token) eqn:Ht; [|done].
    destruct (truthy base) eqn:Hb; [|done]. simpl.
    destruct token as [[| | |t| |]|]; try done.
    destruct base as [[| | |u| |]|]; simpl; try (by destruct (String.length (trim t))).
    destruct (String.length (trim t)) eqn:Hlt; [done|].
    destruct (String.length (trim u)) eqn:Hlu; [done|]. intros _.
    exists t, u. split; [done|]. split; [done|].
    split; [by apply (truthy_string (Some (JString t)))|].
    split; [by apply (truthy_string (Some (JString u)))|].
    split; intros E; rewrite E in *; done. }
  split; [split; [exact Htrue|]|split].
  - intros (t & u & Ht & Hu & Hte & Hue & Htt & Hut). rewrite Hdef, Ht, Hu. simpl.
    destruct (String.eqb_spec t "") as [|_]; [done|].
    destruct (String.eqb_spec u "") as [|_]; [done|]. simpl.
    destruct (String.length (trim t)) eqn:Hlt; [by apply length_zero_empty in Hlt|].
    destruct (String.length (trim u)) eqn:Hlu; [by apply length_zero_empty in Hlu|].
    done.
  - intros (t & u & Ht & Hu & Hte & Hue & _)%Htrue.
    apply SoundrawLaws.makeRequest_configured.
    + by apply (truthy_string _ t).
    + by apply (truthy_string _ u).
  - rewrite Hdef. destruct (truthy token) eqn:Ht; simpl;
      [|split; [done | by intros (? & _)]].
    destruct (truthy base) eqn:Hb; simpl; [|split; [done | by intros (_ & ? & _)]].
    destruct token as [[| | |t| |]|]; simpl;
      try (split; [intros _; split; [done|]; split; [done|]; by left | done]).
    destruct (String.length (trim t)) eqn:Hlt.
    + split; [done|]. intros (_ & _ & [H | (t' & [= <-] & Hne & _)]); [by destruct (H t)|].
      by apply length_zero_empty in Hlt.
    + assert (trim t <> "") as Hne by (intros E; by rewrite E in Hlt).
      destruct base as [[| | |u| |]|]; simpl;
        try (split; [intros _; split; [done|]; split; [done|]; right; by exists t | done]).
      split; [done|].
      intros (_ & _ & [H | (t' & _ & _ & H)]); [by destruct (H t) | by destruct (H u)].
Qed.

Lemma blank_iff (v : string) :
  String.eqb v "" || (String.length (trim v) =? 0)%nat = false
  <-> v <> "" /\ trim v <> "".
Proof.
  rewrite orb_false_iff. destruct (String.eqb_spec v "") as [->|Hne].
  - split; [by intros [? _] | by intros [? _]].
  - destruct (Nat.eqb_spec (String.length (trim v)) 0) as [Hl|Hl].
    + apply length_zero_empty in Hl. split; [by intros [_ ?] | by intros [_ ?]].
    + split; [|done]. intros _. split; [done|]. intros E. by rewrite E in Hl.
Qed.

(** X12.  The set-up command saves first and validates after.  With a token
    or a base URL that is empty or blank, [onSubmit] shows one failure toast
    and touches nothing.  Otherwise it stores the trimmed credentials and
    then makes the test call, and the credentials stay stored whatever the
    call answers; where the parser reads back what the printer made of them,
    the test call is one request to the trimmed base URL followed by
    [/tags], with the trimmed token as bearer; the command ends with the HUD
    and the way back when the call succeeds, and with a failure toast that
    carries the message of the client's error when it fails. *)
Theorem onSubmit_saves_before_validating (token apiBaseUrl createdAt : string) (h : Host) :
  let result := onSubmit JSON_parse JSON_stringify fetch trim token apiBaseUrl createdAt h in
  let stored :=
    saveSoundrawConfig JSON_stringify (trim token) (trim apiBaseUrl) createdAt (storage h) in
  let state :=
    JObject [("soundrawConfig",
              JObject [("token", JString (trim token));
                       ("apiBaseUrl", JString (trim apiBaseUrl));
                       ("createdAt", JString createdAt)])] in
  ((token = "" \/ trim token = "" \/ apiBaseUrl = "" \/ trim apiBaseUrl = "") ->
   exists message, result = ([ToastFailure "Error" message], h))
  /\ (token <> "" -> trim token <> "" -> apiBaseUrl <> "" -> trim apiBaseUrl <> "" ->
      storage result.2 = stored
      /\ (result.1 = [ToastAnimated "Validating Configuration" "Testing API connection...";
                      ShowHUD "Soundraw configuration saved and validated successfully!";
                      PopToRoot]
          \/ exists e,
               (getAvailableGenres JSON_parse fetch (mkHost stored (sent h))).1 = inl e
               /\ result.1 = [ToastAnimated "Validating Configuration"
                                "Testing API connection...";
                              ToastFailure "Validation Failed" (errorMessage e)])
      /\ (JSON_parse (JSON_stringify state) = Some state -> JSON_stringify state <> "" ->
          sent result.2
          = sent h ++ [mkApiRequest (trim apiBaseUrl +:+ "/tags")
                         (sentHeaders (Some (JString (trim token))))])).
Proof.
  intros result stored state. split.
  - intros Hblank. subst result. unfold onSubmit.
    destruct (String.eqb token "" || (String.length (trim token) =? 0)%nat) eqn:Ht;
      [eauto|].
    apply blank_iff in Ht as [Ht1 Ht2].
    destruct (String.eqb apiBaseUrl "" || (String.length (trim apiBaseUrl) =? 0)%nat) eqn:Hu;
      [eauto|].
    apply blank_iff in Hu as [Hu1 Hu2]. by destruct Hblank as [?|[?|[?|?]]].
  - intros Ht1 Ht2 Hu1 Hu2.
    assert (result = match getAvailableGenres JSON_parse fetch (mkHost stored (sent h)) with
                     | (inr _, h') =>
                         ([ToastAnimated "Validating Configuration" "Testing API connection...";
                           ShowHUD "Soundraw configuration saved and validated successfully!";
                           PopToRoot], h')
                     | (inl e, h') =>
                         ([ToastAnimated "Validating Configuration" "Testing API connection...";
                           ToastFailure "Validation Failed" (errorMessage e)], h')
                     end) as Hres.
    { subst result. unfold onSubmit.
      rewrite (proj2 (blank_iff token)), (proj2 (blank_iff apiBaseUrl)) by done. done. }
    assert (storage (getAvailableGenres JSON_parse fetch (mkHost stored (sent h))).2 = stored)
      as Hst.
    { unfold getAvailableGenres.
      destruct (makeRequest JSON_parse fetch "/tags" [] (mkHost stored (sent h)))
        as [[e|v] h'] eqn:Hreq; simpl.
      - exact (SoundrawLaws.makeRequest_storage _ _ _ _ _ _ _ Hreq).
      - exact (SoundrawLaws.makeRequest_storage _ _ _ _ _ _ _ Hreq). }
    split; [|split].
    + rewrite Hres.
      by destruct (getAvailableGenres JSON_parse fetch (mkHost stored (sent h))) as [[e|v] h'].
    + rewrite Hres.
      destruct (getAvailableGenres JSON_parse fetch (mkHost stored (sent h))) as [[e|v] h'];
        simpl; [right; by exists e | by left].
    + intros Hrt Hne.
      destruct (StorageLaws.saved_config_read JSON_parse JSON_stringify
                  (trim token) (trim apiBaseUrl) createdAt (storage h) Hrt Hne) as [Htok Hbase].
      fold stored in Htok, Hbase.
      assert ((getAvailableGenres JSON_parse fetch (mkHost stored (sent h))).2
              = mkHost stored
                  (sent h ++ [mkApiRequest (trim apiBaseUrl +:+ "/tags")
                                (sentHeaders (Some (JString (trim token))))])) as Hsent.
      { unfold getAvailableGenres. rewrite SoundrawLaws.makeRequest_configured; simpl.
        - by rewrite Htok, Hbase.
        - rewrite Htok. by apply (truthy_string _ (trim token)).
        - rewrite Hbase. by apply (truthy_string _ (trim apiBaseUrl)). }
      rewrite Hres.
      destruct (getAvailableGenres JSON_parse fetch (mkHost stored (sent h))) as [[e|v] h'];
        simpl in *; by rewrite Hsent.
Qed.

End Platform.

End CommandLaws.

Module SearchLaws.

Import Storage Soundraw Commands.

Section Platform.

Variable JSON_parse : string -> option Json.
Variable fetch : ApiRequest -> ApiFetchResult.
Variable urlencode : string -> string.


End Platform.

(** X14.  Every entry of the object of paths comes from a preparation that
    succeeded, and for a sample id other than [__proto__] the entry is the
    path of the last preparation that succeeded for that id: none when there
    is no such preparation. *)
Theorem buildPaths_keeps_the_last (results : list (Settlement (option (string * string))))
    (sampleId : string) :
  let pathsFor :=
    omap (fun result =>
            match result with
            | SFulfilled (Some (id, path)) =>
                if String.eqb id sampleId then Some path else None
            | _ => None
            end) results in
  (forall path, buildPaths results !! sampleId = Some path ->
                SFulfilled (Some (sampleId, path)) ∈ results)
  /\ (sampleId <> "__proto__" -> buildPaths results !! sampleId = last pathsFor)
  /\ buildPaths results !! "__proto__" = None.
Proof.
  intros pathsFor. subst pathsFor. unfold buildPaths.
  set (add := fun (paths : gmap string string) result =>
                match result with
                | SFulfilled (Some (id, path)) => setPath paths id path
                | _ => paths
                end).
  set (pick := fun (id : string) (result : Settlement (option (string * string))) =>
                 match result with
                 | SFulfilled (Some (id', path)) =>
                     if String.eqb id' id then Some path else None
                 | _ => @None string
                 end).
  assert (Hgen : forall rs (m : gmap string string) id,
             (forall path, fold_left add rs m !! id = Some path ->
                m !! id = Some path \/ SFulfilled (Some (id, path)) ∈ rs)
             /\ (id <> "__proto__" ->
                 fold_left add rs m !! id
                 = match last (omap (pick id) rs) with
                   | Some p => Some p
                   | None => m !! id
                   end)
             /\ (fold_left add rs m !! "__proto__" = m !! "__proto__")).
  { induction rs as [|r rs IH]; intros m id; [by auto|].
    destruct (IH (add m r) id) as (IH1 & IH2 & IH3). split; [|split].
    - simpl. intros path [H|H]%IH1; [|right; by right].
      destruct r as [[[id' p']|]|]; simpl in H; try by left.
      unfold setPath in H. destruct (String.eqb id' "__proto__"); [by left|].
      destruct (decide (id' = id)) as [->|Hne].
      + rewrite lookup_insert_eq in H. injection H as ->. right. by left.
      + rewrite lookup_insert_ne in H by done. by left.
    - intros Hid. simpl. rewrite IH2 by done.
      destruct r as [[[id' p']|]|]; simpl; try done.
      destruct (String.eqb_spec id' id) as [->|Hne].
      + change (list_omap _ _ (pick id) rs) with (omap (pick id) rs).
        rewrite last_cons. unfold setPath.
        destruct (String.eqb_spec id "__proto__") as [|_]; [done|].
        rewrite lookup_insert_eq. by destruct (last (omap (pick id) rs)).
      + unfold setPath. destruct (String.eqb id' "__proto__"); [done|].
        by rewrite lookup_insert_ne.
    - simpl. rewrite IH3. destruct r as [[[id' p']|]|]; simpl; try done.
      unfold setPath. destruct (String.eqb_spec id' "__proto__") as [->|Hne]; [done|].
      by rewrite lookup_insert_ne. }
  destruct (Hgen results ∅ sampleId) as (H1 & H2 & H3).
  split; [|split].
  - intros path [H|H]%H1; [|done]. rewrite lookup_empty in H. discriminate H.
  - intros Hid. rewrite H2 by done. rewrite lookup_empty.
    set (l := last (omap (pick sampleId) results)).
    change (match l with Some p => Some p | None => None end = l). by destruct l.
  - destruct (Hgen results ∅ "__proto__") as (_ & _ & ->). apply lookup_empty.
Qed.

End SearchLaws.

Module FileLaws.

Section Resolver.

Variable digest : string -> N.
Variable hashLen : nat.
Variable fetch : string -> FetchResult.

(** X15.  When the preparation of a sample answers an entry, the entry is
    for that sample, and the file at its path is on the disk with content:
     [prepareFiles] hands no path to the list that has no content to show;
    and a preparation that answers nothing has left no entry. *)
Theorem prepared_paths_hold_content (sample : Sample) (d d' : Disk) (id path : string) :
  File.prepareFile digest hashLen fetch sample d = (Some (id, path), d') ->
  id = sample_id sample
  /\ existsSync path d' = true
  /\ (0 < statSize path d')%nat
  /\ exists b bytes, files d' !! path = Some (b :: bytes).
Proof.
  assert (Hfile : forall p (dd : Disk),
             existsSync p dd = true -> (0 <? statSize p dd)%nat = true ->
             existsSync p dd = true /\ (0 < statSize p dd)%nat
             /\ exists b bytes, files dd !! p = Some (b :: bytes)).
  { intros p dd He Hs. apply Nat.ltb_lt in Hs. split; [done|]. split; [done|].
    unfold statSize in Hs. destruct (files dd !! p) as [[|b bytes]|]; simpl in Hs; try lia.
    eauto. }
  unfold File.prepareFile.
  destruct (existsSync _ d) eqn:He; simpl.
  - destruct (0 <? statSize _ d)%nat eqn:Hs.
    + intros [= <- <- <-]. split; [done|]. by apply Hfile.
    + destruct (File.getOrDownloadFile _ _ _ _ _ _ d) as [[e|f] d1]; [done|].
      destruct (existsSync (df_path f) d1) eqn:He1; [|done].
      destruct (0 <? statSize (df_path f) d1)%nat eqn:Hs1; [|done].
      intros [= <- <- <-]. split; [done|]. by apply Hfile.
  - destruct (File.getOrDownloadFile _ _ _ _ _ _ d) as [[e|f] d1]; [done|].
    destruct (existsSync (df_path f) d1) eqn:He1; [|done].
    destruct (0 <? statSize (df_path f) d1)%nat eqn:Hs1; [|done].
    intros [= <- <- <-]. split; [done|]. by apply Hfile.
Qed.

End Resolver.

Lemma prepared_paths_hold_content_witness :
  exists path d',
    File.prepareFile lengthDigest 8 okFetch (mkSample "s1" "Cool Beat!" "https://x/a.m4a" None)
      AudioSpec.emptyDisk = (Some ("s1", path), d')
    /\ existsSync path d' = true.
Proof.
  destruct (File.prepareFile lengthDigest 8 okFetch
              (mkSample "s1" "Cool Beat!" "https://x/a.m4a" None) AudioSpec.emptyDisk)
    as [[[id path]|] d'] eqn:H; [|vm_compute in H; discriminate].
  destruct (prepared_paths_hold_content lengthDigest 8 okFetch _ _ _ _ _ H) as (Hid & He & _).
  simpl in Hid. subst id. exists path, d'. by split.
Defined.

End FileLaws.

Module CleanupLaws.

Import Audio AudioSpec.




End CleanupLaws.
